(** * FinanceHelper frontend: message rendering, chat history and filters

    A shallow embedding of the Vue frontend of the knowledge bot:
    - the message bubble (segmentation of assistant text into prose and
      diagram source, the diagram sanitizer, the three-tier render with
      its escaped fallback);
    - the chat composable ([sendMessage], [clearChat]);
    - the filter composable ([loadFilters], [getActiveFilters]) and the
      two components that fetch metadata when they are mounted.

    JavaScript strings are sequences of UTF-16 code units: they are
    modelled as [list N].  Regular expressions are embedded by the
    backtracking search they denote: a quantifier is a loop over the
    number of code units it takes, greedy ones counting down and lazy
    ones counting up.  The same expressions are also written as syntax
    and run by a generic matcher, and the two readings are compared on
    sample texts.  Asynchronous functions are computations over the
    state of their component that end with a value or a thrown error;
    what the environment decides (the outcome of a fetch or of a render
    call, the clock) is a parameter. *)

From Stdlib Require Import Ascii String DecimalString.
From stdpp Require Import base numbers list strings gmap.

(** ** JavaScript strings *)

Module Js.

(** A string is its list of code units. *)
Definition str := list N.

(** The code unit of an ASCII character and the string of a literal. *)
Definition ch (a : ascii) : N := N_of_ascii a.
Definition js (s : string) : str := map N_of_ascii (list_ascii_of_string s).

Definition NL : N := 10.
Definition TAB : N := 9.
Definition DQUOTE : N := 34.

(** [\s] and the code units removed by [trim]: WhiteSpace and
    LineTerminator of the language definition. *)
Definition is_space (c : N) : bool :=
  (N.leb 9 c && N.leb c 13) || N.eqb c 32 || N.eqb c 160 || N.eqb c 5760
  || (N.leb 8192 c && N.leb c 8202) || N.eqb c 8232 || N.eqb c 8233
  || N.eqb c 8239 || N.eqb c 8287 || N.eqb c 12288 || N.eqb c 65279.

(** LineTerminator: what [^] and [$] look at under the [m] flag and what
    [.] refuses. *)
Definition is_line_terminator (c : N) : bool :=
  N.eqb c 10 || N.eqb c 13 || N.eqb c 8232 || N.eqb c 8233.

(** [\w] *)
Definition is_word (c : N) : bool :=
  (N.leb 48 c && N.leb c 57) || (N.leb 65 c && N.leb c 90) || N.eqb c 95
  || (N.leb 97 c && N.leb c 122).

(** [s.startsWith(p)] *)
Fixpoint startsWith (s p : str) {struct p} : bool :=
  match p, s with
  | [], _ => true
  | a :: p', b :: s' => N.eqb a b && startsWith s' p'
  | _ :: _, [] => false
  end.

(** [s.endsWith(p)] *)
Definition endsWith (s p : str) : bool := startsWith (rev s) (rev p).

(** [s.includes(p)] *)
Fixpoint includes (s p : str) : bool :=
  startsWith s p || match s with [] => false | _ :: r => includes r p end.

Fixpoint trimStart (s : str) : str :=
  match s with
  | c :: r => if is_space c then trimStart r else s
  | [] => []
  end.

Definition trimEnd (s : str) : str := rev (trimStart (rev s)).

(** [s.trim()] *)
Definition trim (s : str) : str := trimEnd (trimStart s).

(** [s.slice(i)] and [s.slice(i, j)] for indices within the string. *)
Definition slice_from (i : nat) (s : str) : str := drop i s.
Definition slice (i j : nat) (s : str) : str := take (j - i) (drop i s).

(** [s.split(sep)] for a separator of one code unit: never empty. *)
Fixpoint split (sep : N) (s : str) : list str :=
  match s with
  | [] => [[]]
  | c :: r =>
      if N.eqb c sep then [] :: split sep r
      else match split sep r with
           | l :: ls => (c :: l) :: ls
           | [] => [[c]]
           end
  end.

(** [ls.join(sep)] for a separator of one code unit. *)
Fixpoint join (sep : N) (ls : list str) : str :=
  match ls with
  | [] => []
  | [l] => l
  | l :: rest => l ++ sep :: join sep rest
  end.

(** A string is truthy when it is not empty. *)
Definition nonempty (s : str) : bool :=
  match s with [] => false | _ :: _ => true end.

End Js.

(** ** Regular expressions as backtracking searches *)

Module Regex.
Import Js.

(** The number of leading code units of [s] that satisfy [p]: the most a
    quantified character class can take. *)
Fixpoint run (p : N -> bool) (s : str) : nat :=
  match s with
  | c :: r => if p c then S (run p r) else 0
  | [] => 0
  end.

(** A greedy quantifier tries to take [n] code units, then [n - 1], and
    so on down to [lo]; [k] is the rest of the pattern. *)
Fixpoint greedy {A : Type} (lo n : nat) (k : nat -> option A) : option A :=
  if n <? lo then None
  else match k n with
       | Some r => Some r
       | None => match n with
                 | 0 => None
                 | S n' => greedy lo n' k
                 end
       end.

(** A lazy quantifier tries [lo], then [lo + 1], and so on, [fuel] times. *)
Fixpoint reluctant {A : Type} (fuel lo : nat) (k : nat -> option A) : option A :=
  match fuel with
  | 0 => None
  | S f => match k lo with
           | Some r => Some r
           | None => reluctant f (S lo) k
           end
  end.

(** A pattern tried at one position: the length of the match and its
    capture groups. *)
Definition pattern := str -> option (nat * list str).

(** The pattern of one code unit, as in [/&/]. *)
Definition unit_pattern (c : N) : pattern := fun s =>
  match s with
  | x :: _ => if N.eqb x c then Some (1, []) else None
  | [] => None
  end.

Section GlobalFlag.
Variable m : pattern.

(** [s.matchAll(m)] under the [g] flag: index, length and groups of
    every match, left to right; the search resumes after a match.  Every
    pattern of this development takes at least one code unit, so no
    match starts at the end of the input.  [skip] counts the code units
    of the current match that are still to be passed. *)
Fixpoint matchAll_from (skip idx : nat) (s : str) : list (nat * nat * list str) :=
  match s with
  | [] => []
  | _ :: r =>
      match skip with
      | S k => matchAll_from k (S idx) r
      | 0 =>
          match m s with
          | Some (len, g) => (idx, len, g) :: matchAll_from (len - 1) (S idx) r
          | None => matchAll_from 0 (S idx) r
          end
      end
  end.

Definition matchAll (s : str) : list (nat * nat * list str) :=
  matchAll_from 0 0 s.

(** [s.replace(m, f)] under the [g] flag: every match is replaced by
    what [f] makes of its groups, the rest is copied. *)
Fixpoint replace_from (f : list str -> str) (skip : nat) (s : str) : str :=
  match s with
  | [] => []
  | c :: r =>
      match skip with
      | S k => replace_from f k r
      | 0 =>
          match m s with
          | Some (len, g) => f g ++ replace_from f (len - 1) r
          | None => c :: replace_from f 0 r
          end
      end
  end.

Definition replace (f : list str -> str) (s : str) : str := replace_from f 0 s.

End GlobalFlag.

(** The first capture group. *)
Definition group1 (g : list str) : str := default [] (head g).

End Regex.

(** ** The message bubble: segmentation and sanitizing *)

Module MessageBubble.
Import Js Regex.

(** [/```mermaid\s*\n(B)```/g] with the lazy group [B = [\s\S]*?] *)
Definition FENCED_MERMAID : pattern := fun s =>
  if startsWith s (js "```mermaid") then
    let r := drop 10 s in
    greedy 0 (run is_space r) (fun k =>
      match drop k r with
      | c :: body =>
          if N.eqb c NL then
            reluctant (S (length body)) 0 (fun j =>
              if startsWith (drop j body) (js "```")
              then Some (10 + k + 1 + j + 3, [take j body])
              else None)
          else None
      | [] => None
      end)
  else None.

Definition keywords : list str :=
  map js ["flowchart"; "graph"; "sequenceDiagram"; "classDiagram";
          "stateDiagram"; "erDiagram"; "gantt"; "pie"; "gitgraph";
          "mindmap"; "timeline"]%string.

(** One of the keywords, then [\b]: every keyword ends in a word
    character, so the boundary asks for the end of the input or a
    character that is not one. *)
Definition keyword_here (s : str) : bool :=
  existsb (fun k =>
    startsWith s k &&
    match drop (length k) s with
    | c :: _ => negb (is_word c)
    | [] => true
    end) keywords.

(** [/^(flowchart|graph|...|timeline)\b/m]: the index of the first match.
    [bol] says that the position is at the start of a line: the start of
    the input or just after a line terminator. *)
Fixpoint MERMAID_KEYWORDS_from (bol : bool) (s : str) : option nat :=
  if bol && keyword_here s then Some 0
  else match s with
       | [] => None
       | c :: r => S <$> MERMAID_KEYWORDS_from (is_line_terminator c) r
       end.

Definition MERMAID_KEYWORDS (s : str) : option nat := MERMAID_KEYWORDS_from true s.

(** [/^\s*\w+[\[({]/] *)
Definition NODE_DECLARATION (s : str) : bool :=
  bool_decide (is_Some (
    greedy 0 (run is_space s) (fun k =>
      greedy 1 (run is_word (drop k s)) (fun j =>
        match drop (k + j) s with
        | c :: _ =>
            if N.eqb c (ch "[") || N.eqb c (ch "(") || N.eqb c (ch "{")
            then Some tt else None
        | [] => None
        end)))).

(** The condition under which the loop of [extractRawMermaid] keeps a
    line in the diagram. *)
Definition continues_diagram (line : str) : bool :=
  let stripped := trim line in
  negb (nonempty stripped)
  || startsWith line (js "    ")
  || startsWith line [TAB]
  || bool_decide (is_Some (MERMAID_KEYWORDS line))
  || startsWith stripped (js "style ")
  || startsWith stripped (js "classDef ")
  || startsWith stripped (js "class ")
  || includes stripped (js "-->")
  || includes stripped (js "---")
  || includes stripped (js "-.->")
  || startsWith stripped (js "subgraph")
  || startsWith stripped (js "end")
  || startsWith stripped (js "direction ")
  || NODE_DECLARATION stripped.

Record LineLoop := {
  mermaidLines : list str;
  restLines : list str;
  inDiagram : bool
}.

(** One turn of [for (const line of lines)]. *)
Definition line_step (st : LineLoop) (line : str) : LineLoop :=
  if inDiagram st then
    if continues_diagram line then
      {| mermaidLines := mermaidLines st ++ [line];
         restLines := restLines st;
         inDiagram := true |}
    else
      {| mermaidLines := mermaidLines st;
         restLines := restLines st ++ [line];
         inDiagram := false |}
  else
    {| mermaidLines := mermaidLines st;
       restLines := restLines st ++ [line];
       inDiagram := false |}.

(** [while (lines.length && !lines[lines.length - 1].trim()) lines.pop()],
    on the reversed list. *)
Fixpoint pop_blank (reversed : list str) : list str :=
  match reversed with
  | l :: r => if nonempty (trim l) then reversed else pop_blank r
  | [] => []
  end.

Record RawMermaid := {
  raw_before : str;
  raw_mermaid : str;
  raw_after : str
}.

Definition extractRawMermaid (text : str) : option RawMermaid :=
  match MERMAID_KEYWORDS text with
  | None => None
  | Some startIdx =>
      let before := slice 0 startIdx text in
      let lines := split NL (slice_from startIdx text) in
      let st := fold_left line_step lines
                  {| mermaidLines := []; restLines := []; inDiagram := true |} in
      let kept := rev (pop_blank (rev (mermaidLines st))) in
      Some {| raw_before := trim before;
              raw_mermaid := trim (join NL kept);
              raw_after := trim (join NL (restLines st)) |}
  end.

(** [/&/g], [/</g] and [/>/g], each with its replacement. *)
Definition escapeHtml (text : str) : str :=
  replace (unit_pattern (ch ">")) (fun _ => js "&gt;")
    (replace (unit_pattern (ch "<")) (fun _ => js "&lt;")
      (replace (unit_pattern (ch "&")) (fun _ => js "&amp;") text)).

(** [$] under the [m] flag. *)
Definition at_eol (s : str) : bool :=
  match s with
  | [] => true
  | c :: _ => is_line_terminator c
  end.

(** [/;\s*$/gm] *)
Definition TRAILING_SEMICOLON : pattern := fun s =>
  match s with
  | c :: r =>
      if N.eqb c (ch ";") then
        greedy 0 (run is_space r) (fun k =>
          if at_eol (drop k r) then Some (S k, []) else None)
      else None
  | [] => None
  end.

(** [/\[([^\]]+)\]/g] *)
Definition NODE_LABEL : pattern := fun s =>
  match s with
  | c :: r =>
      if N.eqb c (ch "[") then
        greedy 1 (run (fun x => negb (N.eqb x (ch "]"))) r) (fun k =>
          if startsWith (drop k r) [ch "]"] then Some (k + 2, [take k r]) else None)
      else None
  | [] => None
  end.

(** [/\|(G)\|/g] with the group [G = [^|]*] *)
Definition PIPE_LABEL : pattern := fun s =>
  match s with
  | c :: r =>
      if N.eqb c (ch "|") then
        greedy 0 (run (fun x => negb (N.eqb x (ch "|"))) r) (fun k =>
          if startsWith (drop k r) [ch "|"] then Some (k + 2, [take k r]) else None)
      else None
  | [] => None
  end.

(** [(-->|-.->|==>|\.\.>|\.->)]: the alternatives in their order; the
    dot of the second one is not escaped and takes any code unit that is
    not a line terminator. *)
Definition arrowhead (s : str) : option str :=
  if startsWith s (js "-->") then Some (take 3 s)
  else match s with
       | a :: x :: b :: c :: _ =>
           if N.eqb a (ch "-") && negb (is_line_terminator x)
              && N.eqb b (ch "-") && N.eqb c (ch ">")
           then Some (take 4 s)
           else if startsWith s (js "==>") || startsWith s (js "..>")
                   || startsWith s (js ".->")
                then Some (take 3 s) else None
       | _ =>
           if startsWith s (js "==>") || startsWith s (js "..>")
              || startsWith s (js ".->")
           then Some (take 3 s) else None
       end.

(** The class of the label: not a pipe, [>], a line feed or a double
    quote. *)
Definition edge_label_unit (c : N) : bool :=
  negb (N.eqb c (ch "|") || N.eqb c (ch ">") || N.eqb c NL || N.eqb c DQUOTE).

(** [/(--|\.\.|-\.)\s+(L+?)\s+(-->|-.->|==>|\.\.>|\.->)/g] with [L] the
    class above. *)
Definition EDGE_LABEL : pattern := fun s =>
  if startsWith s (js "--") || startsWith s (js "..") || startsWith s (js "-.") then
    let r := drop 2 s in
    greedy 1 (run is_space r) (fun n1 =>
      let r1 := drop n1 r in
      reluctant (run edge_label_unit r1) 1 (fun l =>
        let r2 := drop l r1 in
        greedy 1 (run is_space r2) (fun n2 =>
          match arrowhead (drop n2 r2) with
          | Some e => Some (2 + n1 + l + n2 + length e, [take 2 s; take l r1; e])
          | None => None
          end)))
  else None.

(** The callback of the node-label rule. *)
Definition quote_label (g : list str) : str :=
  let label := group1 g in
  let t := trim label in
  if startsWith t [DQUOTE] && endsWith t [DQUOTE] then
    [ch "["] ++ label ++ [ch "]"]
  else if existsb (fun c =>
            N.eqb c (ch "(") || N.eqb c (ch ")") || N.eqb c (ch "/")
            || N.eqb c (ch ":") || N.eqb c DQUOTE) t
  then [ch "["; DQUOTE] ++ replace (unit_pattern DQUOTE) (fun _ => []) t
       ++ [DQUOTE; ch "]"]
  else [ch "["] ++ label ++ [ch "]"].

(** The callback of the pipe-label rule. *)
Definition escape_pipe_label (g : list str) : str :=
  let label := group1 g in
  [ch "|"]
  ++ replace (unit_pattern (ch ")")) (fun _ => js "#41;")
       (replace (unit_pattern (ch "(")) (fun _ => js "#40;") label)
  ++ [ch "|"].

(** The callback of the edge-label rule. *)
Definition quote_edge_label (g : list str) : str :=
  match g with
  | [start; label; e] =>
      start ++ [ch " "; DQUOTE] ++ trim label ++ [DQUOTE; ch " "] ++ e
  | _ => []
  end.

(** The four rules of the sanitizer, each on the result of the one before. *)
Definition strip_semicolons (text : str) : str :=
  replace TRAILING_SEMICOLON (fun _ => []) text.
Definition quote_labels (text : str) : str := replace NODE_LABEL quote_label text.
Definition escape_pipe_labels (text : str) : str :=
  replace PIPE_LABEL escape_pipe_label text.
Definition quote_edge_labels (text : str) : str :=
  replace EDGE_LABEL quote_edge_label text.

Definition sanitizeMermaid (text : str) : str :=
  quote_edge_labels (escape_pipe_labels (quote_labels (strip_semicolons text))).

Inductive SegmentType := Md | Mermaid.

Record Segment := { seg_type : SegmentType; seg_text : str }.

(** One turn of [for (const match of text.matchAll(FENCED_MERMAID))]:
    the state is [segments] and [last]. *)
Definition fenced_step (text : str) (st : list Segment * nat)
    (mt : nat * nat * list str) : list Segment * nat :=
  let '(segments, last) := st in
  let '(index, len, g) := mt in
  let segments :=
    if last <? index
    then segments ++ [{| seg_type := Md; seg_text := slice last index text |}]
    else segments in
  (segments ++ [{| seg_type := Mermaid; seg_text := trim (group1 g) |}],
   index + len).

Definition fenced_pass (text : str) : list Segment * nat :=
  fold_left (fenced_step text) (matchAll FENCED_MERMAID text) ([], 0).

Section Segmenting.
(** The raw detection is a parameter here, [parseSegments] below closes
    it with [extractRawMermaid]. *)
Variable raw_detection : str -> option RawMermaid.

Definition parseSegments_with (text : str) : list Segment :=
  let '(segments, last) := fenced_pass text in
  if 0 <? length segments then
    if last <? length text
    then segments ++ [{| seg_type := Md; seg_text := slice_from last text |}]
    else segments
  else
    match raw_detection text with
    | Some raw =>
        (if nonempty (raw_before raw)
         then [{| seg_type := Md; seg_text := raw_before raw |}] else [])
        ++ [{| seg_type := Mermaid; seg_text := raw_mermaid raw |}]
        ++ (if nonempty (raw_after raw)
            then [{| seg_type := Md; seg_text := raw_after raw |}] else [])
    | None => [{| seg_type := Md; seg_text := text |}]
    end.

End Segmenting.

Definition parseSegments (text : str) : list Segment :=
  parseSegments_with extractRawMermaid text.

End MessageBubble.

(** ** The patterns once more, as syntax

    The patterns above embed each regular expression by hand.  Here the
    expressions are written as syntax and run by one backtracking
    matcher; the scenarios below check that the two readings agree. *)

Module Engine.
Import Js Regex MessageBubble.

(** The syntax of the patterns of the component. *)
Inductive re :=
  | Unit (p : N -> bool)
  | Lit (s : str)
  | Seq (a b : re)
  | Alt (a b : re)
  | Rep (is_greedy : bool) (lo : nat) (a : re)
  | Cap (n : nat) (a : re)
  | Bol
  | Eol
  | WordBoundary.

(** Where a match attempt stands: the code unit before the position,
    the text from the position on, how much was taken, the captures. *)
Record cursor := {
  before : option N;
  ahead : str;
  taken : nat;
  caps : list (nat * str)
}.

Definition advance (n : nat) (c : cursor) : cursor :=
  {| before := match last (take n (ahead c)) with Some x => Some x | None => before c end;
     ahead := drop n (ahead c);
     taken := taken c + n;
     caps := caps c |}.

Definition capture (n : nat) (from to : cursor) : cursor :=
  {| before := before to; ahead := ahead to; taken := taken to;
     caps := (n, take (taken to - taken from) (ahead from)) :: caps to |}.

Definition word_before (c : cursor) : bool :=
  match before c with Some x => is_word x | None => false end.
Definition word_ahead (c : cursor) : bool :=
  match ahead c with x :: _ => is_word x | [] => false end.

(** The backtracking match of the language: alternatives in their
    order, a greedy repetition tries one more turn first and a lazy one
    tries to stop first, a turn that takes nothing is refused.  The
    continuation [k] is the rest of the pattern; the [m] flag is on. *)
Fixpoint run_re {R : Type} (fuel : nat) (r : re) (c : cursor) (k : cursor -> option R)
    : option R :=
  match fuel with
  | 0 => None
  | S f =>
      match r with
      | Unit p =>
          match ahead c with
          | x :: _ => if p x then k (advance 1 c) else None
          | [] => None
          end
      | Lit s => if startsWith (ahead c) s then k (advance (length s) c) else None
      | Seq a b => run_re f a c (fun c' => run_re f b c' k)
      | Alt a b =>
          match run_re f a c k with
          | Some res => Some res
          | None => run_re f b c k
          end
      | Rep is_greedy lo a =>
          let more :=
            run_re f a c (fun c' =>
              if taken c <? taken c' then run_re f (Rep is_greedy (pred lo) a) c' k
              else None) in
          let stop := match lo with 0 => k c | S _ => None end in
          if is_greedy
          then match more with Some res => Some res | None => stop end
          else match stop with Some res => Some res | None => more end
      | Cap n a => run_re f a c (fun c' => k (capture n c c'))
      | Bol =>
          match before c with
          | None => k c
          | Some x => if is_line_terminator x then k c else None
          end
      | Eol =>
          match ahead c with
          | [] => k c
          | x :: _ => if is_line_terminator x then k c else None
          end
      | WordBoundary => if xorb (word_before c) (word_ahead c) then k c else None
      end
  end.

Definition group_of (c : cursor) (n : nat) : str :=
  default [] (snd <$> List.find (fun p => Nat.eqb (fst p) n) (caps c)).

(** The pattern tried at a position, with the number of its groups. *)
Definition try_at (r : re) (groups : nat) (prev : option N) (s : str)
    : option (nat * list str) :=
  run_re (4 * length s + 64) r
    {| before := prev; ahead := s; taken := 0; caps := [] |}
    (fun c => Some (taken c, map (group_of c) (seq 1 groups))).

Definition pattern_of (r : re) (groups : nat) : pattern := try_at r groups None.

(** The index of the first match, as [match] and [test] find it. *)
Fixpoint search_from (r : re) (prev : option N) (s : str) : option nat :=
  match try_at r 0 prev s with
  | Some _ => Some 0
  | None => match s with
            | [] => None
            | x :: rest => S <$> search_from r (Some x) rest
            end
  end.

Definition any (c : N) : bool := true.
Definition dot (c : N) : bool := negb (is_line_terminator c).
Definition one (a : ascii) (c : N) : bool := N.eqb c (ch a).
Definition none_of (l : list N) (c : N) : bool := negb (existsb (N.eqb c) l).
Definition one_of (l : list N) (c : N) : bool := existsb (N.eqb c) l.

Definition star (a : re) := Rep true 0 a.
Definition plus (a : re) := Rep true 1 a.
Definition lazy_star (a : re) := Rep false 0 a.
Definition lazy_plus (a : re) := Rep false 1 a.

(** The seven patterns of the component, read off the source. *)
Definition FENCED_MERMAID_re : re :=
  Seq (Lit (js "```mermaid")) (Seq (star (Unit is_space)) (Seq (Unit (N.eqb NL))
    (Seq (Cap 1 (lazy_star (Unit any))) (Lit (js "```"))))).

Definition MERMAID_KEYWORDS_re : re :=
  Seq Bol (Seq (Cap 1 (fold_right Alt (Lit (js "timeline"))
    (map Lit (map js ["flowchart"; "graph"; "sequenceDiagram"; "classDiagram";
                      "stateDiagram"; "erDiagram"; "gantt"; "pie"; "gitgraph";
                      "mindmap"]%string)))) WordBoundary).

(** Without the [m] flag [^] is the start of the input: the pattern is
    only tried there. *)
Definition NODE_DECLARATION_re : re :=
  Seq (star (Unit is_space)) (Seq (plus (Unit is_word))
    (Unit (one_of [ch "["; ch "("; ch "{"]))).

Definition TRAILING_SEMICOLON_re : re :=
  Seq (Unit (one ";")) (Seq (star (Unit is_space)) Eol).

Definition NODE_LABEL_re : re :=
  Seq (Unit (one "[")) (Seq (Cap 1 (plus (Unit (none_of [ch "]"])))) (Unit (one "]"))).

Definition PIPE_LABEL_re : re :=
  Seq (Unit (one "|")) (Seq (Cap 1 (star (Unit (none_of [ch "|"])))) (Unit (one "|"))).

Definition EDGE_LABEL_re : re :=
  Seq (Cap 1 (Alt (Lit (js "--")) (Alt (Lit (js "..")) (Lit (js "-.")))))
  (Seq (plus (Unit is_space))
  (Seq (Cap 2 (lazy_plus (Unit (none_of [ch "|"; ch ">"; NL; DQUOTE]))))
  (Seq (plus (Unit is_space))
  (Cap 3 (Alt (Lit (js "-->"))
         (Alt (Seq (Unit (one "-")) (Seq (Unit dot) (Lit (js "->"))))
         (Alt (Lit (js "==>")) (Alt (Lit (js "..>")) (Lit (js ".->")))))))))).

(** The sanitizer and the fenced pass with the patterns as syntax. *)
Definition sanitizeMermaid_re (text : str) : str :=
  replace (pattern_of EDGE_LABEL_re 3) quote_edge_label
    (replace (pattern_of PIPE_LABEL_re 1) escape_pipe_label
      (replace (pattern_of NODE_LABEL_re 1) quote_label
        (replace (pattern_of TRAILING_SEMICOLON_re 0) (fun _ => []) text))).

(** Texts on which the two readings of the patterns are compared. *)
Definition samples : list str :=
  [ js "A[Start] --> B[End (done)]";
    js "A;" ++ [NL; NL] ++ js "B;  " ++ [NL] ++ js "C[a|(b)|c] -- yes it is --> D; x";
    js "[x -- y -->z] A -. t .-> B .. u ..> C -- q ==> D -- a -x-> E";
    js "A[" ++ [DQUOTE] ++ js "ok(1)" ++ [DQUOTE] ++ js "] B[say " ++ [DQUOTE] ++ js "hi"
      ++ [DQUOTE] ++ js ": x] C[] D[ ] E[[a:b]";
    js "a --  b  c   --> d -- e" ++ [NL] ++ js " --> f ..  g ..> h -- i > j --> k";
    js "x;" ++ [13%N; NL] ++ js "y; " ++ [TAB] ++ js ";;" ++ [NL] ++ js ";";
    js "||a|(|)|b|c(d)|";
    js "--  -->  --> -- -- --> ---> -- a --->";
    js "```mermaid" ++ [NL] ++ js "A" ++ [NL] ++ js "``````mermaid  " ++ [NL; NL] ++ js " B```x";
    js "```mermaid ```mermaid" ++ [NL] ++ js "``` ```mermaid" ++ [NL] ++ js "x";
    js "text graph TD" ++ [NL] ++ js "graphs" ++ [NL] ++ js " pie" ++ [NL] ++ js "pie chart";
    js "gitgraph";
    js "a" ++ [13%N] ++ js "gantt_x" ++ [8232%N] ++ js "gantt-x";
    js "  abc_1(x"; js "abc (x"; js "{"; js "a{" ].

End Engine.

(** ** Asynchronous code: state and rejection *)

Module Async.
Import Js.

(** How a call ends: with a value, or by throwing (a rejected promise
    under [await]) with an error that carries its message. *)
Inductive Result (A : Type) : Type :=
  | Ok (a : A)
  | Threw (message : str).
Arguments Ok {A} a.
Arguments Threw {A} message.

(** A computation over the shared state [W] of a component. *)
Definition M (W A : Type) : Type := W -> Result A * W.

Definition ret {W A : Type} (a : A) : M W A := fun w => (Ok a, w).

Definition throw {W A : Type} (e : str) : M W A := fun w => (Threw e, w).

Definition bind {W A B : Type} (c : M W A) (k : A -> M W B) : M W B :=
  fun w =>
    match c w with
    | (Ok a, w') => k a w'
    | (Threw e, w') => (Threw e, w')
    end.

(** [try { c } catch (e) { handler }]: what [c] did to the state before
    it threw stays done. *)
Definition try_catch {W A : Type} (c : M W A) (handler : str -> M W A) : M W A :=
  fun w =>
    match c w with
    | (Ok a, w') => (Ok a, w')
    | (Threw e, w') => handler e w'
    end.

(** [try { c } finally { f }] *)
Definition try_finally {W A : Type} (c : M W A) (f : M W unit) : M W A :=
  fun w =>
    match c w with
    | (r, w') =>
        match f w' with
        | (Ok _, w'') => (r, w'')
        | (Threw e, w'') => (Threw e, w'')
        end
    end.

Definition get {W : Type} : M W W := fun w => (Ok w, w).
Definition modify {W : Type} (f : W -> W) : M W unit := fun w => (Ok tt, f w).

(** [await] of an outcome that the environment has decided. *)
Definition await {W A : Type} (r : Result A) : M W A := fun w => (r, w).

(** [for (const x of xs) body], the loop state threaded through. *)
Fixpoint for_of {W A S : Type} (body : S -> A -> M W S) (xs : list A) (s : S) : M W S :=
  match xs with
  | [] => ret s
  | x :: rest => bind (body s x) (for_of body rest)
  end.

(** [await Promise.all([p1, p2, p3])] on outcomes: the three values, or
    the error of a rejected one (the first in the order of the array
    here; which one wins in time is the choice of the scheduler). *)
Definition Promise_all3 {A B C : Type}
    (p1 : Result A) (p2 : Result B) (p3 : Result C) : Result (A * B * C) :=
  match p1, p2, p3 with
  | Ok a, Ok b, Ok c => Ok (a, b, c)
  | Threw e, _, _ => Threw e
  | _, Threw e, _ => Threw e
  | _, _, Threw e => Threw e
  end.

End Async.

Declare Scope async_scope.
Delimit Scope async_scope with async.
Notation "'do' x <- c ; k" := (Async.bind c (fun x => k))
  (at level 10, x name, c at level 100, k at level 200) : async_scope.
Notation "'exec' c ; k" := (Async.bind c (fun _ => k))
  (at level 10, c at level 100, k at level 200) : async_scope.

(** ** The message bubble: rendering *)

Module Render.
Import Js Regex MessageBubble Async.
Local Open Scope async_scope.

(** A rendered unit as the template consumes it: [{type: 'html', html}]
    or [{type: 'svg', svg}]. *)
Inductive RenderedUnit :=
  | Html (html : str)
  | Svg (svg : str).

(** What an invocation of [render] does that can be observed from
    outside, in the order in which it does it. *)
Inductive Event :=
  | Issued (id source : str)
  | Settled (id : str) (outcome : Result str)
  | Removed (id : str)
  | Warned (detail : str)
  | Published (units : list RenderedUnit).

(** The state around one bubble: [rendered] is the ref of the template,
    [clock] counts the calls to the outside, [log] records the events. *)
Record World := {
  rendered : list RenderedUnit;
  clock : nat;
  log : list Event
}.

Definition emit (e : Event) : M World unit :=
  modify (fun w => {| rendered := rendered w; clock := clock w; log := log w ++ [e] |}).

Definition tick : M World nat :=
  fun w => (Ok (clock w),
            {| rendered := rendered w; clock := S (clock w); log := log w |}).

Section Environment.
(** The libraries and the clock of the page: [marked.parse], the outcome
    of each [mermaid.render] call, [Date.now()] and
    [Math.random().toString(36).slice(2)], the last three by the number
    of the call. *)
Variable marked_parse : str -> str.
Variable mermaid_outcome : nat -> str -> str -> Result str.
Variable Date_now : nat -> str.
Variable Math_random : nat -> str.

(** [await mermaid.render(id, source)]: the call is issued, and the
    bubble goes on when it has settled. *)
Definition mermaid_render (id source : str) : M World str :=
  do n <- tick ;
  exec emit (Issued id source) ;
  let outcome := mermaid_outcome n id source in
  exec emit (Settled id outcome) ;
  await outcome.

Definition cleanupMermaidElement (id : str) : M World unit := emit (Removed id).

Definition console_warn (detail : str) : M World unit := emit (Warned detail).

Definition fresh_id : M World str :=
  do n <- tick ;
  ret (js "mermaid-" ++ Date_now n ++ js "-" ++ Math_random n).

Definition fallback_open : str :=
  js "<pre class=" ++ [DQUOTE] ++ js "bg-gray-200 p-2 rounded text-sm overflow-x-auto"
  ++ [DQUOTE] ++ js "><code>".
Definition fallback_close : str := js "</code></pre>".

(** The last tier: the escaped source as a preformatted code block. *)
Definition fallback_code_block (source : str) : RenderedUnit :=
  Html (fallback_open ++ escapeHtml source ++ fallback_close).

(** The body of the loop of [render] for a diagram segment: the unit it
    pushes. *)
Definition render_diagram (source : str) : M World RenderedUnit :=
  do id <- fresh_id ;
  let sanitized := sanitizeMermaid source in
  try_catch
    (do svg <- mermaid_render id sanitized ; ret (Svg svg))
    (fun err =>
       exec cleanupMermaidElement id ;
       try_catch
         (do svg <- mermaid_render (id ++ js "r") source ; ret (Svg svg))
         (fun err2 =>
            exec cleanupMermaidElement (id ++ js "r") ;
            exec console_warn err2 ;
            ret (fallback_code_block source))).

(** The body of the loop of [render]. *)
Definition render_segment (result : list RenderedUnit) (seg : Segment)
    : M World (list RenderedUnit) :=
  match seg_type seg with
  | Md => ret (result ++ [Html (marked_parse (seg_text seg))])
  | Mermaid => do u <- render_diagram (seg_text seg) ; ret (result ++ [u])
  end.

(** [rendered.value = result] *)
Definition publish (result : list RenderedUnit) : M World unit :=
  modify (fun w => {| rendered := result; clock := clock w;
                      log := log w ++ [Published result] |}).

(** The loop of [render] over the segments, then the assignment. *)
Definition render_segments (segs : list Segment) : M World unit :=
  do result <- for_of render_segment segs [] ;
  publish result.

(** [props.content] may be missing: [props.content || ''] *)
Definition render (content : option str) : M World unit :=
  render_segments (parseSegments (default [] content)).

End Environment.

End Render.

(** ** The chat composable *)

Module Chat.
Import Js Async.
Local Open Scope async_scope.

Inductive Role := assistant | user.

Section Sources.
(** The citations are what the backend sends; the frontend only stores them. *)
Variable Source : Type.

Record Message := {
  role : Role;
  content : str;
  sources : list Source
}.

Definition greeting : Message :=
  {| role := assistant;
     content := js "Ask me anything and I'll retrieve the docs and cite relevant sources.";
     sources := [] |}.

(** The refs of the module.  An element of the array is a message or
    [undefined], which is [None]: reading index 0 of an empty array
    gives it. *)
Record ChatWorld := {
  messages : list (option Message);
  loading : bool
}.

Definition initial : ChatWorld := {| messages := [Some greeting]; loading := false |}.

(** [messages.value.push(msg)] *)
Definition push_message (msg : Message) : M ChatWorld unit :=
  modify (fun w => {| messages := messages w ++ [Some msg]; loading := loading w |}).

Definition set_loading (b : bool) : M ChatWorld unit :=
  modify (fun w => {| messages := messages w; loading := b |}).

(** The answer of the backend: [data.answer] and [data.sources]. *)
Record Answer := { answer : str; answer_sources : list Source }.

(** [sendMessage] up to its [await]. *)
Definition sendMessage_begin (query : str) : M ChatWorld unit :=
  exec push_message {| role := user; content := query; sources := [] |} ;
  set_loading true.

(** [sendMessage] from the point where [postQuery] has settled. *)
Definition sendMessage_settle (outcome : Result Answer) : M ChatWorld unit :=
  try_finally
    (try_catch
       (do data <- await outcome ;
        push_message {| role := assistant; content := answer data;
                        sources := answer_sources data |})
       (fun e =>
          push_message {| role := assistant; content := js "Error: " ++ e;
                          sources := [] |}))
    (set_loading false).

(** [sendMessage(query, filters)]; the filters only travel to the
    backend, whose outcome is [postQuery]. *)
Definition sendMessage (postQuery : Result Answer) (query : str) : M ChatWorld unit :=
  exec sendMessage_begin query ;
  sendMessage_settle postQuery.

(** [messages.value = [messages.value[0]]] *)
Definition clearChat : M ChatWorld unit :=
  modify (fun w => {| messages := [default None (head (messages w))]; loading := loading w |}).

(** What can happen to the chat state, one step at a time.  A
    [sendMessage] is two steps, with its [await] between them, where
    other steps can take place. *)
Inductive step : ChatWorld -> ChatWorld -> Prop :=
  | step_begin query w : step w (sendMessage_begin query w).2
  | step_settle outcome w : step w (sendMessage_settle outcome w).2
  | step_clear w : step w (clearChat w).2.

Inductive reachable : ChatWorld -> Prop :=
  | reachable_initial : reachable initial
  | reachable_step w w' : reachable w -> step w w' -> reachable w'.

End Sources.

End Chat.

(** ** The filter composable and the metadata fetches *)

Module Filters.
Import Js Async.
Local Open Scope async_scope.

Section Numbers.
(** The numbers of the language stay abstract: [number_truthy] is false
    on zero and on NaN. *)
Variable number : Type.
Variable number_truthy : number -> bool.

(** What a selection ref can hold: [null], a string, or a number (the
    year input is of type number). *)
Inductive jsval :=
  | JNull
  | JStr (s : str)
  | JNum (n : number).

(** The [parseInt] of the language, on any value. *)
Variable parseInt : jsval -> number.

Definition truthy (v : jsval) : bool :=
  match v with
  | JNull => false
  | JStr s => nonempty s
  | JNum n => number_truthy n
  end.

Record FilterWorld := {
  owners : list jsval;
  companies : list jsval;
  categories : list jsval;
  selectedOwner : jsval;
  selectedCompany : jsval;
  selectedCategory : jsval;
  selectedYear : jsval
}.

Definition initial : FilterWorld :=
  {| owners := []; companies := []; categories := [];
     selectedOwner := JNull; selectedCompany := JNull;
     selectedCategory := JNull; selectedYear := JNull |}.

Definition set_lists (o co ca : list jsval) : M FilterWorld unit :=
  modify (fun w =>
    {| owners := o; companies := co; categories := ca;
       selectedOwner := selectedOwner w; selectedCompany := selectedCompany w;
       selectedCategory := selectedCategory w; selectedYear := selectedYear w |}).

(** [loadFilters], given how the three fetches end. *)
Definition loadFilters (getOwners getCompanies getCategories : Result (list jsval))
    : M FilterWorld unit :=
  do fetched <- await (Promise_all3 getOwners getCompanies getCategories) ;
  let '(o, co, ca) := fetched in
  set_lists o co ca.

(** [onMounted(loadFilters)] of the filter sidebar: the hook is the
    function itself, nothing stands between its rejection and the
    framework. *)
Definition FilterSidebar_onMounted := loadFilters.

(** The object [f] that [getActiveFilters] builds and returns. *)
Definition getActiveFilters (w : FilterWorld) : gmap string jsval :=
  let f : gmap string jsval := ∅ in
  let f := if truthy (selectedOwner w)
           then <["owner"%string := selectedOwner w]> f else f in
  let f := if truthy (selectedCompany w)
           then <["company"%string := selectedCompany w]> f else f in
  let f := if truthy (selectedCategory w)
           then <["category"%string := selectedCategory w]> f else f in
  let f := if truthy (selectedYear w)
           then <["year"%string := JNum (parseInt (selectedYear w))]> f else f in
  f.

Definition clearFilters (w : FilterWorld) : FilterWorld :=
  {| owners := owners w; companies := companies w; categories := categories w;
     selectedOwner := JNull; selectedCompany := JNull;
     selectedCategory := JNull; selectedYear := JNull |}.

End Numbers.

Section Header.
(** The counts shown in the header, as the backend sends them. *)
Variable Stats : Type.

(** The ref [stats] of the header, [null] at first. *)
Record HeaderWorld := { stats : option Stats }.

Definition header_initial : HeaderWorld := {| stats := None |}.

(** The [onMounted] hook of the header:
    [try { stats.value = await getStats() } catch { }] *)
Definition Header_onMounted (getStats : Result Stats) : M HeaderWorld unit :=
  try_catch
    (do s <- await getStats ;
     modify (fun _ => {| stats := Some s |}))
    (fun _ => ret tt).

End Header.

End Filters.

(** ** The API client *)

Module ApiClient.
Import Js Async Filters.
Local Open Scope async_scope.

(** What [fetch] resolves to: [res.ok], [res.status], and how
    [res.json()] ends. *)
Record Response (A : Type) := {
  ok : bool;
  status : N;
  json : Result A
}.
Arguments ok {A} r.
Arguments status {A} r.
Arguments json {A} r.

(** A status in a template literal: its decimal digits. *)
Definition decimal (n : N) : str := js (NilZero.string_of_uint (N.to_uint n)).

Section Requests.
Variable number : Type.

(** What the client hands to [fetch]: the path, whether the method is
    POST, and the object that is serialized into the body. *)
Record Request := {
  url : str;
  post : bool;
  body : option (gmap string (jsval number))
}.

(** [{ query, ...filters }]: the properties of [filters] are copied
    behind [query] and win over it. *)
Definition query_body (query : str) (filters : gmap string (jsval number))
    : gmap string (jsval number) :=
  filters ∪ {[ "query"%string := JStr number query ]}.

Variable W : Type.
Variable A : Type.
(** [fetch], in the world of the caller. *)
Variable fetch : Request -> M W (Response A).

Definition postQuery (query : str) (filters : gmap string (jsval number)) : M W A :=
  do res <- fetch {| url := js "/api/query"; post := true;
                     body := Some (query_body query filters) |} ;
  if negb (ok res) then throw (js "Query failed: " ++ decimal (status res))
  else await (json res).

(** The five getters differ in their path only. *)
Definition get_json (path : str) : M W A :=
  do res <- fetch {| url := path; post := false; body := None |} ;
  await (json res).

Definition getOwners : M W A := get_json (js "/api/metadata/owners").
Definition getCompanies : M W A := get_json (js "/api/metadata/companies").
Definition getCategories : M W A := get_json (js "/api/metadata/categories").
Definition getStats : M W A := get_json (js "/api/metadata/stats").
Definition getGraphData : M W A := get_json (js "/api/graph/data").

End Requests.

End ApiClient.

(** ** The chat panel *)

Module ChatPanel.
Import Js Async Filters Chat ApiClient.
Local Open Scope async_scope.

Section Panel.
Variable Source : Type.
Variable number : Type.
Variable number_truthy : number -> bool.
Variable parseInt : jsval number -> number.

(** The refs the panel works on: its input, the chat of the composable,
    and, for the record, the requests that left the page. *)
Record PanelWorld := {
  input : str;
  chat : ChatWorld Source;
  requests : list (Request number)
}.

(** The network: how the [n]-th request of the page ends. *)
Variable network : nat -> Request number -> Result (Response (Answer Source)).

Definition fetch (r : Request number) : M PanelWorld (Response (Answer Source)) :=
  fun w =>
    (network (length (requests w)) r,
     {| input := input w; chat := chat w; requests := requests w ++ [r] |}).

(** A step of the composable, run on the chat of the panel. *)
Definition on_chat {B : Type} (c : M (ChatWorld Source) B) : M PanelWorld B :=
  fun w =>
    match c (chat w) with
    | (r, chat') => (r, {| input := input w; chat := chat'; requests := requests w |})
    end.

(** How a call ends, as a value: what the [try] of [sendMessage] sees of
    [await postQuery(query, filters)]. *)
Definition settled {W B : Type} (c : M W B) : M W (Result B) :=
  fun w => match c w with (r, w') => (Ok r, w') end.

(** [sendMessage(query, filters)] with the client behind it. *)
Definition sendMessage_via_client (query : str) (filters : gmap string (jsval number))
    : M PanelWorld unit :=
  exec on_chat (sendMessage_begin Source query) ;
  do outcome <- settled (postQuery number PanelWorld (Answer Source) fetch query filters) ;
  on_chat (sendMessage_settle Source outcome).

Definition set_input (s : str) : M PanelWorld unit :=
  modify (fun w => {| input := s; chat := chat w; requests := requests w |}).

(** [handleSubmit]; the filters are read when the message is sent. *)
Definition handleSubmit (fw : FilterWorld number) : M PanelWorld unit :=
  do w <- get ;
  let query := trim (input w) in
  if negb (nonempty query) then ret tt
  else
    exec set_input [] ;
    sendMessage_via_client query (getActiveFilters number number_truthy parseInt fw).

End Panel.

End ChatPanel.

(** ** The graph composable and the graph explorer *)

Module Graph.
Import Js Async.
Local Open Scope async_scope.

Section Explorer.
(** The identities of the nodes are what the backend sends. *)
Variable Id : Type.
(** The members that every object inherits, by their name; all of them
    are truthy. *)
Variable Member : Type.
Variable Object_prototype : str -> option Member.

(** The backend is taken to answer with [null] or with an object that
    holds the two arrays, as its API says. *)
Record Node := { node_id : Id; node_label : str; node_type : str }.
Record Edge := { source : Id; target : Id; relationship : str }.
Record GraphData := { nodes : list Node; edges : list Edge }.

(** The refs of the composable; [null] is [None]. *)
Record GraphWorld := {
  graphData : option GraphData;
  graphLoading : bool
}.

Definition graph_initial : GraphWorld := {| graphData := None; graphLoading := false |}.

Definition set_graphLoading (b : bool) : M GraphWorld unit :=
  modify (fun w => {| graphData := graphData w; graphLoading := b |}).

Definition set_graphData (d : option GraphData) : M GraphWorld unit :=
  modify (fun w => {| graphData := d; graphLoading := graphLoading w |}).

(** [loadGraph], given how [getGraphData()] ends. *)
Definition loadGraph (getGraphData : Result (option GraphData)) : M GraphWorld unit :=
  exec set_graphLoading true ;
  try_finally
    (do d <- await getGraphData ; set_graphData d)
    (set_graphLoading false).

Definition TYPE_COLORS : list (str * str) :=
  [ (js "Document", js "#60a5fa");
    (js "Owner", js "#f472b6");
    (js "Company", js "#34d399");
    (js "Category", js "#fbbf24");
    (js "Year", js "#a78bfa") ].

(** [table[key]] on an object literal with the given own properties. *)
Fixpoint own_property (table : list (str * str)) (key : str) : option str :=
  match table with
  | [] => None
  | (k, v) :: rest => if bool_decide (k = key) then Some v else own_property rest key
  end.

(** What the colour of a node can be: a string, or a member that the
    table inherits. *)
Inductive Colour :=
  | ColourText (c : str)
  | Inherited (m : Member).

(** [TYPE_COLORS[type] || '#9ca3af'] *)
Definition colour_of (type : str) : Colour :=
  match own_property TYPE_COLORS type with
  | Some c => if nonempty c then ColourText c else ColourText (js "#9ca3af")
  | None =>
      match Object_prototype type with
      | Some m => Inherited m
      | None => ColourText (js "#9ca3af")
      end
  end.

Record NodeView := {
  view_id : Id;
  view_label : str;
  view_colour : Colour;
  view_shape : str;
  view_size : nat;
  view_title : str;
  view_font_size : nat
}.

Record EdgeView := {
  edge_id : nat;
  edge_from : Id;
  edge_to : Id;
  edge_label : str;
  edge_arrows : str;
  edge_font_size : nat;
  edge_font_align : str;
  edge_colour : str
}.

Definition is_document (n : Node) : bool := bool_decide (node_type n = js "Document").

(** The callback of [nodes.map]. *)
Definition node_view (n : Node) : NodeView :=
  {| view_id := node_id n;
     view_label := node_label n;
     view_colour := colour_of (node_type n);
     view_shape := if is_document n then js "dot" else js "diamond";
     view_size := if is_document n then 12 else 18;
     view_title := node_type n ++ js ": " ++ node_label n;
     view_font_size := 10 |}.

(** The callback of [edges.map], with the index. *)
Definition edge_view (i : nat) (e : Edge) : EdgeView :=
  {| edge_id := i;
     edge_from := source e;
     edge_to := target e;
     edge_label := relationship e;
     edge_arrows := js "to";
     edge_font_size := 8;
     edge_font_align := js "middle";
     edge_colour := js "#9ca3af" |}.

(** What the hook of the explorer hands to the data sets of the network,
    when it gets that far: [container] says that the template ref is
    set. *)
Definition drawing (container : bool) (w : GraphWorld)
    : option (list NodeView * list EdgeView) :=
  match graphData w with
  | None => None
  | Some d =>
      if negb container then None
      else Some (map node_view (nodes d), imap edge_view (edges d))
  end.

(** The [onMounted] hook of the explorer, up to the construction of the
    network: the value is what is drawn, if anything. *)
Definition Explorer_onMounted (container : bool) (getGraphData : Result (option GraphData))
    : M GraphWorld (option (list NodeView * list EdgeView)) :=
  exec loadGraph getGraphData ;
  do w <- get ;
  ret (drawing container w).

End Explorer.

End Graph.

(** * The vocabulary of the properties

    The predicates and the example texts that the statements below use. *)

Module JsSpec.
Import Js.

(** A string of white space only. *)
Definition all_space (s : str) : Prop := Forall (fun c => is_space c = true) s.

End JsSpec.

(** ** Escaped text *)

Module EscapeSpec.
Import Js Regex MessageBubble.

(** What [escapeHtml] writes for one code unit. *)
Definition escape_unit (c : N) : str :=
  if N.eqb c (ch "&") then js "&amp;"
  else if N.eqb c (ch "<") then js "&lt;"
  else if N.eqb c (ch ">") then js "&gt;"
  else [c].

(** Every ampersand starts one of the three entities that [escapeHtml]
    writes. *)
Fixpoint no_bare_ampersand (s : str) : bool :=
  match s with
  | [] => true
  | c :: r =>
      (if N.eqb c (ch "&")
       then startsWith r (js "amp;") || startsWith r (js "lt;") || startsWith r (js "gt;")
       else true)
      && no_bare_ampersand r
  end.

End EscapeSpec.

(** ** Segments in a text *)

Module SegmentSpec.
Import Js Regex MessageBubble JsSpec.

(** The two kinds of segment. *)
Definition is_diagram (seg : Segment) : bool :=
  match seg_type seg with Mermaid => true | Md => false end.

Definition is_prose (seg : Segment) : bool :=
  match seg_type seg with Md => true | Mermaid => false end.

(** The texts laid out in their order, each behind its gap, with one
    more gap at the end. *)
Definition weave (gaps texts : list str) (last : str) : str :=
  concat (zip_with app gaps texts) ++ last.

(** The text [t] is the texts in their order, without overlap, up to
    gaps that all satisfy [gap]. *)
Definition covers (gap : str -> Prop) (t : str) (texts : list str) : Prop :=
  exists gaps last,
    length gaps = length texts /\ Forall gap gaps /\ gap last
    /\ t = weave gaps texts last.

(** What lies between the segments of a text with fenced blocks: white
    space and the two delimiters of a block. *)
Inductive fence_gap : str -> Prop :=
  | gap_end : fence_gap []
  | gap_space c s : is_space c = true -> fence_gap s -> fence_gap (c :: s)
  | gap_open s : fence_gap s -> fence_gap (js "```mermaid" ++ s)
  | gap_close s : fence_gap s -> fence_gap (js "```" ++ s).

(** A code unit that [trim] and the gaps of white space never drop. *)
Definition not_space (c : N) : bool := negb (is_space c).

Definition md_segment (text : str) : Segment := {| seg_type := Md; seg_text := text |}.
Definition mermaid_segment (text : str) : Segment :=
  {| seg_type := Mermaid; seg_text := text |}.

(** The segments that [parseSegments] makes of a raw detection. *)
Definition raw_segments (raw : RawMermaid) : list Segment :=
  (if nonempty (raw_before raw) then [md_segment (raw_before raw)] else [])
  ++ [mermaid_segment (raw_mermaid raw)]
  ++ (if nonempty (raw_after raw) then [md_segment (raw_after raw)] else []).

(** A text without fenced block, with a raw diagram in its middle. *)
Definition raw_example : str :=
  js "Notes" ++ [NL] ++ js "flowchart TD" ++ [NL] ++ js "  A --> B" ++ [NL] ++ js "More text".

(** A text that is one fenced block. *)
Definition fenced_example : str :=
  js "```mermaid" ++ [NL] ++ js "A-->B" ++ [NL] ++ js "```".

(** A keyword line, then a fenced block. *)
Definition keyword_then_fence : str :=
  js "graph TD" ++ [NL] ++ js "```mermaid" ++ [NL] ++ js "A-->B" ++ [NL] ++ js "```".

End SegmentSpec.

(** ** Matches in a text *)

Module ScanSpec.
Import Js Regex.

(** The text with every match of the list replaced by what [f] makes of
    its groups: the text between the matches is copied. *)
Fixpoint splice (f : list str -> str) (t : str) (pos : nat)
    (ms : list (nat * nat * list str)) : str :=
  match ms with
  | [] => slice_from pos t
  | (index, len, g) :: rest => slice pos index t ++ f g ++ splice f t (index + len) rest
  end.

(** A pattern that takes at least one code unit whenever it matches. *)
Definition productive (m : pattern) : Prop :=
  forall s len g, m s = Some (len, g) -> 1 <= len.

(** The matches of a search lie one behind the other: each is a match of
    the pattern at its index, which is not before [pos], the end of the
    match before it. *)
Inductive tiled (m : pattern) (t : str) : nat -> list (nat * nat * list str) -> Prop :=
  | tiled_nil pos : tiled m t pos []
  | tiled_cons pos index len g rest :
      pos <= index ->
      m (drop index t) = Some (len, g) ->
      tiled m t (index + len) rest ->
      tiled m t pos ((index, len, g) :: rest).

End ScanSpec.

(** ** Labels and safe texts *)

Module SanitizerSpec.
Import Js Regex MessageBubble.

(** The characters that make the node-label rule quote a label, and the
    two that the pipe-label rule rewrites. *)
Definition is_special (c : N) : bool :=
  N.eqb c (ch "(") || N.eqb c (ch ")") || N.eqb c (ch "/")
  || N.eqb c (ch ":") || N.eqb c DQUOTE.

Definition is_paren (c : N) : bool := N.eqb c (ch "(") || N.eqb c (ch ")").

(** The trimmed label starts and ends with a double quote. *)
Definition quoted (t : str) : bool := startsWith t [DQUOTE] && endsWith t [DQUOTE].

(** What the node-label rule is said to write for the label [L] between
    brackets: the label as it is when it is quoted or holds no special
    character, else the trimmed label without its double quotes, between
    double quotes. *)
Definition label_rule (L : str) : str :=
  let t := trim L in
  if quoted t then [ch "["] ++ L ++ [ch "]"]
  else if existsb is_special t
  then [ch "["; DQUOTE] ++ List.filter (fun c => negb (N.eqb c DQUOTE)) t ++ [DQUOTE; ch "]"]
  else [ch "["] ++ L ++ [ch "]"].

(** The four conditions under which no rule of the sanitizer has
    anything to repair. *)
Definition no_trailing_semicolon (t : str) : bool :=
  match matchAll TRAILING_SEMICOLON t with [] => true | _ :: _ => false end.

Definition no_label_to_quote (t : str) : bool :=
  forallb (fun mt : nat * nat * list str =>
             let l := trim (group1 mt.2) in quoted l || negb (existsb is_special l))
          (matchAll NODE_LABEL t).

Definition no_paren_in_pipe_label (t : str) : bool :=
  forallb (fun mt : nat * nat * list str => negb (existsb is_paren (group1 mt.2)))
          (matchAll PIPE_LABEL t).

(** By the pattern of the code, for which hyphen, any character, hyphen
    and [>] is an arrowhead. *)
Definition no_unquoted_edge_label (t : str) : bool :=
  match matchAll EDGE_LABEL t with [] => true | _ :: _ => false end.

Definition triggers_no_rule (t : str) : bool :=
  no_trailing_semicolon t && no_label_to_quote t
  && no_paren_in_pipe_label t && no_unquoted_edge_label t.

End SanitizerSpec.

(** ** Runs of the render pipeline *)

Module RenderSpec.
Import Js Regex MessageBubble Async Render SegmentSpec.

(** What the loop of [render] does for one segment: the unit it pushes
    and the events it leaves, in their order.  A diagram is tried
    sanitized, then as it came, then given up. *)
Inductive segment_run (marked_parse : str -> str)
    : Segment -> RenderedUnit -> list Event -> Prop :=
  | run_prose text :
      segment_run marked_parse {| seg_type := Md; seg_text := text |}
        (Html (marked_parse text)) []
  | run_sanitized source id svg :
      segment_run marked_parse {| seg_type := Mermaid; seg_text := source |}
        (Svg svg)
        [Issued id (sanitizeMermaid source); Settled id (Ok svg)]
  | run_original source id e svg :
      segment_run marked_parse {| seg_type := Mermaid; seg_text := source |}
        (Svg svg)
        [Issued id (sanitizeMermaid source); Settled id (Threw e); Removed id;
         Issued (id ++ js "r") source; Settled (id ++ js "r") (Ok svg)]
  | run_fallback source id e e2 :
      segment_run marked_parse {| seg_type := Mermaid; seg_text := source |}
        (fallback_code_block source)
        [Issued id (sanitizeMermaid source); Settled id (Threw e); Removed id;
         Issued (id ++ js "r") source; Settled (id ++ js "r") (Threw e2);
         Removed (id ++ js "r"); Warned e2].

(** No render call is open. *)
Definition none_open (open : list str) : bool :=
  match open with [] => true | _ :: _ => false end.

(** The render calls that were issued and have not settled, in the order
    of their issue. *)
Fixpoint in_flight (open : list str) (evs : list Event) : list str :=
  match evs with
  | [] => open
  | Issued id _ :: rest => in_flight (open ++ [id]) rest
  | Settled id _ :: rest => in_flight (filter (fun x => x <> id) open) rest
  | _ :: rest => in_flight open rest
  end.

Definition is_published (e : Event) : bool :=
  match e with Published _ => true | _ => false end.

Definition is_issued (e : Event) : bool :=
  match e with Issued _ _ => true | _ => false end.

(** No render call is issued while another one has not settled. *)
Fixpoint one_at_a_time (open : list str) (evs : list Event) : bool :=
  match evs with
  | [] => true
  | Issued id _ :: rest => none_open open && one_at_a_time (open ++ [id]) rest
  | Settled id _ :: rest => one_at_a_time (filter (fun x => x <> id) open) rest
  | _ :: rest => one_at_a_time open rest
  end.

(** All the render tasks are issued before any of them is waited for:
    the invocation starts with one [Issued] event for each diagram
    segment. *)
Definition issues_all_first (segs : list Segment) (evs : list Event) : bool :=
  let n := length (filter (fun seg => is_diagram seg = true) segs) in
  (n <=? length evs) && forallb is_issued (take n evs).

(** The bubble before its first render. *)
Definition start : World := {| rendered := []; clock := 0; log := [] |}.

(** The identity of the first attempt of a diagram rendered from [w]. *)
Definition first_id (Date_now Math_random : nat -> str) (w : World) : str :=
  js "mermaid-" ++ Date_now (clock w) ++ js "-" ++ Math_random (clock w).

(** The text of two fenced diagrams, one after the other. *)
Definition two_diagrams : str :=
  js "```mermaid" ++ [NL] ++ js "A-->B" ++ [NL] ++ js "```" ++ [NL]
  ++ js "```mermaid" ++ [NL] ++ js "C-->D" ++ [NL] ++ js "```".

End RenderSpec.

(** ** States of the chat *)

Module ChatSpec.
Import Js Async Chat.

(** The array starts with the greeting. *)
Definition greets (Source : Type) (w : ChatWorld Source) : Prop :=
  exists rest, messages Source w = Some (greeting Source) :: rest.

(** A state of the chat: a question was sent, the chat was cleared while
    the backend worked, and then the answer failed. *)
Definition cleared_while_waiting : ChatWorld unit :=
  (sendMessage_settle unit (Threw (js "Query failed: 500"))
     (clearChat unit (sendMessage_begin unit (js "hello") (initial unit)).2).2).2.

End ChatSpec.

(** ** Decoding the escaped text *)

Module EscapeMoreSpec.
Import Js Regex MessageBubble.

(** The reading of the three entities back into their characters;
    [skip] counts the code units of an entity that are still to be
    passed. *)
Fixpoint unescape_from (skip : nat) (s : str) : str :=
  match s with
  | [] => []
  | c :: r =>
      match skip with
      | S k => unescape_from k r
      | 0 =>
          if startsWith s (js "&amp;") then ch "&" :: unescape_from 4 r
          else if startsWith s (js "&lt;") then ch "<" :: unescape_from 3 r
          else if startsWith s (js "&gt;") then ch ">" :: unescape_from 3 r
          else c :: unescape_from 0 r
      end
  end.

Definition unescapeHtml (s : str) : str := unescape_from 0 s.

(** A code unit that [escapeHtml] copies. *)
Definition is_plain (c : N) : bool :=
  negb (N.eqb c (ch "&") || N.eqb c (ch "<") || N.eqb c (ch ">")).

End EscapeMoreSpec.

(** ** Render calls and their cleanup *)

Module RenderMoreSpec.
Import Js Regex MessageBubble Async Render SegmentSpec RenderSpec.

Definition issued_count (evs : list Event) : nat := length (List.filter is_issued evs).

(** Every render call that failed is followed at once by the removal of
    the element of its identity, and nothing else is removed. *)
Fixpoint cleaned_up (evs : list Event) : bool :=
  match evs with
  | [] => true
  | Settled id (Threw _) :: rest =>
      match rest with
      | Removed id' :: rest' => bool_decide (id' = id) && cleaned_up rest'
      | _ => false
      end
  | Removed _ :: _ => false
  | _ :: rest => cleaned_up rest
  end.

(** The sources of the render calls of a run, in the order of their
    issue. *)
Fixpoint calls_of (evs : list Event) : list str :=
  match evs with
  | [] => []
  | Issued _ source :: rest => source :: calls_of rest
  | _ :: rest => calls_of rest
  end.

(** The render calls that fit a segment: none for prose; for a diagram
    one call with the sanitized text, or that call and then one with the
    text as it came. *)
Definition calls_fit (seg : Segment) (tr : list Event) : Prop :=
  match seg_type seg with
  | Md => calls_of tr = []
  | Mermaid =>
      calls_of tr = [sanitizeMermaid (seg_text seg)]
      \/ calls_of tr = [sanitizeMermaid (seg_text seg); seg_text seg]
  end.

End RenderMoreSpec.

(** ** The runs of the segments, by the answers of the renderer *)

Module RenderClockSpec.
Import Js Regex MessageBubble Async Render SegmentSpec RenderSpec.

Section Page.
Variable marked_parse : str -> str.
Variable mermaid_outcome : nat -> str -> str -> Result str.
Variable Date_now : nat -> str.
Variable Math_random : nat -> str.

(** The identity that a diagram gets at tick [n] of the page. *)
Definition id_at (n : nat) : str :=
  js "mermaid-" ++ Date_now n ++ js "-" ++ Math_random n.

(** The run of one segment that starts at tick [n] and ends at the tick
    given last: the unit that is pushed and the events that are left,
    decided by what the renderer answers.  Prose takes no tick; a
    diagram takes one for its identity and one for each render call. *)
Inductive segment_run_at : nat -> Segment -> RenderedUnit -> list Event -> nat -> Prop :=
  | at_prose n text :
      segment_run_at n {| seg_type := Md; seg_text := text |}
        (Html (marked_parse text)) [] n
  | at_sanitized n source svg :
      mermaid_outcome (S n) (id_at n) (sanitizeMermaid source) = Ok svg ->
      segment_run_at n {| seg_type := Mermaid; seg_text := source |}
        (Svg svg)
        [Issued (id_at n) (sanitizeMermaid source); Settled (id_at n) (Ok svg)]
        (S (S n))
  | at_original n source e svg :
      mermaid_outcome (S n) (id_at n) (sanitizeMermaid source) = Threw e ->
      mermaid_outcome (S (S n)) (id_at n ++ js "r") source = Ok svg ->
      segment_run_at n {| seg_type := Mermaid; seg_text := source |}
        (Svg svg)
        [Issued (id_at n) (sanitizeMermaid source); Settled (id_at n) (Threw e);
         Removed (id_at n);
         Issued (id_at n ++ js "r") source; Settled (id_at n ++ js "r") (Ok svg)]
        (S (S (S n)))
  | at_fallback n source e e2 :
      mermaid_outcome (S n) (id_at n) (sanitizeMermaid source) = Threw e ->
      mermaid_outcome (S (S n)) (id_at n ++ js "r") source = Threw e2 ->
      segment_run_at n {| seg_type := Mermaid; seg_text := source |}
        (fallback_code_block source)
        [Issued (id_at n) (sanitizeMermaid source); Settled (id_at n) (Threw e);
         Removed (id_at n);
         Issued (id_at n ++ js "r") source; Settled (id_at n ++ js "r") (Threw e2);
         Removed (id_at n ++ js "r"); Warned e2]
        (S (S (S n))).

(** The runs of the segments of a list, one behind the other: each
    starts at the tick at which the one before it ended, and the units
    and the traces stand at the positions of their segments. *)
Inductive runs_from
    : nat -> list Segment -> list RenderedUnit -> list (list Event) -> nat -> Prop :=
  | runs_nil n : runs_from n [] [] [] n
  | runs_cons n n1 n2 seg u tr segs units traces :
      segment_run_at n seg u tr n1 ->
      runs_from n1 segs units traces n2 ->
      runs_from n (seg :: segs) (u :: units) (tr :: traces) n2.

End Page.

(** A renderer that answers every call with the text it was given. *)
Definition echo : nat -> str -> str -> Result str := fun _ _ source => Ok source.

End RenderClockSpec.

(** ** The edge labels as they are listed *)

Module ListedSpec.
Import Js Regex MessageBubble SanitizerSpec.

(** The five arrowhead tokens as the description of the fourth rule
    lists them: two hyphens and [>], hyphen dot hyphen [>], two equals
    signs and [>], two dots and [>], dot hyphen [>].  The dot of the
    second token is a dot here; [arrowhead] above is what the pattern of
    the code takes. *)
Definition listed_arrowhead (s : str) : option str :=
  if startsWith s (js "-->") then Some (take 3 s)
  else if startsWith s (js "-.->") then Some (take 4 s)
  else if startsWith s (js "==>") || startsWith s (js "..>") || startsWith s (js ".->")
  then Some (take 3 s)
  else None.

(** The edge-label pattern over a reading of the arrowhead: a line-style
    token, white space, the label, white space and an arrowhead. *)
Definition edge_label_with (head : str -> option str) : pattern := fun s =>
  if startsWith s (js "--") || startsWith s (js "..") || startsWith s (js "-.") then
    let r := drop 2 s in
    greedy 1 (run is_space r) (fun n1 =>
      let r1 := drop n1 r in
      reluctant (run edge_label_unit r1) 1 (fun l =>
        let r2 := drop l r1 in
        greedy 1 (run is_space r2) (fun n2 =>
          match head (drop n2 r2) with
          | Some e => Some (2 + n1 + l + n2 + length e, [take 2 s; take l r1; e])
          | None => None
          end)))
  else None.

Definition LISTED_EDGE_LABEL : pattern := edge_label_with listed_arrowhead.

(** No unquoted edge label between a line-style token and one of the
    listed arrowhead tokens. *)
Definition no_listed_edge_label (t : str) : bool :=
  match matchAll LISTED_EDGE_LABEL t with [] => true | _ :: _ => false end.

(** A text that holds none of the four patterns as they are listed: no
    semicolon at the end of a line, no bracketed label to quote, no
    parenthesis between pipes, no unquoted edge label before a listed
    arrowhead. *)
Definition safe_as_listed (t : str) : bool :=
  no_trailing_semicolon t && no_label_to_quote t
  && no_paren_in_pipe_label t && no_listed_edge_label t.

(** A bracketed label with an edge whose arrow is none of the listed
    ones. *)
Definition crossed_arrow : str := js "[a -- b -x-> c]".

End ListedSpec.

(** ** The chat panel *)

Module PanelSpec.
Import Js Async Filters Chat ApiClient ChatPanel.

Section Panel.
Variable Source : Type.
Variable number : Type.

(** Every element of the array of messages is a message. *)
Definition all_defined (w : ChatWorld Source) : Prop :=
  Forall (fun m => m <> None) (messages Source w).

(** The message of the assistant that closes a [sendMessage]: the answer,
    or the error of the request. *)
Definition reply_of (outcome : Result (Response (Answer Source))) : Message Source :=
  let failed (e : str) :=
    {| role := assistant; content := js "Error: " ++ e; sources := [] |} in
  match outcome with
  | Threw e => failed e
  | Ok res =>
      if ok res then
        match json res with
        | Ok data => {| role := assistant; content := answer Source data;
                        sources := answer_sources Source data |}
        | Threw e => failed e
        end
      else failed (js "Query failed: " ++ decimal (status res))
  end.

(** The request that carries a query. *)
Definition query_request (query : str) (filters : gmap string (jsval number))
    : Request number :=
  {| url := js "/api/query"; post := true; body := Some (query_body number query filters) |}.

End Panel.

End PanelSpec.

(** ** The shape of a segment list *)

Module SegmentMoreSpec.
Import Js Regex MessageBubble SegmentSpec.

(** No prose segment is empty and no two prose segments follow each
    other; [after_prose] says that the segment before is prose. *)
Fixpoint alternates (after_prose : bool) (segs : list Segment) : bool :=
  match segs with
  | [] => true
  | seg :: rest =>
      match seg_type seg with
      | Md => negb after_prose && nonempty (seg_text seg) && alternates true rest
      | Mermaid => alternates false rest
      end
  end.

(** Whether a list ends in prose, [b] standing for what is before it. *)
Definition ends_in_prose (b : bool) (segs : list Segment) : bool :=
  match last segs with
  | Some seg => is_prose seg
  | None => b
  end.

(** A keyword has no line feed inside and no white space at its ends. *)
Definition solid (k : str) : bool :=
  negb (existsb (N.eqb NL) k)
  && match k with c :: _ => negb (is_space c) | [] => false end
  && match rev k with c :: _ => negb (is_space c) | [] => false end.

(** The state in which [extractRawMermaid] enters its loop. *)
Definition loop_start : LineLoop :=
  {| mermaidLines := []; restLines := []; inDiagram := true |}.

End SegmentMoreSpec.

Module SanitizerMoreSpec.
Import Js Regex MessageBubble.

(** What the node-label and the pipe-label patterns share: an opening
    code unit, at least [lo] code units other than the closing one, and
    the closing one. *)
Definition delimited (opn close : N) (lo : nat) : pattern := fun s =>
  match s with
  | c :: r =>
      if N.eqb c opn then
        greedy lo (run (fun x => negb (N.eqb x close)) r) (fun k =>
          if startsWith (drop k r) [close] then Some (k + 2, [take k r]) else None)
      else None
  | [] => None
  end.

(** The code units that the sanitizer adds or removes around the text of
    a diagram: semicolons, double quotes and white space. *)
Definition is_dressing (c : N) : bool :=
  N.eqb c (ch ";") || N.eqb c DQUOTE || is_space c.

(** A text without them. *)
Definition substance (t : str) : str := List.filter (fun c => negb (is_dressing c)) t.

End SanitizerMoreSpec.

(** * The scenarios of the specification, evaluated *)

Module Scenarios.
Import Js Regex MessageBubble Engine SegmentSpec.

(** The raw detection on the text of the scenario. *)
Example raw_scenario :
  parseSegments raw_example
  = [md_segment (js "Notes");
     mermaid_segment (js "flowchart TD" ++ [NL] ++ js "  A --> B");
     md_segment (js "More text")].
Proof. vm_compute. reflexivity. Qed.

(** The fenced scenario: the prose segments are the slices around the
    block and keep their line feeds. *)
Example fenced_scenario :
  parseSegments (js "Here is the flow:" ++ [NL] ++ js "```mermaid" ++ [NL]
                 ++ js "flowchart TD" ++ [NL] ++ js "A[Start] --> B[End (done)]" ++ [NL]
                 ++ js "```" ++ [NL] ++ js "Done.")
  = [md_segment (js "Here is the flow:" ++ [NL]);
     mermaid_segment (js "flowchart TD" ++ [NL] ++ js "A[Start] --> B[End (done)]");
     md_segment ([NL] ++ js "Done.")].
Proof. vm_compute. reflexivity. Qed.

(** Two blocks that touch, the second with blank lines after its
    opening delimiter. *)
Example touching_blocks :
  parseSegments (js "```mermaid" ++ [NL] ++ js "A" ++ [NL] ++ js "``````mermaid  "
                 ++ [NL; NL] ++ js " B```x")
  = [mermaid_segment (js "A"); mermaid_segment (js "B"); md_segment (js "x")].
Proof. vm_compute. reflexivity. Qed.

(** A keyword counts at the start of a line and before a boundary only;
    the diagram ends at the first line that is none of its kinds, and
    its trailing blank lines go. *)
Example raw_boundaries :
  parseSegments (js "text graph TD" ++ [NL] ++ js "graphs" ++ [NL] ++ js " pie" ++ [NL]
                 ++ js "pie chart" ++ [NL] ++ js "A[x]" ++ [NL; NL] ++ js "end"
                 ++ [NL; NL; NL] ++ js "bye" ++ [NL] ++ js "A-->B")
  = [md_segment (js "text graph TD" ++ [NL] ++ js "graphs" ++ [NL] ++ js " pie");
     mermaid_segment (js "pie chart" ++ [NL] ++ js "A[x]" ++ [NL; NL] ++ js "end");
     md_segment (js "bye" ++ [NL] ++ js "A-->B")].
Proof. vm_compute. reflexivity. Qed.

(** The semicolon rule takes the white space behind the semicolon up to
    the last line end before the next text. *)
Example semicolons :
  sanitizeMermaid (js "A;" ++ [NL; NL] ++ js "B;  " ++ [NL] ++ js "C; x")
  = js "A" ++ [NL] ++ js "B" ++ [NL] ++ js "C; x".
Proof. vm_compute. reflexivity. Qed.

(** The edge-label rule with each of its arrowheads. *)
Example edge_labels :
  sanitizeMermaid (js "A -- yes it is --> B -. t .-> C .. u ..> D -- q ==> E -- a -x-> F")
  = js "A -- " ++ [DQUOTE] ++ js "yes it is" ++ [DQUOTE] ++ js " --> B -. "
    ++ [DQUOTE] ++ js "t" ++ [DQUOTE] ++ js " .-> C .. "
    ++ [DQUOTE] ++ js "u" ++ [DQUOTE] ++ js " ..> D -- "
    ++ [DQUOTE] ++ js "q" ++ [DQUOTE] ++ js " ==> E -- "
    ++ [DQUOTE] ++ js "a" ++ [DQUOTE] ++ js " -x-> F".
Proof. vm_compute. reflexivity. Qed.

(** The escaping of the scenario: the double quote stays. *)
Example escaped_script :
  escapeHtml (js "<script>&" ++ [DQUOTE] ++ js "</script>")
  = js "&lt;script&gt;&amp;" ++ [DQUOTE] ++ js "&lt;/script&gt;".
Proof. vm_compute. reflexivity. Qed.

(** The patterns embedded by hand and the patterns run as syntax find
    the same matches on the sample texts. *)
Example sanitizer_readings_agree :
  forallb (fun s => bool_decide (sanitizeMermaid_re s = sanitizeMermaid s)) samples = true.
Proof. vm_compute. reflexivity. Qed.

Example fenced_readings_agree :
  forallb (fun s => bool_decide (matchAll (pattern_of FENCED_MERMAID_re 1) s
                                 = matchAll FENCED_MERMAID s)) samples = true.
Proof. vm_compute. reflexivity. Qed.

Example edge_readings_agree :
  forallb (fun s => bool_decide (matchAll (pattern_of EDGE_LABEL_re 3) s
                                 = matchAll EDGE_LABEL s)) samples = true.
Proof. vm_compute. reflexivity. Qed.

Example keyword_readings_agree :
  forallb (fun s => bool_decide (search_from MERMAID_KEYWORDS_re None s = MERMAID_KEYWORDS s))
          samples = true.
Proof. vm_compute. reflexivity. Qed.

Example declaration_readings_agree :
  forallb (fun s => bool_decide (bool_decide (is_Some (pattern_of NODE_DECLARATION_re 0 s))
                                 = NODE_DECLARATION s)) samples = true.
Proof. vm_compute. reflexivity. Qed.

End Scenarios.

(** * Facts about strings *)

Module JsFacts.
Import Js JsSpec.

Lemma all_space_app (a b : str) : all_space a -> all_space b -> all_space (a ++ b).
Proof. apply Forall_app_2. Qed.

Lemma all_space_rev (a : str) : all_space a -> all_space (rev a).
Proof.
  unfold all_space. rewrite !Forall_forall. intros H c Hc.
  apply H. apply list_elem_of_In, in_rev, list_elem_of_In. exact Hc.
Qed.

(** What [trimStart] removes is white space, and what it leaves does not
    start with white space. *)
Lemma trimStart_split (s : str) :
  exists ws, all_space ws /\ s = ws ++ trimStart s.
Proof.
  induction s as [|c r [ws [Hws Hr]]]; simpl.
  - exists []. split; [constructor | reflexivity].
  - destruct (is_space c) eqn:Hc.
    + exists (c :: ws). split; [constructor; assumption |].
      simpl. congruence.
    + exists []. split; [constructor | reflexivity].
Qed.

Lemma trimEnd_split (s : str) :
  exists ws, all_space ws /\ s = trimEnd s ++ ws.
Proof.
  unfold trimEnd. destruct (trimStart_split (rev s)) as [ws [Hws Hs]].
  exists (rev ws). split; [apply all_space_rev; exact Hws |].
  rewrite <- rev_app_distr, <- Hs, rev_involutive. reflexivity.
Qed.

(** [trim] only removes white space, at the two ends. *)
Lemma trim_split (s : str) :
  exists ws1 ws2, all_space ws1 /\ all_space ws2 /\ s = ws1 ++ trim s ++ ws2.
Proof.
  destruct (trimStart_split s) as [ws1 [H1 Hs1]].
  destruct (trimEnd_split (trimStart s)) as [ws2 [H2 Hs2]].
  exists ws1, ws2. repeat split; try assumption.
  unfold trim. rewrite <- Hs2. exact Hs1.
Qed.

Lemma trim_empty_all_space (s : str) : nonempty (trim s) = false -> all_space s.
Proof.
  intros H. destruct (trim_split s) as [ws1 [ws2 [H1 [H2 Hs]]]].
  destruct (trim s); [| discriminate].
  rewrite Hs. simpl. apply all_space_app; assumption.
Qed.

Lemma startsWith_app (s p : str) : startsWith s p = true -> s = p ++ drop (length p) s.
Proof.
  revert s. induction p as [|a p IH]; intros s H; simpl in *.
  - reflexivity.
  - destruct s as [|b s]; [discriminate |].
    apply andb_true_iff in H as [Hab Hs]. apply N.eqb_eq in Hab. subst b.
    simpl. f_equal. apply IH. exact Hs.
Qed.

Lemma startsWith_prefix (p r : str) : startsWith (p ++ r) p = true.
Proof.
  induction p as [|a p IH]; simpl; [reflexivity |].
  rewrite N.eqb_refl. exact IH.
Qed.

Lemma join_cons (sep : N) (l : str) (ls : list str) :
  ls <> [] -> join sep (l :: ls) = l ++ sep :: join sep ls.
Proof. destruct ls; [congruence | reflexivity]. Qed.

Lemma join_cons_head (sep c : N) (l : str) (ls : list str) :
  join sep ((c :: l) :: ls) = c :: join sep (l :: ls).
Proof. destruct ls; reflexivity. Qed.

Lemma split_nonempty (sep : N) (s : str) : split sep s <> [].
Proof.
  destruct s as [|c r]; simpl; [discriminate |].
  destruct (N.eqb c sep); [discriminate |].
  destruct (split sep r); discriminate.
Qed.

(** Splitting at a separator and joining with it gives the string back. *)
Lemma join_split (sep : N) (s : str) : join sep (split sep s) = s.
Proof.
  induction s as [|c r IH]; [reflexivity |].
  simpl split. destruct (N.eqb c sep) eqn:Hc.
  - apply N.eqb_eq in Hc. subst c.
    rewrite join_cons by apply split_nonempty. rewrite IH. reflexivity.
  - pose proof (split_nonempty sep r) as Hne.
    destruct (split sep r) as [|l ls]; [congruence |].
    rewrite join_cons_head, IH. reflexivity.
Qed.

Lemma join_app (sep : N) (a b : list str) :
  a <> [] -> b <> [] -> join sep (a ++ b) = join sep a ++ sep :: join sep b.
Proof.
  intros Ha Hb. induction a as [|x a IH]; [congruence |].
  destruct a as [|y a].
  - simpl. destruct b; [congruence | reflexivity].
  - change (join sep ((x :: y :: a) ++ b)) with (x ++ sep :: join sep ((y :: a) ++ b)).
    rewrite IH by discriminate.
    change (join sep (x :: y :: a)) with (x ++ sep :: join sep (y :: a)).
    rewrite <- app_assoc. reflexivity.
Qed.

End JsFacts.

(** * Facts about the replacement of matches *)

Module RegexFacts.
Import Js Regex.

Section GlobalFacts.
Variable m : pattern.

Lemma replace_from_skip (f : list str -> str) (k : nat) (s : str) :
  replace_from m f k s = replace m f (drop k s).
Proof.
  revert k. induction s as [|c r IH]; intros k.
  - destruct k; reflexivity.
  - destruct k as [|k]; [reflexivity |]. simpl. apply IH.
Qed.

(** The equation of [replace]: at a match the replacement is written and
    the search resumes behind the match, elsewhere one code unit is
    copied. *)
Lemma replace_cons (f : list str -> str) (c : N) (r : str) :
  replace m f (c :: r) =
  match m (c :: r) with
  | Some (len, g) => f g ++ replace m f (drop (len - 1) r)
  | None => c :: replace m f r
  end.
Proof.
  unfold replace at 1. simpl. destruct (m (c :: r)) as [[len g]|].
  - rewrite replace_from_skip. reflexivity.
  - reflexivity.
Qed.

Lemma matchAll_from_skip (k idx : nat) (s : str) :
  matchAll_from m k idx s = matchAll_from m 0 (k + idx) (drop k s).
Proof.
  revert k idx. induction s as [|c r IH]; intros k idx.
  - destruct k; reflexivity.
  - destruct k as [|k]; [reflexivity |]. simpl.
    rewrite IH. f_equal. lia.
Qed.

Lemma matchAll_from_cons (idx : nat) (c : N) (r : str) :
  matchAll_from m 0 idx (c :: r) =
  match m (c :: r) with
  | Some (len, g) => (idx, len, g) :: matchAll_from m 0 (len - 1 + S idx) (drop (len - 1) r)
  | None => matchAll_from m 0 (S idx) r
  end.
Proof.
  simpl. destruct (m (c :: r)) as [[len g]|]; [| reflexivity].
  rewrite matchAll_from_skip. reflexivity.
Qed.

End GlobalFacts.

(** Replacing one code unit everywhere is a map with concatenation. *)
Lemma replace_unit (c : N) (rep : str) (s : str) :
  replace (unit_pattern c) (fun _ => rep) s =
  flat_map (fun x => if N.eqb x c then rep else [x]) s.
Proof.
  induction s as [|x r IH]; [reflexivity |].
  rewrite replace_cons.
  change (unit_pattern c (x :: r)) with (if N.eqb x c then Some (1, @nil str) else None).
  cbn [flat_map].
  destruct (N.eqb x c); [change (drop (1 - 1) r) with r |]; rewrite IH; reflexivity.
Qed.

End RegexFacts.

(** * The escaping of the fallback *)

Module EscapeFacts.
Import Js Regex MessageBubble EscapeSpec RegexFacts.

Lemma flat_map_flat_map {A B C : Type} (f : A -> list B) (g : B -> list C) (l : list A) :
  flat_map g (flat_map f l) = flat_map (fun x => flat_map g (f x)) l.
Proof.
  induction l as [|x l IH]; simpl; [reflexivity |].
  rewrite flat_map_app, IH. reflexivity.
Qed.

(** The three passes of [escapeHtml] amount to one pass that writes
    [escape_unit] of every code unit: the entities written by an earlier
    pass hold nothing that a later pass replaces. *)
Lemma escapeHtml_units (s : str) : escapeHtml s = flat_map escape_unit s.
Proof.
  unfold escapeHtml. rewrite !replace_unit, !flat_map_flat_map.
  apply flat_map_ext. intros x. unfold escape_unit.
  destruct (N.eqb x (ch "&")) eqn:Hamp.
  - reflexivity.
  - cbn [flat_map]. rewrite app_nil_r.
    destruct (N.eqb x (ch "<")) eqn:Hlt.
    + reflexivity.
    + cbn [flat_map]. rewrite app_nil_r. reflexivity.
Qed.

Lemma escape_unit_no_angle (c x : N) :
  x ∈ escape_unit c -> x <> ch "<" /\ x <> ch ">".
Proof.
  unfold escape_unit.
  destruct (N.eqb c (ch "&")) eqn:Hamp; [| destruct (N.eqb c (ch "<")) eqn:Hlt;
    [| destruct (N.eqb c (ch ">")) eqn:Hgt]].
  1-3: intros Hx; apply list_elem_of_In in Hx; simpl in Hx;
       split; intros ->; (repeat destruct Hx as [Hx|Hx]); try discriminate; contradiction.
  intros Hx. apply list_elem_of_singleton in Hx. subst x.
  apply N.eqb_neq in Hlt, Hgt. split; assumption.
Qed.

Lemma escapeHtml_no_angle (s : str) :
  (ch "<" ∉ escapeHtml s) /\ (ch ">" ∉ escapeHtml s).
Proof.
  rewrite escapeHtml_units.
  split; intros Hin; apply list_elem_of_In, in_flat_map in Hin;
    destruct Hin as [c [_ Hc]]; apply list_elem_of_In, escape_unit_no_angle in Hc;
    destruct Hc; congruence.
Qed.

Lemma escapeHtml_no_bare_ampersand (s : str) : no_bare_ampersand (escapeHtml s) = true.
Proof.
  rewrite escapeHtml_units.
  induction s as [|c r IH]; [reflexivity |].
  cbn [flat_map]. unfold escape_unit at 1.
  destruct (N.eqb c (ch "&")) eqn:Hamp; [exact IH |].
  destruct (N.eqb c (ch "<")) eqn:Hlt; [exact IH |].
  destruct (N.eqb c (ch ">")) eqn:Hgt; [exact IH |].
  cbn [app no_bare_ampersand]. rewrite Hamp. exact IH.
Qed.

End EscapeFacts.

(** * Facts about the global search *)

Module ScanFacts.
Import Js Regex ScanSpec RegexFacts.

Lemma greedy_Some {A : Type} (lo n : nat) (k : nat -> option A) (r : A) :
  greedy lo n k = Some r -> exists i, lo <= i <= n /\ k i = Some r.
Proof.
  induction n as [|n IH]; cbn [greedy].
  - destruct (0 <? lo) eqn:Hlo; [discriminate |]. apply Nat.ltb_ge in Hlo.
    destruct (k 0) eqn:Hk; [| discriminate].
    intros [= ->]. exists 0. split; [lia | exact Hk].
  - destruct (S n <? lo) eqn:Hlo; [discriminate |]. apply Nat.ltb_ge in Hlo.
    destruct (k (S n)) eqn:Hk.
    + intros [= ->]. exists (S n). split; [lia | exact Hk].
    + intros H. destruct (IH H) as [i [Hi Hki]]. exists i. split; [lia | exact Hki].
Qed.

Lemma reluctant_Some {A : Type} (fuel lo : nat) (k : nat -> option A) (r : A) :
  reluctant fuel lo k = Some r -> exists j, lo <= j < lo + fuel /\ k j = Some r.
Proof.
  revert lo. induction fuel as [|fuel IH]; intros lo; cbn [reluctant]; [discriminate |].
  destruct (k lo) eqn:Hk.
  - intros [= ->]. exists lo. split; [lia | exact Hk].
  - intros H. destruct (IH _ H) as [j [Hj Hkj]]. exists j. split; [lia | exact Hkj].
Qed.

(** Within the run of a class, every code unit is of the class. *)
Lemma run_take (p : N -> bool) (s : str) (i : nat) :
  i <= run p s -> Forall (fun c => p c = true) (take i s) /\ i <= length s.
Proof.
  revert i. induction s as [|c r IH]; intros i Hi; cbn [run] in Hi.
  - assert (i = 0) as -> by lia. split; [constructor | cbn; lia].
  - destruct i as [|i]; [split; [constructor | cbn; lia] |].
    destruct (p c) eqn:Hc; [| lia].
    destruct (IH i ltac:(lia)) as [Hall Hlen].
    split; [constructor; assumption | cbn; lia].
Qed.

Lemma drop_cons_inv {A : Type} (idx : nat) (t : list A) (c : A) (r : list A) :
  drop idx t = c :: r -> drop (S idx) t = r /\ idx < length t.
Proof.
  revert t. induction idx as [|idx IH]; intros t H.
  - destruct t; [discriminate |]. cbn in *. inversion H. split; [reflexivity | lia].
  - destruct t as [|x t]; [discriminate |]. cbn in H.
    destruct (IH t H) as [H1 H2]. split; [exact H1 | cbn; lia].
Qed.

Section Patterns.
Variable m : pattern.
Hypothesis m_productive : productive m.

Lemma tiled_weaken (t : str) (pos pos' : nat) (ms : list (nat * nat * list str)) :
  pos' <= pos -> tiled m t pos ms -> tiled m t pos' ms.
Proof.
  intros Hle H. destruct H as [|pos index len g rest Hpos Hm Hrest]; constructor;
    [lia | assumption | assumption].
Qed.

(** The search gives its matches in the order of the text, without
    overlap. *)
Lemma matchAll_from_tiled (n : nat) :
  forall (t : str) (idx : nat),
    length (drop idx t) <= n ->
    tiled m t idx (matchAll_from m 0 idx (drop idx t)).
Proof.
  induction n as [|n IH]; intros t idx Hn.
  - destruct (drop idx t); [constructor | cbn in Hn; lia].
  - destruct (drop idx t) as [|c r] eqn:Hs; [constructor |].
    destruct (drop_cons_inv _ _ _ _ Hs) as [Hr _].
    rewrite matchAll_from_cons.
    destruct (m (c :: r)) as [[len0 g0]|] eqn:Hm.
    + pose proof (m_productive _ _ _ Hm) as Hpos.
      assert (Hd : drop (len0 - 1) r = drop (idx + len0) t).
      { rewrite <- Hr, drop_drop. f_equal. lia. }
      replace (len0 - 1 + S idx) with (idx + len0) by lia. rewrite Hd.
      constructor; [lia | rewrite Hs; exact Hm |].
      apply IH. rewrite <- Hd, length_drop. cbn in Hn. lia.
    + rewrite <- Hr. apply (tiled_weaken t (S idx)); [lia |].
      apply IH. rewrite Hr. cbn in Hn. lia.
Qed.

Lemma matchAll_tiled (t : str) : tiled m t 0 (matchAll m t).
Proof.
  assert (Hn : length (drop 0 t) <= length t) by (rewrite drop_0; lia).
  exact (matchAll_from_tiled (length t) t 0 Hn).
Qed.

Lemma tiled_sound (t : str) (pos : nat) (ms : list (nat * nat * list str)) :
  tiled m t pos ms ->
  forall i len g, (i, len, g) ∈ ms -> pos <= i /\ m (drop i t) = Some (len, g).
Proof.
  induction 1 as [|pos index len0 g0 rest Hpos Hm _ IH]; intros i len g Hin.
  - inversion Hin.
  - apply elem_of_cons in Hin as [Heq | Hin].
    + inversion Heq; subst. split; [lia | exact Hm].
    + destruct (IH _ _ _ Hin) as [H1 H2]. split; [lia | exact H2].
Qed.

(** Every match that the search reports is a match of the pattern at
    its index, and the indices do not go back. *)
Lemma matchAll_from_sound (n : nat) :
  forall (t : str) (idx : nat),
    length (drop idx t) <= n ->
    forall i len g,
      (i, len, g) ∈ matchAll_from m 0 idx (drop idx t) ->
      idx <= i /\ m (drop i t) = Some (len, g).
Proof.
  intros t idx Hn. apply tiled_sound. apply (matchAll_from_tiled n). exact Hn.
Qed.

Lemma matchAll_sound (t : str) (i len : nat) (g : list str) :
  (i, len, g) ∈ matchAll m t -> m (drop i t) = Some (len, g).
Proof.
  intros Hin.
  assert (Hn : length (drop 0 t) <= length t) by (rewrite drop_0; lia).
  destruct (matchAll_from_sound (length t) t 0 Hn i len g Hin) as [_ H].
  exact H.
Qed.

(** A replacement that writes every match back leaves the text as it is. *)
Lemma replace_from_id (f : list str -> str) (n : nat) :
  forall (t : str) (idx : nat),
    length (drop idx t) <= n ->
    (forall i len g,
        (i, len, g) ∈ matchAll_from m 0 idx (drop idx t) -> f g = take len (drop i t)) ->
    replace m f (drop idx t) = drop idx t.
Proof.
  induction n as [|n IH]; intros t idx Hn Hf.
  - destruct (drop idx t); [reflexivity | cbn in Hn; lia].
  - destruct (drop idx t) as [|c r] eqn:Hs; [reflexivity |].
    destruct (drop_cons_inv _ _ _ _ Hs) as [Hr _].
    rewrite replace_cons. rewrite matchAll_from_cons in Hf.
    destruct (m (c :: r)) as [[len0 g0]|] eqn:Hm.
    + pose proof (m_productive _ _ _ Hm) as Hpos.
      assert (Hd : drop (len0 - 1) r = drop (idx + len0) t).
      { rewrite <- Hr, drop_drop. f_equal. lia. }
      rewrite (Hf idx len0 g0) by (apply elem_of_cons; left; reflexivity).
      rewrite Hd, IH.
      * rewrite Hs. rewrite <- Hd.
        replace (drop (len0 - 1) r) with (drop len0 (c :: r))
          by (destruct len0; [lia | cbn; f_equal; lia]).
        apply take_drop.
      * rewrite <- Hd, length_drop. cbn in Hn. lia.
      * intros i len g Hin. apply Hf. apply elem_of_cons. right.
        replace (len0 - 1 + S idx) with (idx + len0) by lia. rewrite Hd. exact Hin.
    + f_equal. rewrite <- Hr. apply IH.
      * rewrite Hr. cbn in Hn. lia.
      * intros i len g Hin. apply Hf. rewrite <- Hr. exact Hin.
Qed.

Lemma replace_id (f : list str -> str) (t : str) :
  (forall i len g, (i, len, g) ∈ matchAll m t -> f g = take len (drop i t)) ->
  replace m f t = t.
Proof.
  intros Hf.
  assert (Hn : length (drop 0 t) <= length t) by (rewrite drop_0; lia).
  exact (replace_from_id f (length t) t 0 Hn Hf).
Qed.

Lemma splice_copy (f : list str -> str) (t : str) (idx : nat) (c : N) (r : str)
    (ms : list (nat * nat * list str)) :
  drop idx t = c :: r ->
  (forall i len g, (i, len, g) ∈ ms -> S idx <= i) ->
  splice f t idx ms = c :: splice f t (S idx) ms.
Proof.
  intros Hs Hms. destruct (drop_cons_inv _ _ _ _ Hs) as [Hr _].
  destruct ms as [|[[i len] g] rest]; cbn [splice].
  - unfold slice_from. rewrite Hs, Hr. reflexivity.
  - assert (S idx <= i) as Hi by (eapply Hms; left).
    unfold slice. rewrite Hs, Hr.
    replace (i - idx) with (S (i - S idx)) by lia. reflexivity.
Qed.

(** What [replace] computes, read off the list of the matches. *)
Lemma replace_from_splice (f : list str -> str) (n : nat) :
  forall (t : str) (idx : nat),
    length (drop idx t) <= n ->
    replace m f (drop idx t) = splice f t idx (matchAll_from m 0 idx (drop idx t)).
Proof.
  induction n as [|n IH]; intros t idx Hn.
  - destruct (drop idx t) eqn:Hs; [| cbn in Hn; lia].
    cbn. unfold slice_from. rewrite Hs. reflexivity.
  - destruct (drop idx t) as [|c r] eqn:Hs.
    + cbn. unfold slice_from. rewrite Hs. reflexivity.
    + destruct (drop_cons_inv _ _ _ _ Hs) as [Hr _].
      rewrite replace_cons, matchAll_from_cons.
      destruct (m (c :: r)) as [[len0 g0]|] eqn:Hm.
      * pose proof (m_productive _ _ _ Hm) as Hpos.
        assert (Hd : drop (len0 - 1) r = drop (idx + len0) t).
        { rewrite <- Hr, drop_drop. f_equal. lia. }
        cbn [splice]. unfold slice at 1. rewrite Nat.sub_diag, take_0. cbn [app].
        f_equal. replace (len0 - 1 + S idx) with (idx + len0) by lia.
        rewrite Hd. apply IH. rewrite <- Hd, length_drop. cbn in Hn. lia.
      * rewrite <- Hr at 1. rewrite IH by (rewrite Hr; cbn in Hn; lia).
        rewrite Hr. symmetry. apply (splice_copy f t idx c r); [exact Hs |].
        intros i len g Hin. rewrite <- Hr in Hin.
        eapply (matchAll_from_sound (length r) t (S idx)); [rewrite Hr; lia | exact Hin].
Qed.

Lemma replace_splice (f : list str -> str) (t : str) :
  replace m f t = splice f t 0 (matchAll m t).
Proof.
  assert (Hn : length (drop 0 t) <= length t) by (rewrite drop_0; lia).
  exact (replace_from_splice f (length t) t 0 Hn).
Qed.

End Patterns.

End ScanFacts.

(** * Facts about the sanitizer *)

Module SanitizerFacts.
Import Js Regex MessageBubble JsSpec ScanSpec SanitizerSpec JsFacts RegexFacts ScanFacts.

Lemma take_snoc_drop {A : Type} (i : nat) (r : list A) (x : A) (rest : list A) :
  drop i r = x :: rest -> take (S i) r = take i r ++ [x].
Proof.
  revert r. induction i as [|i IH]; intros r H.
  - destruct r; [discriminate |]. simpl in *. inversion H. reflexivity.
  - destruct r as [|y r]; [discriminate |]. simpl in *. f_equal. apply IH. exact H.
Qed.

(** A class of one excluded code unit, between two delimiters: what the
    node-label and the pipe-label patterns share. *)
Lemma delimited_match (close : N) (lo : nat) (r : str) (len : nat) (g : list str) :
  greedy lo (run (fun x => negb (N.eqb x close)) r)
    (fun k => if startsWith (drop k r) [close] then Some (k + 2, [take k r]) else None)
  = Some (len, g) ->
  exists L, g = [L] /\ lo <= length L /\ len = length L + 2 /\ (close ∉ L)
            /\ take (length L + 1) r = L ++ [close].
Proof.
  intros H. apply greedy_Some in H as [i [Hi Hk]].
  destruct (startsWith (drop i r) [close]) eqn:Hs; [| discriminate].
  inversion Hk; subst. clear Hk.
  destruct Hi as [Hlo Hhi]. destruct (run_take _ r i Hhi) as [Hall Hlen].
  apply startsWith_app in Hs. cbn [length app] in Hs.
  exists (take i r). rewrite length_take, Nat.min_l by lia.
  split; [reflexivity |]. split; [lia |]. split; [reflexivity |]. split.
  - intros Hin. rewrite Forall_forall in Hall. apply Hall in Hin.
    rewrite N.eqb_refl in Hin. discriminate.
  - rewrite Nat.add_1_r. eapply take_snoc_drop. exact Hs.
Qed.

Lemma NODE_LABEL_match (s : str) (len : nat) (g : list str) :
  NODE_LABEL s = Some (len, g) ->
  exists L, g = [L] /\ L <> [] /\ (ch "]" ∉ L) /\ take len s = [ch "["] ++ L ++ [ch "]"].
Proof.
  unfold NODE_LABEL. destruct s as [|c r]; [discriminate |].
  destruct (N.eqb c (ch "[")) eqn:Hc; [| discriminate].
  apply N.eqb_eq in Hc. subst c. intros H.
  apply delimited_match in H as (L & -> & Hlo & -> & Hno & Htake).
  exists L. split; [reflexivity |]. split; [destruct L; [cbn in Hlo; lia | discriminate] |].
  split; [exact Hno |].
  replace (length L + 2) with (S (length L + 1)) by lia.
  cbn [take app]. cbn [firstn]. f_equal. exact Htake.
Qed.

Lemma PIPE_LABEL_match (s : str) (len : nat) (g : list str) :
  PIPE_LABEL s = Some (len, g) ->
  exists L, g = [L] /\ (ch "|" ∉ L) /\ take len s = [ch "|"] ++ L ++ [ch "|"].
Proof.
  unfold PIPE_LABEL. destruct s as [|c r]; [discriminate |].
  destruct (N.eqb c (ch "|")) eqn:Hc; [| discriminate].
  apply N.eqb_eq in Hc. subst c. intros H.
  apply delimited_match in H as (L & -> & Hlo & -> & Hno & Htake).
  exists L. split; [reflexivity |]. split; [exact Hno |].
  replace (length L + 2) with (S (length L + 1)) by lia.
  cbn [take app]. cbn [firstn]. f_equal. exact Htake.
Qed.

Lemma NODE_LABEL_productive : productive NODE_LABEL.
Proof.
  intros s len g H. pose proof H as H'. apply NODE_LABEL_match in H' as (L & _ & _ & _ & Ht).
  apply (f_equal length) in Ht. rewrite length_take in Ht. cbn in Ht. lia.
Qed.

Lemma PIPE_LABEL_productive : productive PIPE_LABEL.
Proof.
  intros s len g H. pose proof H as H'. apply PIPE_LABEL_match in H' as (L & _ & _ & Ht).
  apply (f_equal length) in Ht. rewrite length_take in Ht. cbn in Ht. lia.
Qed.

Lemma TRAILING_SEMICOLON_productive : productive TRAILING_SEMICOLON.
Proof.
  intros s len g. unfold TRAILING_SEMICOLON. destruct s as [|c r]; [discriminate |].
  destruct (N.eqb c (ch ";")); [| discriminate].
  intros H. apply greedy_Some in H as [i [_ Hk]].
  destruct (at_eol (drop i r)); [| discriminate]. inversion Hk. lia.
Qed.

Lemma EDGE_LABEL_productive : productive EDGE_LABEL.
Proof.
  intros s len g. unfold EDGE_LABEL.
  destruct (_ || _); [| discriminate].
  intros H. apply greedy_Some in H as [n1 [_ H]].
  apply reluctant_Some in H as [l [_ H]].
  apply greedy_Some in H as [n2 [_ H]].
  destruct (arrowhead _); [| discriminate]. inversion H. lia.
Qed.

(** Deleting a code unit everywhere is a filter. *)
Lemma replace_unit_delete (c : N) (s : str) :
  replace (unit_pattern c) (fun _ => []) s = List.filter (fun x => negb (N.eqb x c)) s.
Proof.
  rewrite replace_unit. induction s as [|x r IH]; [reflexivity |].
  cbn [flat_map List.filter]. destruct (N.eqb x c); cbn [negb app]; rewrite IH; reflexivity.
Qed.

(** Replacing a code unit that does not occur changes nothing. *)
Lemma replace_unit_absent (c : N) (rep : str) (s : str) :
  existsb (fun x => N.eqb x c) s = false ->
  replace (unit_pattern c) (fun _ => rep) s = s.
Proof.
  rewrite replace_unit. induction s as [|x r IH]; [reflexivity |].
  cbn [existsb flat_map]. intros H. apply orb_false_iff in H as [Hx Hr].
  rewrite Hx, IH by exact Hr. reflexivity.
Qed.

(** The callback of the node-label rule is the rule as it is described. *)
Lemma quote_label_as_described (L : str) : quote_label [L] = label_rule L.
Proof.
  unfold quote_label, label_rule, quoted. change (group1 [L]) with L. cbv zeta.
  destruct (startsWith (trim L) [DQUOTE] && endsWith (trim L) [DQUOTE]); [reflexivity |].
  change (existsb _ (trim L)) with (existsb is_special (trim L)).
  destruct (existsb is_special (trim L)); [| reflexivity].
  rewrite replace_unit_delete. reflexivity.
Qed.

Lemma label_rule_unchanged (L : str) :
  quoted (trim L) || negb (existsb is_special (trim L)) = true ->
  label_rule L = [ch "["] ++ L ++ [ch "]"].
Proof.
  unfold label_rule. destruct (quoted (trim L)); [reflexivity |].
  destruct (existsb is_special (trim L)); [discriminate | reflexivity].
Qed.

Lemma escape_pipe_label_unchanged (L : str) :
  existsb is_paren L = false -> escape_pipe_label [L] = [ch "|"] ++ L ++ [ch "|"].
Proof.
  intros H. unfold escape_pipe_label. change (group1 [L]) with L. cbv zeta.
  assert (H1 : existsb (fun x => N.eqb x (ch "(")) L = false).
  { induction L as [|x L IH]; [reflexivity |]. cbn [existsb] in *.
    apply orb_false_iff in H as [Hx HL]. unfold is_paren in Hx.
    apply orb_false_iff in Hx as [Hx _]. rewrite Hx, IH by exact HL. reflexivity. }
  assert (H2 : existsb (fun x => N.eqb x (ch ")")) L = false).
  { induction L as [|x L IH]; [reflexivity |]. cbn [existsb] in *.
    apply orb_false_iff in H as [Hx HL]. apply orb_false_iff in H1 as [_ H1].
    unfold is_paren in Hx.
    apply orb_false_iff in Hx as [_ Hx]. rewrite Hx, IH by assumption. reflexivity. }
  rewrite (replace_unit_absent _ _ L H1), (replace_unit_absent _ _ L H2). reflexivity.
Qed.

(** On a text that gives no rule anything to repair, every rule is the
    identity. *)
Lemma strip_semicolons_id (t : str) : no_trailing_semicolon t = true -> strip_semicolons t = t.
Proof.
  unfold no_trailing_semicolon, strip_semicolons. intros H.
  apply (replace_id _ TRAILING_SEMICOLON_productive). intros i len g Hin.
  destruct (matchAll TRAILING_SEMICOLON t); [inversion Hin | discriminate].
Qed.

Lemma quote_edge_labels_id (t : str) : no_unquoted_edge_label t = true -> quote_edge_labels t = t.
Proof.
  unfold no_unquoted_edge_label, quote_edge_labels. intros H.
  apply (replace_id _ EDGE_LABEL_productive). intros i len g Hin.
  destruct (matchAll EDGE_LABEL t); [inversion Hin | discriminate].
Qed.

Lemma quote_labels_id (t : str) : no_label_to_quote t = true -> quote_labels t = t.
Proof.
  unfold no_label_to_quote, quote_labels. intros H.
  apply (replace_id _ NODE_LABEL_productive). intros i len g Hin.
  rewrite forallb_forall in H. specialize (H (i, len, g)).
  cbn [snd] in H. pose proof (H ltac:(apply list_elem_of_In; exact Hin)) as Hok.
  apply (matchAll_sound _ NODE_LABEL_productive) in Hin.
  apply NODE_LABEL_match in Hin as (L & -> & _ & _ & Ht).
  rewrite Ht, quote_label_as_described. apply label_rule_unchanged. exact Hok.
Qed.

Lemma escape_pipe_labels_id (t : str) :
  no_paren_in_pipe_label t = true -> escape_pipe_labels t = t.
Proof.
  unfold no_paren_in_pipe_label, escape_pipe_labels. intros H.
  apply (replace_id _ PIPE_LABEL_productive). intros i len g Hin.
  rewrite forallb_forall in H. specialize (H (i, len, g)).
  cbn [snd] in H. pose proof (H ltac:(apply list_elem_of_In; exact Hin)) as Hok.
  apply (matchAll_sound _ PIPE_LABEL_productive) in Hin.
  apply PIPE_LABEL_match in Hin as (L & -> & _ & Ht).
  rewrite Ht. apply escape_pipe_label_unchanged.
  apply negb_true_iff in Hok. exact Hok.
Qed.

Lemma sanitizeMermaid_id (t : str) : triggers_no_rule t = true -> sanitizeMermaid t = t.
Proof.
  unfold triggers_no_rule, sanitizeMermaid. intros H.
  apply andb_true_iff in H as [H H4]. apply andb_true_iff in H as [H H3].
  apply andb_true_iff in H as [H1 H2].
  rewrite (strip_semicolons_id t H1), (quote_labels_id t H2),
    (escape_pipe_labels_id t H3), (quote_edge_labels_id t H4).
  reflexivity.
Qed.

End SanitizerFacts.

(** * Facts about covers and fenced blocks *)

Module SegmentFacts.
Import Js Regex MessageBubble JsSpec ScanSpec SegmentSpec JsFacts RegexFacts ScanFacts.

Lemma covers_nil (gap : str -> Prop) : gap [] -> covers gap [] [].
Proof. intros H. exists [], []. repeat split; [constructor | exact H]. Qed.

Section Gaps.
Variable gap : str -> Prop.
Hypothesis gap_app : forall a b, gap a -> gap b -> gap (a ++ b).

Lemma covers_snoc (pre : str) (texts : list str) (g1 s g2 : str) :
  covers gap pre texts -> gap g1 -> gap g2 ->
  covers gap (pre ++ g1 ++ s ++ g2) (texts ++ [s]).
Proof.
  intros (gaps & last & Hlen & Hgaps & Hlast & ->) H1 H2.
  exists (gaps ++ [last ++ g1]), g2. split; [rewrite !length_app; cbn; lia |].
  split; [apply Forall_app_2; [exact Hgaps | constructor; [apply gap_app; assumption | constructor]] |].
  split; [exact H2 |].
  unfold weave. rewrite zip_with_app by exact Hlen. rewrite concat_app.
  cbn [zip_with concat]. rewrite app_nil_r, <- !app_assoc. reflexivity.
Qed.

Lemma covers_gap (pre : str) (texts : list str) (g : str) :
  covers gap pre texts -> gap g -> covers gap (pre ++ g) texts.
Proof.
  intros (gaps & last & Hlen & Hgaps & Hlast & ->) Hg.
  exists gaps, (last ++ g). repeat split; try assumption.
  - apply gap_app; assumption.
  - unfold weave. rewrite <- app_assoc. reflexivity.
Qed.

End Gaps.

Lemma covers_mono (gap gap' : str -> Prop) (t : str) (texts : list str) :
  (forall g, gap g -> gap' g) -> covers gap t texts -> covers gap' t texts.
Proof.
  intros Hsub (gaps & last & Hlen & Hgaps & Hlast & ->).
  exists gaps, last. repeat split; auto.
  eapply Forall_impl; [exact Hgaps | exact Hsub].
Qed.

Lemma fence_gap_space (ws : str) : all_space ws -> fence_gap ws.
Proof. induction 1; constructor; assumption. Qed.

Lemma fence_gap_app (a b : str) : fence_gap a -> fence_gap b -> fence_gap (a ++ b).
Proof.
  induction 1 as [|c s Hc _ IH|s _ IH|s _ IH]; intros Hb; [exact Hb | | |].
  - cbn [app]. apply gap_space; [exact Hc | exact (IH Hb)].
  - rewrite <- app_assoc. apply gap_open. exact (IH Hb).
  - rewrite <- app_assoc. apply gap_close. exact (IH Hb).
Qed.

(** Gaps of white space only: the texts hold every other code unit of
    the text, in its order. *)
Lemma covers_space_strip (t : str) (texts : list str) :
  covers all_space t texts ->
  List.filter not_space t = List.filter not_space (concat texts).
Proof.
  assert (Hws : forall ws, all_space ws -> List.filter not_space ws = []).
  { induction 1 as [|c ws Hc _ IH]; [reflexivity |].
    cbn [List.filter]. unfold not_space at 1. rewrite Hc. exact IH. }
  intros (gaps & last & Hlen & Hgaps & Hlast & ->). unfold weave.
  rewrite List.filter_app, (Hws _ Hlast), app_nil_r.
  revert texts Hlen. induction Hgaps as [|g gaps Hg _ IH]; intros texts Hlen.
  - destruct texts; [reflexivity | discriminate].
  - destruct texts as [|x texts]; [discriminate |].
    cbn [zip_with concat]. rewrite !List.filter_app, (Hws _ Hg).
    cbn [app]. f_equal. apply IH. cbn in Hlen. lia.
Qed.

(** A fenced block: the opening delimiter, white space up to a line
    feed, the body that is captured, the closing delimiter. *)
Lemma FENCED_MERMAID_match (s : str) (len : nat) (g : list str) :
  FENCED_MERMAID s = Some (len, g) ->
  exists ws body,
    all_space ws /\ g = [body]
    /\ take len s = js "```mermaid" ++ ws ++ body ++ js "```"
    /\ len <= length s /\ 1 <= len.
Proof.
  unfold FENCED_MERMAID. destruct (startsWith s (js "```mermaid")) eqn:Hopen; [| discriminate].
  apply startsWith_app in Hopen. change (length (js "```mermaid")) with 10 in Hopen.
  set (r := drop 10 s) in *. intros H.
  apply greedy_Some in H as [i [[_ Hi] Hk]].
  destruct (drop i r) as [|c body] eqn:Hdrop; [discriminate |].
  destruct (N.eqb c NL) eqn:Hc; [| discriminate]. apply N.eqb_eq in Hc. subst c.
  apply reluctant_Some in Hk as [j [Hj Hk]].
  destruct (startsWith (drop j body) (js "```")) eqn:Hclose; [| discriminate].
  inversion Hk; subst len g. clear Hk.
  apply startsWith_app in Hclose. change (length (js "```")) with 3 in Hclose.
  destruct (run_take _ r i Hi) as [Hall Hlen].
  assert (Hs : s = (js "```mermaid" ++ (take i r ++ [NL]) ++ take j body ++ js "```")
                   ++ drop 3 (drop j body)).
  { rewrite Hopen at 1. rewrite <- !app_assoc. f_equal.
    rewrite <- (take_drop i r) at 1. f_equal. rewrite Hdrop. cbn [app]. f_equal.
    rewrite <- (take_drop j body) at 1. f_equal. exact Hclose. }
  assert (Hn : 10 + i + 1 + j + 3
               = length (js "```mermaid" ++ (take i r ++ [NL]) ++ take j body ++ js "```")).
  { rewrite !length_app, !length_take. cbn [length]. change (length (js "```mermaid")) with 10.
    change (length (js "```")) with 3. lia. }
  exists (take i r ++ [NL]), (take j body). split; [| split; [reflexivity | split; [| split]]].
  - apply all_space_app; [exact Hall | constructor; [reflexivity | constructor]].
  - rewrite Hn, Hs at 1. apply take_app_length.
  - rewrite Hn, Hs at 1. rewrite (length_app _ (drop 3 (drop j body))). lia.
  - lia.
Qed.

Lemma FENCED_MERMAID_productive : productive FENCED_MERMAID.
Proof.
  intros s len g H. apply FENCED_MERMAID_match in H as (ws & body & _ & _ & _ & _ & H).
  exact H.
Qed.

End SegmentFacts.

(** * The loops of the segmentation *)

Module SegmentRuns.
Import Js Regex MessageBubble JsSpec ScanSpec SegmentSpec JsFacts RegexFacts ScanFacts
  SegmentFacts.

Lemma take_add_drop {A : Type} (n k : nat) (l : list A) :
  take (n + k) l = take n l ++ take k (drop n l).
Proof.
  revert l. induction n as [|n IH]; intros l; [reflexivity |].
  destruct l as [|x l]; [cbn; rewrite take_nil; reflexivity |].
  cbn. f_equal. apply IH.
Qed.

Lemma take_slice (pos index : nat) (t : str) :
  pos <= index -> take index t = take pos t ++ slice pos index t.
Proof.
  intros H. unfold slice. rewrite <- take_add_drop. f_equal. lia.
Qed.

(** The loop over the fenced blocks keeps the text up to [last] covered
    by the segments, up to white space and delimiters. *)
Lemma fenced_fold_covers (t : str) (ms : list (nat * nat * list str)) (pos : nat) :
  tiled FENCED_MERMAID t pos ms ->
  forall segs,
    pos <= length t ->
    covers fence_gap (take pos t) (map seg_text segs) ->
    (fold_left (fenced_step t) ms (segs, pos)).2 <= length t
    /\ covers fence_gap (take (fold_left (fenced_step t) ms (segs, pos)).2 t)
         (map seg_text (fold_left (fenced_step t) ms (segs, pos)).1).
Proof.
  induction 1 as [pos | pos index len g rest Hpos Hm _ IH]; intros segs Hlen Hcov.
  - split; assumption.
  - cbn [fold_left]. unfold fenced_step at 2 4 6.
    apply FENCED_MERMAID_match in Hm as (ws & body & Hws & -> & Htake & Hle & Hone).
    rewrite length_drop in Hle.
    destruct (trim_split body) as (a1 & a2 & Ha1 & Ha2 & Hbody).
    change (group1 [body]) with body.
    apply IH; [lia |].
    assert (Hfull : take (index + len) t =
                    (take pos t ++ slice pos index t)
                    ++ (js "```mermaid" ++ ws ++ a1) ++ trim body ++ (a2 ++ js "```")).
    { rewrite take_add_drop, Htake, <- (take_slice pos index t Hpos).
      f_equal. rewrite Hbody at 1. rewrite <- !app_assoc. reflexivity. }
    rewrite Hfull.
    assert (Hg1 : fence_gap (js "```mermaid" ++ ws ++ a1)).
    { apply gap_open, fence_gap_space, all_space_app; assumption. }
    assert (Hg2 : fence_gap (a2 ++ js "```")).
    { apply fence_gap_app; [apply fence_gap_space; exact Ha2 |].
      apply (gap_close []). constructor. }
    destruct (pos <? index) eqn:Hlt.
    + rewrite map_app. apply (covers_snoc _ fence_gap_app); [| exact Hg1 | exact Hg2].
      rewrite map_app. cbn [map seg_text].
      replace (take pos t ++ slice pos index t)
        with (take pos t ++ [] ++ slice pos index t ++ [])
        by (cbn [app]; rewrite app_nil_r; reflexivity).
      apply (covers_snoc _ fence_gap_app); [exact Hcov | constructor | constructor].
    + apply Nat.ltb_ge in Hlt. assert (index = pos) as -> by lia.
      unfold slice. rewrite Nat.sub_diag, take_0, app_nil_r.
      rewrite map_app. apply (covers_snoc _ fence_gap_app); assumption.
Qed.

(** What the loop over the fenced blocks collects: a diagram for every
    block, and as prose what lies between the blocks. *)
Lemma fenced_fold_segments (t : str) (ms : list (nat * nat * list str)) :
  forall segs last,
    map seg_text (List.filter is_diagram (fold_left (fenced_step t) ms (segs, last)).1)
    = map seg_text (List.filter is_diagram segs)
      ++ map (fun mt : nat * nat * list str => trim (group1 mt.2)) ms
    /\ concat (map seg_text (List.filter is_prose (fold_left (fenced_step t) ms (segs, last)).1))
       ++ slice_from (fold_left (fenced_step t) ms (segs, last)).2 t
       = concat (map seg_text (List.filter is_prose segs))
         ++ splice (fun _ => []) t last ms
    /\ length segs + length ms <= length (fold_left (fenced_step t) ms (segs, last)).1.
Proof.
  induction ms as [|[[index len] g] ms IH]; intros segs last.
  - cbn. rewrite app_nil_r. repeat split; lia.
  - cbn [fold_left]. unfold fenced_step at 2 4 6 8.
    destruct (IH ((if last <? index then segs ++ [md_segment (slice last index t)] else segs)
                  ++ [mermaid_segment (trim (group1 g))]) (index + len))
      as (H1 & H2 & H3).
    unfold md_segment, mermaid_segment in *.
    split; [| split].
    + rewrite H1. rewrite List.filter_app. cbn [List.filter is_diagram seg_type].
      destruct (last <? index); [rewrite List.filter_app; cbn [List.filter is_diagram seg_type] |];
        rewrite ?app_nil_r, map_app, <- app_assoc; reflexivity.
    + rewrite H2. rewrite List.filter_app. cbn [List.filter is_prose seg_type splice].
      rewrite app_nil_r. destruct (last <? index) eqn:Hlt.
      * rewrite List.filter_app. cbn [List.filter is_prose seg_type].
        rewrite map_app, concat_app. cbn [map concat seg_text].
        rewrite app_nil_r, <- app_assoc. reflexivity.
      * apply Nat.ltb_ge in Hlt. unfold slice at 1.
        replace (index - last) with 0 by lia. rewrite take_0. reflexivity.
    + rewrite length_app in H3. cbn [length] in *.
      destruct (last <? index); [rewrite length_app in H3; cbn [length] in H3 |]; lia.
Qed.

(** The loop over the lines keeps the lines in their order: the diagram
    lines first, then the rest. *)
Lemma line_loop_split (lines : list str) :
  forall st,
    (inDiagram st = true -> restLines st = []) ->
    mermaidLines (fold_left line_step lines st) ++ restLines (fold_left line_step lines st)
    = mermaidLines st ++ restLines st ++ lines.
Proof.
  induction lines as [|line lines IH]; intros st Hst.
  - cbn. rewrite app_nil_r. reflexivity.
  - cbn [fold_left]. rewrite IH.
    + unfold line_step. destruct (inDiagram st) eqn:Hin.
      * rewrite (Hst eq_refl). destruct (continues_diagram line);
          cbn [mermaidLines restLines app]; rewrite <- ?app_assoc; reflexivity.
      * cbn [mermaidLines restLines]. rewrite <- app_assoc. reflexivity.
    + unfold line_step. destruct (inDiagram st) eqn:Hin.
      * destruct (continues_diagram line); cbn [inDiagram restLines]; [auto | discriminate].
      * cbn [inDiagram]. discriminate.
Qed.

Lemma pop_blank_split (l : list str) :
  exists popped, l = popped ++ pop_blank l /\ Forall all_space popped.
Proof.
  induction l as [|x l (popped & Hl & Hp)]; cbn [pop_blank].
  - exists []. split; [reflexivity | constructor].
  - destruct (nonempty (trim x)) eqn:Hx.
    + exists []. split; [reflexivity | constructor].
    + exists (x :: popped). split; [cbn; congruence |].
      constructor; [apply trim_empty_all_space; exact Hx | exact Hp].
Qed.

Lemma join_blank (ls : list str) : Forall all_space ls -> all_space (join NL ls).
Proof.
  induction 1 as [|l ls Hl Hls IH]; [constructor |].
  destruct ls as [|l' ls]; [exact Hl |].
  rewrite join_cons by discriminate.
  apply all_space_app; [exact Hl | constructor; [reflexivity | exact IH]].
Qed.

Lemma join_app_space (a b : list str) :
  exists ws, all_space ws /\ join NL (a ++ b) = join NL a ++ ws ++ join NL b.
Proof.
  destruct a as [|x a]; [exists []; split; [constructor | reflexivity] |].
  destruct b as [|y b].
  - exists []. split; [constructor |]. rewrite !app_nil_r. reflexivity.
  - exists [NL]. split; [constructor; [reflexivity | constructor] |].
    apply join_app; discriminate.
Qed.

(** The raw detection only leaves white space out. *)
Lemma extractRawMermaid_covers (t : str) (raw : RawMermaid) :
  extractRawMermaid t = Some raw ->
  covers all_space t (map seg_text (raw_segments raw)).
Proof.
  unfold extractRawMermaid. destruct (MERMAID_KEYWORDS t) as [startIdx|]; [| discriminate].
  intros [= <-]. unfold raw_segments. cbn [raw_before raw_mermaid raw_after].
  set (st := fold_left line_step (split NL (slice_from startIdx t))
               {| mermaidLines := []; restLines := []; inDiagram := true |}).
  assert (Hlines : mermaidLines st ++ restLines st = split NL (slice_from startIdx t)).
  { unfold st. rewrite line_loop_split by reflexivity. reflexivity. }
  destruct (pop_blank_split (rev (mermaidLines st))) as (popped & Hpop & Hblank).
  set (kept := rev (pop_blank (rev (mermaidLines st)))) in *.
  assert (Hml : mermaidLines st = kept ++ rev popped).
  { unfold kept. rewrite <- rev_app_distr, <- Hpop, rev_involutive. reflexivity. }
  assert (Hrest : slice_from startIdx t = join NL ((kept ++ rev popped) ++ restLines st)).
  { rewrite <- Hml, Hlines, join_split. reflexivity. }
  destruct (join_app_space (kept ++ rev popped) (restLines st)) as (w1 & Hw1 & Hj1).
  destruct (join_app_space kept (rev popped)) as (w2 & Hw2 & Hj2).
  rewrite Hj1, Hj2 in Hrest.
  assert (Hpopped : all_space (join NL (rev popped))).
  { apply join_blank. apply Forall_forall. intros x Hx.
    rewrite Forall_forall in Hblank. apply Hblank.
    apply list_elem_of_In, in_rev, list_elem_of_In. exact Hx. }
  destruct (trim_split (slice 0 startIdx t)) as (b1 & b2 & Hb1 & Hb2 & Hbefore).
  destruct (trim_split (join NL kept)) as (m1 & m2 & Hm1 & Hm2 & Hmer).
  destruct (trim_split (join NL (restLines st))) as (r1 & r2 & Hr1 & Hr2 & Hafter).
  set (B := trim (slice 0 startIdx t)) in *.
  set (D := trim (join NL kept)) in *.
  set (R := trim (join NL (restLines st))) in *.
  clearbody B D R.
  assert (Ht : t = ((b1 ++ B ++ b2) ++ m1 ++ D ++ (m2 ++ w2 ++ join NL (rev popped) ++ w1 ++ r1))
                   ++ R ++ r2).
  { rewrite <- (take_drop startIdx t) at 1.
    unfold slice_from in Hrest. rewrite Hrest.
    unfold slice in Hbefore. rewrite Nat.sub_0_r, drop_0 in Hbefore. rewrite Hbefore.
    rewrite Hmer, Hafter. rewrite <- !app_assoc. reflexivity. }
  assert (Hgap : all_space (m2 ++ w2 ++ join NL (rev popped) ++ w1 ++ r1)).
  { repeat apply all_space_app; assumption. }
  assert (Hhead : covers all_space (b1 ++ B ++ b2)
                    (map seg_text (if nonempty B then [md_segment B] else []))).
  { destruct B as [|c B'] eqn:HB; cbn [nonempty map].
    - apply (covers_gap _ all_space_app [] [] (b1 ++ [] ++ b2)).
      + apply covers_nil. constructor.
      + apply all_space_app; assumption.
    - replace (b1 ++ (c :: B') ++ b2) with ([] ++ b1 ++ (c :: B') ++ b2) by reflexivity.
      apply (covers_snoc _ all_space_app [] []); [apply covers_nil; constructor | |];
        assumption. }
  assert (Hmid : covers all_space
                   ((b1 ++ B ++ b2) ++ m1 ++ D ++ (m2 ++ w2 ++ join NL (rev popped) ++ w1 ++ r1))
                   (map seg_text ((if nonempty B then [md_segment B] else [])
                                  ++ [mermaid_segment D]))).
  { rewrite map_app. apply (covers_snoc _ all_space_app); assumption. }
  rewrite Ht, (app_assoc (A := Segment)), map_app.
  destruct R as [|c R']; cbn [nonempty map].
  - rewrite app_nil_r. cbn [app]. apply (covers_gap _ all_space_app); assumption.
  - replace ((c :: R') ++ r2) with ([] ++ (c :: R') ++ r2) by reflexivity.
    apply (covers_snoc _ all_space_app); [exact Hmid | constructor | exact Hr2].
Qed.

End SegmentRuns.

(** * The runs of the render pipeline *)

Module RenderFacts.
Import Js Regex MessageBubble Async Render SegmentSpec RenderSpec.

Section Environment.
Variable marked_parse : str -> str.
Variable mermaid_outcome : nat -> str -> str -> Result str.
Variable Date_now : nat -> str.
Variable Math_random : nat -> str.

Local Abbreviation render_diagram :=
  (Render.render_diagram mermaid_outcome Date_now Math_random).
Local Abbreviation render_segment :=
  (Render.render_segment marked_parse mermaid_outcome Date_now Math_random).
Local Abbreviation render_segments :=
  (Render.render_segments marked_parse mermaid_outcome Date_now Math_random).

(** The three tiers, by the outcomes of the two calls. *)
Lemma render_diagram_tiers (source : str) (w : World) :
  let id := first_id Date_now Math_random w in
  let first := mermaid_outcome (S (clock w)) id (sanitizeMermaid source) in
  let second := mermaid_outcome (S (S (clock w))) (id ++ js "r") source in
  render_diagram source w =
  match first with
  | Ok svg =>
      (Ok (Svg svg),
       {| rendered := rendered w; clock := S (S (clock w));
          log := log w ++ [Issued id (sanitizeMermaid source); Settled id first] |})
  | Threw _ =>
      match second with
      | Ok svg =>
          (Ok (Svg svg),
           {| rendered := rendered w; clock := S (S (S (clock w)));
              log := log w ++ [Issued id (sanitizeMermaid source); Settled id first;
                               Removed id; Issued (id ++ js "r") source;
                               Settled (id ++ js "r") second] |})
      | Threw e2 =>
          (Ok (fallback_code_block source),
           {| rendered := rendered w; clock := S (S (S (clock w)));
              log := log w ++ [Issued id (sanitizeMermaid source); Settled id first;
                               Removed id; Issued (id ++ js "r") source;
                               Settled (id ++ js "r") second;
                               Removed (id ++ js "r"); Warned e2] |})
      end
  end.
Proof.
  intros id first second. subst id first second. unfold first_id.
  unfold Render.render_diagram, fresh_id, mermaid_render, cleanupMermaidElement,
    console_warn, emit, tick, try_catch, modify, await, bind, ret.
  cbn [clock log rendered].
  destruct (mermaid_outcome (S (clock w)) _ _) as [svg|e]; cbn [clock log rendered].
  - rewrite <- !app_assoc. reflexivity.
  - destruct (mermaid_outcome (S (S (clock w))) _ _) as [svg|e2]; cbn [clock log rendered];
      rewrite <- !app_assoc; reflexivity.
Qed.

(** One turn of the loop: it never throws, pushes one unit and leaves
    the events of one [segment_run]. *)
Lemma render_segment_run (result : list RenderedUnit) (seg : Segment) (w : World) :
  exists u tr w',
    render_segment result seg w = (Ok (result ++ [u]), w')
    /\ segment_run marked_parse seg u tr
    /\ log w' = log w ++ tr
    /\ rendered w' = rendered w.
Proof.
  destruct seg as [[|] text]; unfold Render.render_segment; cbn [seg_type seg_text].
  - exists (Html (marked_parse text)), [], w. repeat split.
    + constructor.
    + rewrite app_nil_r. reflexivity.
  - unfold bind at 1. rewrite render_diagram_tiers.
    destruct (mermaid_outcome (S (clock w)) _ _) as [svg|e].
    + eexists _, _, _. split; [reflexivity |]. split; [constructor |].
      split; reflexivity.
    + destruct (mermaid_outcome (S (S (clock w))) _ _) as [svg|e2];
        (eexists _, _, _; split; [reflexivity |]; split; [constructor |];
         split; reflexivity).
Qed.

(** The loop over the segments: one unit and one run for each segment,
    in the order of the segments. *)
Lemma for_of_render_segment (segs : list Segment) (result : list RenderedUnit) (w : World) :
  exists units traces w',
    for_of render_segment segs result w = (Ok (result ++ units), w')
    /\ Forall3 (segment_run marked_parse) segs units traces
    /\ log w' = log w ++ concat traces
    /\ rendered w' = rendered w.
Proof.
  revert result w. induction segs as [|seg segs IH]; intros result w.
  - exists [], [], w. rewrite !app_nil_r. repeat split. constructor.
  - destruct (render_segment_run result seg w) as (u & tr & w1 & Hrun & Hseg & Hlog & Hren).
    destruct (IH (result ++ [u]) w1) as (units & traces & w2 & Hrest & Hall & Hlog2 & Hren2).
    exists (u :: units), (tr :: traces), w2. repeat split.
    + cbn [for_of]. unfold bind at 1. rewrite Hrun, Hrest.
      rewrite <- app_assoc. reflexivity.
    + constructor; assumption.
    + rewrite Hlog2, Hlog. cbn [concat]. rewrite app_assoc. reflexivity.
    + congruence.
Qed.

(** An invocation: the loop, then the one assignment to [rendered]. *)
Lemma render_segments_run (segs : list Segment) (w : World) :
  exists units traces w',
    render_segments segs w = (Ok tt, w')
    /\ Forall3 (segment_run marked_parse) segs units traces
    /\ log w' = log w ++ concat traces ++ [Published units]
    /\ rendered w' = units.
Proof.
  destruct (for_of_render_segment segs [] w) as (units & traces & w1 & Hrun & Hall & Hlog & Hren).
  exists units, traces,
    {| rendered := units; clock := clock w1; log := log w1 ++ [Published units] |}.
  repeat split; try assumption.
  - unfold Render.render_segments, bind. rewrite Hrun. reflexivity.
  - cbn [log]. rewrite Hlog, <- app_assoc. reflexivity.
Qed.

End Environment.

Lemma segment_run_settled mp seg u tr (rest : list Event) :
  segment_run mp seg u tr -> in_flight [] (tr ++ rest) = in_flight [] rest.
Proof.
  intros H. destruct H; cbn [app in_flight]; try reflexivity;
    repeat (rewrite ?filter_cons, ?filter_nil; cbn [app in_flight];
            try (destruct (decide _) as [Hne|_]; [exfalso; apply Hne; reflexivity |]));
    reflexivity.
Qed.

Lemma segment_run_one_at_a_time mp seg u tr (rest : list Event) :
  segment_run mp seg u tr -> one_at_a_time [] (tr ++ rest) = one_at_a_time [] rest.
Proof.
  intros H. destruct H; cbn [app one_at_a_time none_open andb]; try reflexivity;
    repeat (rewrite ?filter_cons, ?filter_nil; cbn [app one_at_a_time none_open andb];
            try (destruct (decide _) as [Hne|_]; [exfalso; apply Hne; reflexivity |]));
    reflexivity.
Qed.

Lemma segment_run_not_published mp seg u tr :
  segment_run mp seg u tr -> existsb is_published tr = false.
Proof. intros H. destruct H; reflexivity. Qed.

Section Runs.
Variable mp : str -> str.

Lemma runs_settled segs units traces :
  Forall3 (segment_run mp) segs units traces -> in_flight [] (concat traces) = [].
Proof.
  induction 1 as [|seg u tr segs units traces Hrun _ IH]; [reflexivity |].
  cbn [concat]. rewrite (segment_run_settled _ _ _ _ _ Hrun). exact IH.
Qed.

Lemma runs_one_at_a_time segs units traces :
  Forall3 (segment_run mp) segs units traces -> one_at_a_time [] (concat traces) = true.
Proof.
  induction 1 as [|seg u tr segs units traces Hrun _ IH]; [reflexivity |].
  cbn [concat]. rewrite (segment_run_one_at_a_time _ _ _ _ _ Hrun). exact IH.
Qed.

Lemma runs_not_published segs units traces :
  Forall3 (segment_run mp) segs units traces -> existsb is_published (concat traces) = false.
Proof.
  induction 1 as [|seg u tr segs units traces Hrun _ IH]; [reflexivity |].
  cbn [concat]. rewrite existsb_app, IH, (segment_run_not_published _ _ _ _ Hrun).
  reflexivity.
Qed.

Lemma runs_units segs units traces :
  Forall3 (segment_run mp) segs units traces ->
  Forall2 (fun seg u => exists tr, segment_run mp seg u tr) segs units.
Proof.
  induction 1 as [|seg u tr segs units traces Hrun _ IH]; constructor; eauto.
Qed.

End Runs.

End RenderFacts.

(** * The runs of the render pipeline, by the answers of the renderer *)

Module RenderClockFacts.
Import Js Regex MessageBubble Async Render SegmentSpec RenderSpec RenderClockSpec RenderFacts.

Section Environment.
Variable marked_parse : str -> str.
Variable mermaid_outcome : nat -> str -> str -> Result str.
Variable Date_now : nat -> str.
Variable Math_random : nat -> str.

Local Abbreviation render_segment :=
  (Render.render_segment marked_parse mermaid_outcome Date_now Math_random).
Local Abbreviation render_segments :=
  (Render.render_segments marked_parse mermaid_outcome Date_now Math_random).
Local Abbreviation segment_run_at :=
  (RenderClockSpec.segment_run_at marked_parse mermaid_outcome Date_now Math_random).
Local Abbreviation runs_from :=
  (RenderClockSpec.runs_from marked_parse mermaid_outcome Date_now Math_random).

(** One turn of the loop, with the ticks: the answers of the renderer at
    the ticks of the turn decide the unit and the events. *)
Lemma render_segment_run_at (result : list RenderedUnit) (seg : Segment) (w : World) :
  exists u tr w',
    render_segment result seg w = (Ok (result ++ [u]), w')
    /\ segment_run_at (clock w) seg u tr (clock w')
    /\ log w' = log w ++ tr
    /\ rendered w' = rendered w.
Proof.
  destruct seg as [[|] text]; unfold Render.render_segment; cbn [seg_type seg_text].
  - exists (Html (marked_parse text)), [], w. repeat split.
    + constructor.
    + rewrite app_nil_r. reflexivity.
  - unfold bind at 1. rewrite render_diagram_tiers.
    change (first_id Date_now Math_random w) with (id_at Date_now Math_random (clock w)).
    destruct (mermaid_outcome (S (clock w)) _ _) as [svg|e] eqn:Hfirst.
    + eexists _, _, _. split; [reflexivity |].
      split; [apply at_sanitized; exact Hfirst |]. split; reflexivity.
    + destruct (mermaid_outcome (S (S (clock w))) _ _) as [svg|e2] eqn:Hsecond;
        (eexists _, _, _; split; [reflexivity |]; split;
         [first [eapply at_original | eapply at_fallback]; eassumption |];
         split; reflexivity).
Qed.

Lemma for_of_render_segment_at (segs : list Segment) (result : list RenderedUnit) (w : World) :
  exists units traces w',
    for_of render_segment segs result w = (Ok (result ++ units), w')
    /\ runs_from (clock w) segs units traces (clock w')
    /\ log w' = log w ++ concat traces
    /\ rendered w' = rendered w.
Proof.
  revert result w. induction segs as [|seg segs IH]; intros result w.
  - exists [], [], w. rewrite !app_nil_r. repeat split. constructor.
  - destruct (render_segment_run_at result seg w) as (u & tr & w1 & Hrun & Hseg & Hlog & Hren).
    destruct (IH (result ++ [u]) w1) as (units & traces & w2 & Hrest & Hall & Hlog2 & Hren2).
    exists (u :: units), (tr :: traces), w2. repeat split.
    + cbn [for_of]. unfold bind at 1. rewrite Hrun, Hrest.
      rewrite <- app_assoc. reflexivity.
    + econstructor; eassumption.
    + rewrite Hlog2, Hlog. cbn [concat]. rewrite app_assoc. reflexivity.
    + congruence.
Qed.

(** An invocation, with the ticks: the loop, then the one assignment. *)
Lemma render_segments_run_at (segs : list Segment) (w : World) :
  exists units traces w',
    render_segments segs w = (Ok tt, w')
    /\ runs_from (clock w) segs units traces (clock w')
    /\ log w' = log w ++ concat traces ++ [Published units]
    /\ rendered w' = units.
Proof.
  destruct (for_of_render_segment_at segs [] w)
    as (units & traces & w1 & Hrun & Hall & Hlog & Hren).
  exists units, traces,
    {| rendered := units; clock := clock w1; log := log w1 ++ [Published units] |}.
  repeat split; try assumption.
  - unfold Render.render_segments, bind. rewrite Hrun. reflexivity.
  - cbn [log]. rewrite Hlog, <- app_assoc. reflexivity.
Qed.

(** A run by the answers of the renderer is a run. *)
Lemma segment_run_at_run (n n' : nat) (seg : Segment) (u : RenderedUnit) (tr : list Event) :
  segment_run_at n seg u tr n' -> segment_run marked_parse seg u tr.
Proof. intros H. destruct H; constructor. Qed.

Lemma runs_from_runs (n n' : nat) segs units traces :
  runs_from n segs units traces n' -> Forall3 (segment_run marked_parse) segs units traces.
Proof.
  induction 1 as [| n n1 n2 seg u tr segs units traces Hrun _ IH]; constructor;
    [eapply segment_run_at_run; exact Hrun | exact IH].
Qed.

Lemma runs_from_length (n n' : nat) segs units traces :
  runs_from n segs units traces n' -> length units = length segs.
Proof. induction 1; cbn [length]; congruence. Qed.

(** The answers of the renderer leave one run only. *)
Lemma segment_run_at_functional (n : nat) (seg : Segment) u1 tr1 n1 u2 tr2 n2 :
  segment_run_at n seg u1 tr1 n1 -> segment_run_at n seg u2 tr2 n2 ->
  u1 = u2 /\ tr1 = tr2 /\ n1 = n2.
Proof.
  intros H1 H2. destruct H1; inversion H2; subst; repeat split; congruence.
Qed.

Lemma runs_from_functional (n : nat) segs units1 traces1 n1 :
  runs_from n segs units1 traces1 n1 ->
  forall units2 traces2 n2,
    runs_from n segs units2 traces2 n2 -> units2 = units1 /\ traces2 = traces1 /\ n2 = n1.
Proof.
  induction 1 as [| n na n1 seg u tr segs units traces Hrun _ IH]; intros units2 traces2 n2 H2.
  - inversion H2; subst. repeat split.
  - inversion H2 as [| ? nb ? ? u' tr' ? units' traces' Hrun' Hrest']; subst.
    destruct (segment_run_at_functional _ _ _ _ _ _ _ _ Hrun Hrun') as (-> & -> & ->).
    destruct (IH _ _ _ Hrest') as (-> & -> & ->). repeat split.
Qed.

End Environment.

End RenderClockFacts.

(** * The sanitizer: claims *)

Module SanitizerTheorems.
Import Js Regex MessageBubble JsSpec ScanSpec SanitizerSpec ListedSpec JsFacts RegexFacts
  ScanFacts SanitizerFacts.

(** C4 (as amended).  The node-label rule works on the text that the
    semicolon rule leaves, and the pipe-label and edge-label rules work
    on what it writes.  In its input, every match is a bracketed label
    that is not empty, and the rule writes for it what is described: the
    label unchanged when its trimmed text starts and ends with a double
    quote, else the trimmed text without its double quotes and between
    double quotes when it holds a parenthesis, a slash, a colon or a
    double quote, else the label unchanged; the text between the matches
    is copied.  The line of the example is sanitized as expected. *)
Theorem quote_labels_rule (s : str) :
  sanitizeMermaid s =
    quote_edge_labels (escape_pipe_labels (quote_labels (strip_semicolons s)))
  /\ quote_labels s = splice quote_label s 0 (matchAll NODE_LABEL s)
  /\ Forall (fun mt : nat * nat * list str =>
               exists L, mt.2 = [L] /\ L <> []
                 /\ slice mt.1.1 (mt.1.1 + mt.1.2) s = [ch "["] ++ L ++ [ch "]"]
                 /\ quote_label mt.2 = label_rule L)
            (matchAll NODE_LABEL s)
  /\ sanitizeMermaid (js "A[Start] --> B[End (done)]")
     = js "A[Start] --> B[" ++ [DQUOTE] ++ js "End (done)" ++ [DQUOTE] ++ js "]".
Proof.
  split; [reflexivity |]. split; [| split].
  - apply (replace_splice _ NODE_LABEL_productive).
  - rewrite Forall_forall. intros [[i len] g] Hin.
    apply (matchAll_sound _ NODE_LABEL_productive) in Hin.
    apply NODE_LABEL_match in Hin as (L & -> & Hne & _ & Ht).
    exists L. cbn [fst snd]. split; [reflexivity |]. split; [exact Hne |].
    split; [| apply quote_label_as_described].
    unfold slice. replace (i + len - i) with len by lia. exact Ht.
  - vm_compute. reflexivity.
Qed.

(** C4 as it is written fails: a label with parentheses between pipes is
    quoted by the node-label rule, and then the pipe-label rule rewrites
    its parentheses; a label without special characters is left alone by
    the node-label rule, and then the edge-label rule quotes a part of
    it. *)
Lemma later_rules_rewrite_labels :
  sanitizeMermaid (js "A[a|(b)|c]") <> js "A" ++ label_rule (js "a|(b)|c")
  /\ sanitizeMermaid (js "A[a|(b)|c]")
     = js "A[" ++ [DQUOTE] ++ js "a|#40;b#41;|c" ++ [DQUOTE] ++ js "]"
  /\ label_rule (js "x -- y -->z") = js "[x -- y -->z]"
  /\ sanitizeMermaid (js "[x -- y -->z]") <> js "[x -- y -->z]".
Proof.
  split; [vm_compute; discriminate |]. split; [vm_compute; reflexivity |].
  split; [vm_compute; reflexivity | vm_compute; discriminate].
Qed.

(** Every listed arrowhead is an arrowhead for the pattern of the code. *)
Lemma listed_arrowhead_is_arrowhead (s e : str) :
  listed_arrowhead s = Some e -> arrowhead s = Some e.
Proof.
  unfold listed_arrowhead, arrowhead.
  destruct (startsWith s (js "-->")); [intros H; exact H |].
  destruct s as [|a [|x [|b [|c r]]]];
    try (cbn [startsWith js map list_ascii_of_string]; rewrite ?andb_false_r;
         intros H; exact H).
  change (startsWith (a :: x :: b :: c :: r) (js "-.->"))
    with (N.eqb (ch "-") a && (N.eqb (ch ".") x && (N.eqb (ch "-") b
          && (N.eqb (ch ">") c && true)))).
  rewrite (N.eqb_sym a (ch "-")), (N.eqb_sym b (ch "-")), (N.eqb_sym c (ch ">")).
  destruct (N.eqb (ch "-") a) eqn:Ha; cbn [andb].
  - destruct (N.eqb (ch ".") x) eqn:Hx; cbn [andb].
    + apply N.eqb_eq in Hx. subst x. change (is_line_terminator (ch ".")) with false.
      cbn [negb andb]. rewrite andb_true_r. intros H. exact H.
    + apply N.eqb_eq in Ha. subst a. intros H.
      destruct (negb (is_line_terminator x) && N.eqb (ch "-") b && N.eqb (ch ">") c);
        [| exact H].
      exfalso. revert H. cbn [startsWith js map list_ascii_of_string]. cbn [orb andb].
      change (N.eqb (N_of_ascii "=") (ch "-")) with false.
      change (N.eqb (N_of_ascii ".") (ch "-")) with false.
      cbn [andb orb]. discriminate.
  - intros H. exact H.
Qed.

(** C6 at the failing text.  The text holds none of the four patterns
    as they are listed, yet the sanitizer applied twice does not give
    what it gives applied once.  The pattern of the edge-label rule
    writes the second arrowhead with a dot that is not escaped, where
    the two alternatives behind it escape theirs, so it takes hyphen,
    any character, hyphen and [>] for an arrowhead: every listed
    arrowhead is one for it, and so is the crossed arrow.  The first
    pass quotes the word before the crossed arrow; the second pass finds
    a double quote in the bracketed label, quotes the label, and quotes
    the word in it again. *)
Theorem sanitizeMermaid_repeats_on_crossed_arrow :
  safe_as_listed crossed_arrow = true
  /\ EDGE_LABEL = edge_label_with arrowhead
  /\ (forall s e, listed_arrowhead s = Some e -> arrowhead s = Some e)
  /\ listed_arrowhead (js "-x-> c]") = None
  /\ arrowhead (js "-x-> c]") = Some (js "-x->")
  /\ sanitizeMermaid crossed_arrow
     = js "[a -- " ++ [DQUOTE] ++ js "b" ++ [DQUOTE] ++ js " -x-> c]"
  /\ sanitizeMermaid (sanitizeMermaid crossed_arrow)
     = js "[" ++ [DQUOTE] ++ js "a -- " ++ [DQUOTE] ++ js "b" ++ [DQUOTE] ++ js " -x-> c"
       ++ [DQUOTE] ++ js "]"
  /\ sanitizeMermaid (sanitizeMermaid crossed_arrow) <> sanitizeMermaid crossed_arrow.
Proof.
  split; [vm_compute; reflexivity |]. split; [reflexivity |].
  split; [exact listed_arrowhead_is_arrowhead |].
  split; [vm_compute; reflexivity |]. split; [vm_compute; reflexivity |].
  split; [vm_compute; reflexivity |]. split; [vm_compute; reflexivity |].
  vm_compute. discriminate.
Qed.

(** X22.  On a text in which the patterns of the code find nothing to
    repair, the crossed arrows counted among the arrowheads, the
    sanitizer gives the text itself, so that a second pass changes
    nothing either. *)
Theorem sanitizeMermaid_idempotent_on_safe (t : str) :
  triggers_no_rule t = true ->
  sanitizeMermaid (sanitizeMermaid t) = sanitizeMermaid t /\ sanitizeMermaid t = t.
Proof.
  intros H. pose proof (sanitizeMermaid_id t H) as Hid.
  split; [rewrite Hid; exact Hid | exact Hid].
Qed.

Lemma sanitizeMermaid_idempotent_on_safe_witness :
  let t := js "flowchart TD" ++ [NL] ++ js "A[Start] --> B[End]" ++ [NL]
           ++ js "B -->|yes| C[" ++ [DQUOTE] ++ js "Done (ok)" ++ [DQUOTE] ++ js "]" in
  triggers_no_rule t = true
  /\ sanitizeMermaid (sanitizeMermaid t) = sanitizeMermaid t /\ sanitizeMermaid t = t.
Proof.
  intros t. assert (H : triggers_no_rule t = true) by (vm_compute; reflexivity).
  split; [exact H | exact (sanitizeMermaid_idempotent_on_safe t H)].
Defined.

End SanitizerTheorems.

(** * The segmentation: claims *)

Module SegmentTheorems.
Import Js Regex MessageBubble JsSpec ScanSpec SegmentSpec JsFacts RegexFacts ScanFacts
  SegmentFacts SegmentRuns.

(** The two ways out of [parseSegments]. *)
Lemma parseSegments_with_cases (raw_detection : str -> option RawMermaid) (t : str) :
  parseSegments_with raw_detection t =
  if 0 <? length (fenced_pass t).1 then
    if (fenced_pass t).2 <? length t
    then (fenced_pass t).1 ++ [md_segment (slice_from (fenced_pass t).2 t)]
    else (fenced_pass t).1
  else match raw_detection t with
       | Some raw => raw_segments raw
       | None => [md_segment t]
       end.
Proof. unfold parseSegments_with. destruct (fenced_pass t) as [segs last]. reflexivity. Qed.

Lemma fenced_pass_nonempty (t : str) :
  matchAll FENCED_MERMAID t <> [] -> (0 <? length (fenced_pass t).1) = true.
Proof.
  intros H. apply Nat.ltb_lt. unfold fenced_pass.
  destruct (fenced_fold_segments t (matchAll FENCED_MERMAID t) [] 0) as (_ & _ & Hlen).
  destruct (matchAll FENCED_MERMAID t); [congruence |]. cbn [length] in Hlen. lia.
Qed.

Lemma fenced_branch_covers (t : str) :
  covers fence_gap t
    (map seg_text
       (if (fenced_pass t).2 <? length t
        then (fenced_pass t).1 ++ [md_segment (slice_from (fenced_pass t).2 t)]
        else (fenced_pass t).1)).
Proof.
  destruct (fenced_fold_covers t (matchAll FENCED_MERMAID t) 0
              (matchAll_tiled _ FENCED_MERMAID_productive t) [] ltac:(lia))
    as [Hle Hcov].
  { rewrite take_0. apply covers_nil. constructor. }
  fold (fenced_pass t) in Hle, Hcov.
  destruct ((fenced_pass t).2 <? length t) eqn:Hlt.
  - rewrite map_app. cbn [map seg_text md_segment].
    rewrite <- (take_drop (fenced_pass t).2 t) at 1.
    replace (drop (fenced_pass t).2 t) with ([] ++ slice_from (fenced_pass t).2 t ++ [])
      by (cbn [app]; rewrite app_nil_r; reflexivity).
    apply (covers_snoc _ fence_gap_app); [exact Hcov | constructor | constructor].
  - apply Nat.ltb_ge in Hlt. rewrite take_ge in Hcov by lia. exact Hcov.
Qed.

Lemma raw_branch_covers (t : str) :
  covers all_space t
    (map seg_text
       match extractRawMermaid t with
       | Some raw => raw_segments raw
       | None => [md_segment t]
       end).
Proof.
  destruct (extractRawMermaid t) as [raw|] eqn:Hraw.
  - apply extractRawMermaid_covers. exact Hraw.
  - exists [[]], []. repeat split; try (repeat constructor).
    unfold weave. cbn. rewrite !app_nil_r. reflexivity.
Qed.

(** C2 (as amended).  For every text, [parseSegments] gives a list of
    segments that is not empty, whose texts lie in the text in the order
    of the list and without overlap.  What lies between them is white
    space and, when the text has fenced blocks, the delimiters of the
    blocks, which belong to no segment; without a fenced block it is
    white space only, so the segments hold every other code unit of the
    text.  The empty text gives one empty prose segment. *)
Theorem parseSegments_covers (t : str) :
  parseSegments t <> []
  /\ covers fence_gap t (map seg_text (parseSegments t))
  /\ (matchAll FENCED_MERMAID t = [] ->
      covers all_space t (map seg_text (parseSegments t)))
  /\ parseSegments [] = [{| seg_type := Md; seg_text := [] |}].
Proof.
  unfold parseSegments. rewrite parseSegments_with_cases.
  destruct (matchAll FENCED_MERMAID t) as [|mt ms] eqn:Hms.
  - assert (Hpass : fenced_pass t = ([], 0)) by (unfold fenced_pass; rewrite Hms; reflexivity).
    rewrite Hpass. cbn [fst length Nat.ltb Nat.leb].
    split; [| split; [| split]].
    + destruct (extractRawMermaid t) as [raw|]; [| discriminate].
      unfold raw_segments. destruct (nonempty (raw_before raw)); discriminate.
    + eapply covers_mono; [apply fence_gap_space | apply raw_branch_covers].
    + intros _. apply raw_branch_covers.
    + reflexivity.
  - rewrite fenced_pass_nonempty by (rewrite Hms; discriminate).
    split; [| split; [| split]].
    + pose proof (fenced_pass_nonempty t ltac:(rewrite Hms; discriminate)) as Hne.
      apply Nat.ltb_lt in Hne.
      destruct ((fenced_pass t).2 <? length t); destruct (fenced_pass t).1;
        cbn in Hne |- *; try lia; discriminate.
    + apply fenced_branch_covers.
    + discriminate.
    + reflexivity.
Qed.

Lemma parseSegments_covers_witness :
  matchAll FENCED_MERMAID raw_example = []
  /\ covers all_space raw_example (map seg_text (parseSegments raw_example)).
Proof.
  assert (H : matchAll FENCED_MERMAID raw_example = []) by (vm_compute; reflexivity).
  split; [exact H |].
  destruct (parseSegments_covers raw_example) as (_ & _ & Hcov & _). exact (Hcov H).
Defined.

(** C2 as it is written fails: of a fenced block, only the body is in a
    segment; the delimiters are dropped, and they are not white space. *)
Lemma fenced_delimiters_are_dropped :
  parseSegments fenced_example = [{| seg_type := Mermaid; seg_text := js "A-->B" |}]
  /\ ~ covers all_space fenced_example (map seg_text (parseSegments fenced_example)).
Proof.
  split; [vm_compute; reflexivity |].
  intros H. apply covers_space_strip in H. vm_compute in H. discriminate.
Qed.

(** C3.  When the text holds a fenced block, [parseSegments] does not
    consult the raw detection, whatever it would find: the diagram
    segments are the trimmed bodies of the fenced blocks, in their
    order, and the prose segments together are the text outside the
    blocks, in its order, so a keyword line outside every block is
    prose. *)
Theorem fenced_blocks_take_precedence (t : str) :
  matchAll FENCED_MERMAID t <> [] ->
  (forall raw_detection, parseSegments_with raw_detection t = parseSegments t)
  /\ map seg_text (List.filter is_diagram (parseSegments t))
     = map (fun mt : nat * nat * list str => trim (group1 mt.2)) (matchAll FENCED_MERMAID t)
  /\ concat (map seg_text (List.filter is_prose (parseSegments t)))
     = splice (fun _ => []) t 0 (matchAll FENCED_MERMAID t).
Proof.
  intros Hne. pose proof (fenced_pass_nonempty t Hne) as Hpos.
  destruct (fenced_fold_segments t (matchAll FENCED_MERMAID t) [] 0) as (Hd & Hp & _).
  fold (fenced_pass t) in Hd, Hp. cbn [List.filter map concat app] in Hd, Hp.
  split; [| split].
  - intros raw_detection. unfold parseSegments.
    rewrite !parseSegments_with_cases, Hpos. reflexivity.
  - unfold parseSegments. rewrite parseSegments_with_cases, Hpos.
    destruct ((fenced_pass t).2 <? length t); [| exact Hd].
    rewrite List.filter_app. cbn [List.filter is_diagram md_segment seg_type].
    rewrite app_nil_r. exact Hd.
  - unfold parseSegments. rewrite parseSegments_with_cases, Hpos. rewrite <- Hp.
    destruct ((fenced_pass t).2 <? length t) eqn:Hlt.
    + rewrite List.filter_app. cbn [List.filter is_prose md_segment seg_type].
      rewrite map_app, concat_app. cbn [map concat seg_text]. rewrite app_nil_r. reflexivity.
    + apply Nat.ltb_ge in Hlt. unfold slice_from. rewrite drop_ge by lia.
      rewrite app_nil_r. reflexivity.
Qed.

Lemma fenced_blocks_take_precedence_witness :
  matchAll FENCED_MERMAID keyword_then_fence <> []
  /\ MERMAID_KEYWORDS keyword_then_fence = Some 0
  /\ parseSegments keyword_then_fence
     = [{| seg_type := Md; seg_text := js "graph TD" ++ [NL] |};
        {| seg_type := Mermaid; seg_text := js "A-->B" |}]
  /\ (forall raw_detection,
        parseSegments_with raw_detection keyword_then_fence = parseSegments keyword_then_fence).
Proof.
  assert (H : matchAll FENCED_MERMAID keyword_then_fence <> []) by (vm_compute; discriminate).
  split; [exact H |]. split; [vm_compute; reflexivity |]. split; [vm_compute; reflexivity |].
  destruct (fenced_blocks_take_precedence keyword_then_fence H) as (Hraw & _ & _).
  exact Hraw.
Defined.

End SegmentTheorems.

(** * The render pipeline: claims *)

Module RenderTheorems.
Import Js Regex MessageBubble Async Render SegmentSpec RenderSpec EscapeSpec EscapeFacts
  RenderFacts RenderClockSpec RenderClockFacts.

(** C1 (as amended).  Rendering a diagram segment never throws and gives
    exactly one unit, decided by the outcomes of the two render calls:
    when both fail, the unit is the fallback code block, whose payload
    is the escaped original source between the opening and closing
    markup of the block.  The escaped source is the original with every
    ampersand, less-than and greater-than sign replaced by its entity:
    it holds no angle bracket, and each of its ampersands starts an
    entity. *)
Theorem render_diagram_fallback_escaped
    (mermaid_outcome : nat -> str -> str -> Result str)
    (Date_now Math_random : nat -> str) (source : str) (w : World) :
  let id := first_id Date_now Math_random w in
  let first := mermaid_outcome (S (clock w)) id (sanitizeMermaid source) in
  let second := mermaid_outcome (S (S (clock w))) (id ++ js "r") source in
  (exists w',
     render_diagram mermaid_outcome Date_now Math_random source w =
     (Ok match first, second with
         | Ok svg, _ => Svg svg
         | Threw _, Ok svg => Svg svg
         | Threw _, Threw _ => fallback_code_block source
         end, w'))
  /\ fallback_code_block source =
     Html (fallback_open ++ flat_map escape_unit source ++ fallback_close)
  /\ (ch "<" ∉ escapeHtml source)
  /\ (ch ">" ∉ escapeHtml source)
  /\ no_bare_ampersand (escapeHtml source) = true.
Proof.
  intros id first second. split; [| split; [| split; [| split]]].
  - rewrite render_diagram_tiers. fold id first second.
    destruct first as [svg|e]; [eauto |]. destruct second as [svg|e2]; eauto.
  - unfold fallback_code_block. rewrite escapeHtml_units. reflexivity.
  - apply escapeHtml_no_angle.
  - apply escapeHtml_no_angle.
  - apply escapeHtml_no_bare_ampersand.
Qed.

(** C1 as it is written fails: the payload of the fallback unit is the
    whole code block, and its markup holds angle brackets. *)
Lemma fallback_payload_has_markup :
  exists payload w',
    render_diagram (fun _ _ _ => Threw []) (fun _ => []) (fun _ => []) (js "A-->") start
    = (Ok (Html payload), w')
    /\ (ch "<" ∈ payload) /\ (ch ">" ∈ payload).
Proof.
  eexists _, _. split; [vm_compute; reflexivity |].
  split; apply list_elem_of_In; vm_compute; tauto.
Qed.

(** C5.  An invocation over any list of segments never throws.  It
    assigns the list of units once, as its last act, after the runs of
    all segments, when no render call is still in flight and nothing was
    published before.  The list holds one unit for each segment, at the
    position of the segment: the parsed text of a prose segment; for a
    diagram the graphic that the renderer answered to the call for the
    text of that very segment, sanitized or, after a failure, as it
    came, or the fallback block of that text after two failures.  The
    events of the invocation are the runs of the segments in the order
    of the segments, so neither the units nor the events can follow
    another order; the answers of the renderer leave one list only. *)
Theorem render_segments_publishes_in_order
    (marked_parse : str -> str) (mermaid_outcome : nat -> str -> str -> Result str)
    (Date_now Math_random : nat -> str) (segs : list Segment) (w : World) :
  exists units traces w',
    render_segments marked_parse mermaid_outcome Date_now Math_random segs w = (Ok tt, w')
    /\ rendered w' = units
    /\ length units = length segs
    /\ runs_from marked_parse mermaid_outcome Date_now Math_random
         (clock w) segs units traces (clock w')
    /\ Forall3 (segment_run marked_parse) segs units traces
    /\ log w' = log w ++ concat traces ++ [Published units]
    /\ existsb is_published (concat traces) = false
    /\ in_flight [] (concat traces) = []
    /\ (forall units2 traces2 n2,
          runs_from marked_parse mermaid_outcome Date_now Math_random
            (clock w) segs units2 traces2 n2 ->
          units2 = units /\ traces2 = traces).
Proof.
  destruct (render_segments_run_at marked_parse mermaid_outcome Date_now Math_random segs w)
    as (units & traces & w' & Hrun & Hall & Hlog & Hren).
  exists units, traces, w'.
  pose proof (runs_from_runs _ _ _ _ _ _ _ _ _ Hall) as Hruns.
  split; [exact Hrun |]. split; [exact Hren |].
  split; [eapply runs_from_length; exact Hall |].
  split; [exact Hall |]. split; [exact Hruns |]. split; [exact Hlog |].
  split; [eapply runs_not_published; exact Hruns |].
  split; [eapply runs_settled; exact Hruns |].
  intros units2 traces2 n2 H2.
  destruct (runs_from_functional _ _ _ _ _ _ _ _ _ Hall _ _ _ H2) as (-> & -> & _).
  split; reflexivity.
Qed.

(** Two diagrams whose graphics tell them apart keep their places: with
    a renderer that answers every call with its text, the first unit is
    the first diagram, the last unit the second, and the line feed
    between the two blocks stands between them. *)
Lemma two_diagrams_keep_their_places :
  rendered (render (fun s => s) echo (fun _ => []) (fun _ => []) (Some two_diagrams) start).2
  = [Svg (js "A-->B"); Html [NL]; Svg (js "C-->D")].
Proof. vm_compute. reflexivity. Qed.

(** C8 (as amended).  An invocation renders its segments one after the
    other: its events are the runs of the segments in their order, then
    the publication; no render call is issued while another has not
    settled, and none is in flight when the list is published. *)
Theorem render_segments_sequential
    (marked_parse : str -> str) (mermaid_outcome : nat -> str -> str -> Result str)
    (Date_now Math_random : nat -> str) (segs : list Segment) (w : World) :
  exists units traces w',
    render_segments marked_parse mermaid_outcome Date_now Math_random segs w = (Ok tt, w')
    /\ Forall3 (segment_run marked_parse) segs units traces
    /\ log w' = log w ++ concat traces ++ [Published units]
    /\ one_at_a_time [] (concat traces) = true
    /\ in_flight [] (concat traces) = [].
Proof.
  destruct (render_segments_run marked_parse mermaid_outcome Date_now Math_random segs w)
    as (units & traces & w' & Hrun & Hall & Hlog & Hren).
  exists units, traces, w'. repeat split; try assumption.
  - eapply runs_one_at_a_time. exact Hall.
  - eapply runs_settled. exact Hall.
Qed.

(** C8 as it is written fails: with two diagrams, the second render
    call is issued after the first one has settled. *)
Lemma second_render_waits_for_first :
  let w' := (render (fun s => s) (fun _ _ _ => Ok []) (fun _ => []) (fun _ => [])
               (Some two_diagrams) start).2 in
  length (filter (fun seg => is_diagram seg = true) (parseSegments two_diagrams)) = 2
  /\ issues_all_first (parseSegments two_diagrams) (log w') = false
  /\ map is_issued (take 3 (log w')) = [true; false; true].
Proof. vm_compute. repeat split. Qed.

End RenderTheorems.

(** * The chat history: claims *)

Module ChatTheorems.
Import Js Async Chat ChatSpec.

Section Sources.
Variable Source : Type.

Local Abbreviation ChatWorld := (Chat.ChatWorld Source).
Local Abbreviation greeting := (Chat.greeting Source).

Lemma step_greets (w w' : ChatWorld) :
  step Source w w' -> greets Source w -> greets Source w'.
Proof.
  intros Hstep [rest Hw]. destruct Hstep as [query w | outcome w | w].
  - exists (rest ++ [Some {| role := user; content := query; sources := [] |}]).
    cbn. rewrite Hw. reflexivity.
  - destruct outcome as [data | e]; cbn; rewrite Hw; eexists; reflexivity.
  - exists []. cbn. rewrite Hw. reflexivity.
Qed.

Lemma reachable_greets (w : ChatWorld) : reachable Source w -> greets Source w.
Proof.
  induction 1 as [| w w' _ IH Hstep].
  - exists []. reflexivity.
  - eapply step_greets; eassumption.
Qed.

End Sources.

(** C9.  In every state that the chat can reach, whatever the order of
    the steps of [sendMessage] and [clearChat], the array of messages
    starts with the greeting, so it is not empty.  From such a state
    [sendMessage] appends the message of the user and then one message
    of the assistant, the answer or the error, and [clearChat] leaves
    exactly the greeting. *)
Theorem chat_starts_with_greeting (Source : Type) (w : ChatWorld Source) :
  reachable Source w ->
  (exists rest, messages Source w = Some (greeting Source) :: rest)
  /\ (forall (postQuery : Result (Answer Source)) (query : str),
        sendMessage Source postQuery query w =
        (Ok tt,
         {| messages :=
              messages Source w
              ++ [Some {| role := user; content := query; sources := [] |};
                  Some match postQuery with
                       | Ok data =>
                           {| role := assistant; content := answer Source data;
                              sources := answer_sources Source data |}
                       | Threw e =>
                           {| role := assistant; content := js "Error: " ++ e;
                              sources := [] |}
                       end];
            loading := false |}))
  /\ clearChat Source w =
     (Ok tt, {| messages := [Some (greeting Source)]; loading := loading Source w |}).
Proof.
  intros Hreach. pose proof (reachable_greets Source w Hreach) as [rest Hw].
  split; [exists rest; exact Hw |]. split.
  - intros postQuery query. destruct postQuery as [data | e]; cbn;
      rewrite <- app_assoc; reflexivity.
  - unfold clearChat, modify. rewrite Hw. reflexivity.
Qed.

Lemma chat_starts_with_greeting_witness :
  reachable unit cleared_while_waiting
  /\ (exists rest, messages unit cleared_while_waiting = Some (greeting unit) :: rest)
  /\ clearChat unit cleared_while_waiting =
     (Ok tt, {| messages := [Some (greeting unit)];
                loading := loading unit cleared_while_waiting |}).
Proof.
  assert (Hreach : reachable unit cleared_while_waiting).
  { unfold cleared_while_waiting.
    eapply reachable_step; [| apply step_settle].
    eapply reachable_step; [| apply step_clear].
    eapply reachable_step; [| apply step_begin].
    apply reachable_initial. }
  split; [exact Hreach |].
  destruct (chat_starts_with_greeting unit cleared_while_waiting Hreach) as [H1 [_ H3]].
  split; [exact H1 | exact H3].
Defined.

End ChatTheorems.

(** * The filters and the metadata fetches: claims *)

Module FilterTheorems.
Import Js Async Filters.

(** Looking a key up in an object built by assignments of literal keys. *)
Ltac lookup_built :=
  repeat (rewrite lookup_insert_ne by discriminate);
  rewrite ?lookup_insert_eq, ?lookup_empty; reflexivity.

(** C10.  The object that [getActiveFilters] returns has a key for
    exactly the selections that are truthy: the three names map to the
    selected value itself and the year to [parseInt] of the selection,
    as a number; no other key is present and no key maps to [null].  A
    [null] selection is not truthy, and a string is truthy exactly when
    it is not empty. *)
Theorem getActiveFilters_truthy_selections
    (number : Type) (number_truthy : number -> bool)
    (parseInt : jsval number -> number) (w : FilterWorld number) :
  let truthy := truthy number number_truthy in
  let f := getActiveFilters number number_truthy parseInt w in
  f !! "owner"%string =
    (if truthy (selectedOwner number w) then Some (selectedOwner number w) else None)
  /\ f !! "company"%string =
    (if truthy (selectedCompany number w) then Some (selectedCompany number w) else None)
  /\ f !! "category"%string =
    (if truthy (selectedCategory number w) then Some (selectedCategory number w) else None)
  /\ f !! "year"%string =
    (if truthy (selectedYear number w)
     then Some (JNum number (parseInt (selectedYear number w))) else None)
  /\ dom f ⊆ ({["owner"; "company"; "category"; "year"]}%string : gset string)
  /\ map_Forall (fun _ v => v <> JNull number) f
  /\ truthy (JNull number) = false
  /\ truthy (JStr number []) = false
  /\ (forall c s, truthy (JStr number (c :: s)) = true).
Proof.
  intros truthy f. subst f. unfold getActiveFilters. fold truthy.
  destruct (truthy (selectedOwner number w)) eqn:Ho;
  destruct (truthy (selectedCompany number w)) eqn:Hc;
  destruct (truthy (selectedCategory number w)) eqn:Hk;
  destruct (truthy (selectedYear number w)) eqn:Hy;
  (split_and!;
   [ lookup_built | lookup_built | lookup_built | lookup_built
   | rewrite ?dom_insert_L, ?dom_empty_L;
     apply (bool_decide_unpack _); vm_compute; reflexivity
   | repeat (apply map_Forall_insert_2;
             [intros E; first [discriminate E | rewrite E in *; discriminate] |]);
     apply map_Forall_empty
   | reflexivity | reflexivity | reflexivity ]).
Qed.

(** C7 at the failing fetch.  When the fetch of the owners fails, the
    hook of the sidebar ends with that error, which nothing catches; the
    lists keep what they held.  The hook of the header catches the
    failure of its fetch and leaves the statistics [null]. *)
Theorem loadFilters_rejection_escapes
    (number : Type) (Stats : Type) (e : str)
    (getCompanies getCategories : Result (list (jsval number)))
    (w : FilterWorld number) :
  FilterSidebar_onMounted number (Threw e) getCompanies getCategories w = (Threw e, w)
  /\ Header_onMounted Stats (Threw e) (header_initial Stats) = (Ok tt, header_initial Stats).
Proof.
  split.
  - unfold FilterSidebar_onMounted, loadFilters, bind, await, Promise_all3.
    destruct getCompanies, getCategories; reflexivity.
  - reflexivity.
Qed.

End FilterTheorems.

(** * The escaping: further properties *)

Module EscapeMore.
Import Js Regex MessageBubble EscapeSpec EscapeMoreSpec RegexFacts EscapeFacts.

Lemma unescape_unit (c : N) (rest : str) :
  unescapeHtml (escape_unit c ++ rest) = c :: unescapeHtml rest.
Proof.
  unfold unescapeHtml, escape_unit.
  destruct (N.eqb c (ch "&")) eqn:Hamp.
  { apply N.eqb_eq in Hamp. subst c. reflexivity. }
  destruct (N.eqb c (ch "<")) eqn:Hlt.
  { apply N.eqb_eq in Hlt. subst c. reflexivity. }
  destruct (N.eqb c (ch ">")) eqn:Hgt.
  { apply N.eqb_eq in Hgt. subst c. reflexivity. }
  cbn [app unescape_from].
  assert (Hc : N.eqb (ch "&") c = false) by (rewrite N.eqb_sym; exact Hamp).
  cbn [startsWith js map list_ascii_of_string]. 
  change (N_of_ascii "&") with (ch "&"). rewrite Hc. reflexivity.
Qed.

(** X1.  The escaped text determines the source: reading the entities
    back gives the source again. *)
Theorem escapeHtml_round_trip (s : str) : unescapeHtml (escapeHtml s) = s.
Proof.
  rewrite escapeHtml_units. induction s as [|c r IH]; [reflexivity |].
  cbn [flat_map]. rewrite unescape_unit, IH. reflexivity.
Qed.

Lemma escape_unit_length (c : N) : 1 <= length (escape_unit c).
Proof.
  unfold escape_unit.
  destruct (N.eqb c (ch "&")); [cbn; lia |].
  destruct (N.eqb c (ch "<")); [cbn; lia |].
  destruct (N.eqb c (ch ">")); cbn; lia.
Qed.

Lemma escapeHtml_length (s : str) : length s <= length (escapeHtml s).
Proof.
  rewrite escapeHtml_units. induction s as [|c r IH]; [reflexivity |].
  cbn [flat_map]. rewrite length_app. pose proof (escape_unit_length c). cbn [length]. lia.
Qed.

(** X2.  Escaping goes through concatenation, and it leaves a text as it
    is exactly when the text holds none of the three characters. *)
Theorem escapeHtml_pieces (a b : str) :
  escapeHtml (a ++ b) = escapeHtml a ++ escapeHtml b
  /\ (escapeHtml a = a <-> forallb is_plain a = true).
Proof.
  split.
  - rewrite !escapeHtml_units. apply flat_map_app.
  - split.
    + induction a as [|c r IH]; [reflexivity |].
      intros H. pose proof H as Hlen. apply (f_equal length) in Hlen.
      rewrite escapeHtml_units in H, Hlen. cbn [flat_map] in H, Hlen.
      rewrite length_app in Hlen. cbn [length] in Hlen.
      pose proof (escapeHtml_length r) as Hr. rewrite escapeHtml_units in Hr.
      unfold escape_unit, is_plain in *. cbn [forallb].
      destruct (N.eqb c (ch "&")); [change (length (js "&amp;")) with 5 in Hlen; lia |].
      destruct (N.eqb c (ch "<")); [change (length (js "&lt;")) with 4 in Hlen; lia |].
      destruct (N.eqb c (ch ">")); [change (length (js "&gt;")) with 4 in Hlen; lia |].
      cbn [orb negb andb]. apply IH. rewrite escapeHtml_units.
      cbn [app] in H. injection H as H. exact H.
    + rewrite escapeHtml_units. induction a as [|c r IH]; [reflexivity |].
      cbn [forallb flat_map]. intros H. apply andb_true_iff in H as [Hc Hr].
      unfold is_plain in Hc. apply negb_true_iff in Hc.
      apply orb_false_iff in Hc as [Hc Hgt]. apply orb_false_iff in Hc as [Hamp Hlt].
      unfold escape_unit at 1. rewrite Hamp, Hlt, Hgt. cbn [app]. rewrite IH by exact Hr.
      reflexivity.
Qed.

End EscapeMore.

(** * The sanitizer: further properties *)

Module SanitizerMore.
Import Js Regex MessageBubble JsSpec ScanSpec SanitizerSpec SanitizerMoreSpec JsFacts RegexFacts
  ScanFacts SanitizerFacts.

Lemma run_app_stop (p : N -> bool) (L : str) (x : N) (rest : str) :
  Forall (fun c => p c = true) L -> p x = false -> run p (L ++ x :: rest) = length L.
Proof.
  intros HL Hx. induction HL as [|c L Hc _ IH]; cbn [app run length].
  - rewrite Hx. reflexivity.
  - rewrite Hc, IH. reflexivity.
Qed.

Lemma greedy_top {A : Type} (lo n : nat) (k : nat -> option A) (r : A) :
  lo <= n -> k n = Some r -> greedy lo n k = Some r.
Proof.
  intros Hlo Hk. destruct n; cbn [greedy];
    (destruct (_ <? lo) eqn:Hlt; [apply Nat.ltb_lt in Hlt; lia |]); rewrite Hk; reflexivity.
Qed.

Lemma greedy_low {A : Type} (lo n : nat) (k : nat -> option A) :
  n < lo -> greedy lo n k = None.
Proof.
  intros Hlo. destruct n; cbn [greedy];
    (destruct (_ <? lo) eqn:Hlt; [reflexivity | apply Nat.ltb_ge in Hlt; lia]).
Qed.

Lemma drop_behind {A : Type} (L : list A) (x : A) (rest : list A) :
  drop (length L + 2 - 1) (L ++ x :: rest) = rest.
Proof.
  replace (length L + 2 - 1) with (length (L ++ [x])) by (rewrite length_app; cbn; lia).
  change (L ++ x :: rest) with (L ++ [x] ++ rest). rewrite (app_assoc L [x] rest).
  apply drop_app_length.
Qed.

Section Delimited.
Variables (opn close : N) (lo : nat).
Local Abbreviation m := (delimited opn close lo).

(** The pattern matches where the delimiters enclose a label. *)
Lemma delimited_complete (L rest : str) :
  (close ∉ L) -> lo <= length L ->
  m (opn :: L ++ close :: rest) = Some (length L + 2, [L]).
Proof.
  intros Hno Hlo. unfold delimited. rewrite N.eqb_refl.
  assert (Hrun : run (fun x => negb (N.eqb x close)) (L ++ close :: rest) = length L).
  { apply run_app_stop; [| rewrite N.eqb_refl; reflexivity].
    apply Forall_forall. intros c Hc. apply negb_true_iff, N.eqb_neq.
    intros ->. apply Hno, Hc. }
  rewrite Hrun. apply greedy_top; [exact Hlo |].
  rewrite drop_app_length. cbn [startsWith]. rewrite N.eqb_refl. cbn [andb].
  rewrite take_app_length. reflexivity.
Qed.

(** And only there. *)
Lemma delimited_sound (s : str) (len : nat) (g : list str) :
  m s = Some (len, g) ->
  exists L rest,
    s = opn :: L ++ close :: rest /\ g = [L] /\ len = length L + 2
    /\ (close ∉ L) /\ lo <= length L.
Proof.
  unfold delimited. destruct s as [|c r]; [discriminate |].
  destruct (N.eqb c opn) eqn:Hc; [| discriminate].
  apply N.eqb_eq in Hc. subst c. intros H.
  apply delimited_match in H as (L & -> & Hlo & -> & Hno & Htake).
  exists L, (drop (length L + 1) r).
  split; [| repeat split; assumption].
  f_equal. rewrite <- (take_drop (length L + 1) r) at 1.
  rewrite Htake, <- app_assoc. reflexivity.
Qed.

Lemma delimited_other (c : N) (r : str) : c <> opn -> m (c :: r) = None.
Proof.
  intros Hc. unfold delimited. apply N.eqb_neq in Hc. rewrite Hc. reflexivity.
Qed.

Variable f : list str -> str.
Variable Q : str -> Prop.
Hypothesis lo_small : lo <= 1.
Hypothesis f_delimits :
  forall L, (close ∉ L) -> lo <= length L ->
    exists L', f [L] = opn :: L' ++ [close] /\ (close ∉ L') /\ lo <= length L' /\ Q L'.

Lemma replace_no_close (r : str) : (close ∉ r) -> replace m f r = r.
Proof.
  induction r as [|c r IH]; intros Hno; [reflexivity |].
  rewrite replace_cons. destruct (m (c :: r)) as [[len g]|] eqn:Hm.
  - apply delimited_sound in Hm as (L & rest & Hs & _).
    exfalso. apply Hno. rewrite Hs. right. apply elem_of_app. right. left.
  - f_equal. apply IH. intros Hin. apply Hno. right. exact Hin.
Qed.

Lemma replace_head_close (rest : str) :
  exists X, replace m f (close :: rest) = close :: X.
Proof.
  rewrite replace_cons. destruct (m (close :: rest)) as [[len g]|] eqn:Hm.
  - apply delimited_sound in Hm as (L & rest' & Hs & -> & _ & Hno & Hlo).
    injection Hs as Hopn _.
    destruct (f_delimits L Hno Hlo) as (L' & -> & _).
    rewrite <- Hopn. eexists. reflexivity.
  - eexists. reflexivity.
Qed.

(** Where the pattern does not match, it does not match once the text
    behind has been rewritten. *)
Lemma delimited_None_stays (c : N) (r : str) :
  m (c :: r) = None -> m (c :: replace m f r) = None.
Proof.
  intros Hm. destruct (decide (c = opn)) as [-> | Hc]; [| apply delimited_other; exact Hc].
  destruct (decide (close ∈ r)) as [Hin | Hno].
  - apply list_elem_of_split_l in Hin as (l1 & l2 & -> & Hl1).
    destruct (decide (lo <= length l1)) as [Hlo | Hlo].
    + rewrite (delimited_complete l1 l2 Hl1 Hlo) in Hm. discriminate.
    + destruct l1 as [|x l1]; [| cbn [length] in Hlo; lia]. cbn [app length] in *.
      destruct (replace_head_close l2) as [X ->].
      unfold delimited. rewrite N.eqb_refl. cbn [run]. rewrite N.eqb_refl. cbn [negb].
      apply greedy_low. lia.
  - rewrite replace_no_close by exact Hno. exact Hm.
Qed.

(** The matches of the rewritten text are the rewritten labels. *)
Lemma matches_settled (n : nat) :
  forall s idx,
    length s <= n ->
    Forall (fun mt : nat * nat * list str => exists L', mt.2 = [L'] /\ Q L')
           (matchAll_from m 0 idx (replace m f s)).
Proof.
  induction n as [|n IH]; intros s idx Hlen.
  - destruct s; [constructor | cbn [length] in Hlen; lia].
  - destruct s as [|c r]; [constructor |]. cbn [length] in Hlen.
    rewrite replace_cons. destruct (m (c :: r)) as [[len g]|] eqn:Hm.
    + apply delimited_sound in Hm as (L & rest & Hs & -> & -> & Hno & Hlo).
      injection Hs as -> ->. rewrite drop_behind.
      destruct (f_delimits L Hno Hlo) as (L' & -> & Hno' & Hlo' & HQ).
      cbn [app]. rewrite <- app_assoc. cbn [app].
      rewrite matchAll_from_cons, (delimited_complete L' _ Hno' Hlo'), drop_behind.
      constructor; [exists L'; split; [reflexivity | exact HQ] |].
      apply IH. rewrite length_app in Hlen. cbn [length] in Hlen. lia.
    + rewrite matchAll_from_cons, (delimited_None_stays c r Hm).
      apply IH. lia.
Qed.

End Delimited.

(** [trim] leaves a text with no white space at its ends as it is. *)
Lemma trim_solid (c z : N) (s u : str) :
  s = c :: u -> rev s = z :: rev (take (length u) s) ->
  is_space c = false -> is_space z = false -> trim s = s.
Proof.
  intros -> Hrev Hc Hz. unfold trim, trimEnd. cbn [trimStart]. rewrite Hc.
  rewrite Hrev. cbn [trimStart]. rewrite Hz, <- Hrev. apply rev_involutive.
Qed.

Lemma trim_quoted (u : str) :
  trim (DQUOTE :: u ++ [DQUOTE]) = DQUOTE :: u ++ [DQUOTE]
  /\ quoted (DQUOTE :: u ++ [DQUOTE]) = true.
Proof.
  assert (Hrev : rev (DQUOTE :: u ++ [DQUOTE]) = DQUOTE :: rev u ++ [DQUOTE]).
  { cbn [rev]. rewrite rev_app_distr. reflexivity. }
  split.
  - unfold trim, trimEnd. cbn [trimStart].
    change (is_space DQUOTE) with false. cbv iota.
    rewrite Hrev. cbn [trimStart]. change (is_space DQUOTE) with false. cbv iota.
    rewrite <- Hrev. apply rev_involutive.
  - unfold quoted, endsWith. rewrite Hrev. reflexivity.
Qed.

Lemma trim_sub (L : str) (x : N) : x ∈ trim L -> x ∈ L.
Proof.
  destruct (trim_split L) as (a1 & a2 & _ & _ & HL). intros Hx.
  rewrite HL. apply elem_of_app. right. apply elem_of_app. left. exact Hx.
Qed.

(** What the node-label rule writes is a label between its brackets
    that the rule would leave as it is. *)
Lemma quote_label_settles (L : str) :
  (ch "]" ∉ L) -> 1 <= length L ->
  exists L',
    quote_label [L] = ch "[" :: L' ++ [ch "]"] /\ (ch "]" ∉ L') /\ 1 <= length L'
    /\ quoted (trim L') || negb (existsb is_special (trim L')) = true.
Proof.
  intros Hno Hlen. rewrite quote_label_as_described. unfold label_rule. cbv zeta.
  destruct (quoted (trim L)) eqn:Hq.
  - exists L. rewrite Hq. repeat split; assumption.
  - destruct (existsb is_special (trim L)) eqn:Hs.
    + exists (DQUOTE :: List.filter (fun c => negb (N.eqb c DQUOTE)) (trim L) ++ [DQUOTE]).
      destruct (trim_quoted (List.filter (fun c => negb (N.eqb c DQUOTE)) (trim L)))
        as [Ht Hquoted].
      rewrite Ht, Hquoted. split; [| split; [| split]].
      * cbn [app]. rewrite <- app_assoc. reflexivity.
      * intros Hin. apply elem_of_cons in Hin as [Hin | Hin]; [discriminate |].
        apply elem_of_app in Hin as [Hin | Hin].
        -- apply list_elem_of_In, filter_In in Hin as [Hin _].
           apply Hno, trim_sub, list_elem_of_In, Hin.
        -- apply list_elem_of_singleton in Hin. discriminate.
      * cbn [length]. lia.
      * reflexivity.
    + exists L. rewrite Hq, Hs. repeat split; assumption.
Qed.

(** Rewriting the parentheses leaves none and brings no code unit that
    was not there, the code units of the two entities apart. *)
Lemma escaped_parens (bad : N -> bool) (L : str) :
  existsb bad (js "#40;") = false -> existsb bad (js "#41;") = false ->
  (forall x, x ∈ L -> is_paren x = false -> bad x = false) ->
  existsb bad
    (replace (unit_pattern (ch ")")) (fun _ => js "#41;")
       (replace (unit_pattern (ch "(")) (fun _ => js "#40;") L)) = false.
Proof.
  intros H40 H41 HL. rewrite !replace_unit.
  induction L as [|x L IH]; [reflexivity |].
  cbn [flat_map]. rewrite flat_map_app, existsb_app.
  rewrite IH by (intros y Hy; apply HL; right; exact Hy).
  rewrite orb_false_r.
  destruct (N.eqb x (ch "(")) eqn:Hopen; [exact H40 |].
  cbn [flat_map]. rewrite app_nil_r.
  destruct (N.eqb x (ch ")")) eqn:Hclose; [exact H41 |].
  cbn [existsb]. rewrite orb_false_r. apply HL; [left |].
  unfold is_paren. rewrite Hopen, Hclose. reflexivity.
Qed.

Lemma escape_pipe_label_settles (L : str) :
  (ch "|" ∉ L) -> 0 <= length L ->
  exists L',
    escape_pipe_label [L] = ch "|" :: L' ++ [ch "|"] /\ (ch "|" ∉ L') /\ 0 <= length L'
    /\ existsb is_paren L' = false.
Proof.
  intros Hno _. unfold escape_pipe_label. change (group1 [L]) with L. cbv zeta.
  eexists. split; [reflexivity |]. split; [| split; [lia |]].
  - intros Hin. apply list_elem_of_In in Hin.
    assert (H : existsb (N.eqb (ch "|"))
                  (replace (unit_pattern (ch ")")) (fun _ => js "#41;")
                     (replace (unit_pattern (ch "(")) (fun _ => js "#40;") L)) = false).
    { apply escaped_parens; [reflexivity | reflexivity |].
      intros x Hx _. apply N.eqb_neq. intros <-. apply Hno, Hx. }
    assert (H' : existsb (N.eqb (ch "|"))
                  (replace (unit_pattern (ch ")")) (fun _ => js "#41;")
                     (replace (unit_pattern (ch "(")) (fun _ => js "#40;") L)) = true).
    { apply existsb_exists. eexists. split; [exact Hin | apply N.eqb_refl]. }
    congruence.
  - apply escaped_parens; [reflexivity | reflexivity |]. intros x _ Hx. exact Hx.
Qed.

(** X3.  One pass of the node-label rule settles the text: no label is
    left for the rule to quote, and a second pass changes nothing. *)
Theorem quote_labels_settles (t : str) :
  no_label_to_quote (quote_labels t) = true
  /\ quote_labels (quote_labels t) = quote_labels t.
Proof.
  assert (H : no_label_to_quote (quote_labels t) = true).
  { unfold no_label_to_quote, quote_labels, matchAll.
    apply forallb_forall. intros mt Hin.
    pose proof (matches_settled (ch "[") (ch "]") 1 quote_label
                  (fun L' => quoted (trim L') || negb (existsb is_special (trim L')) = true)
                  (le_n 1) quote_label_settles (length t) t 0 (le_n _)) as Hall.
    rewrite Forall_forall in Hall.
    destruct (Hall mt (proj2 (list_elem_of_In _ _) Hin)) as (L' & Hg & HQ).
    rewrite Hg. exact HQ. }
  split; [exact H | apply quote_labels_id; exact H].
Qed.

(** X4.  One pass of the pipe-label rule settles the text: no
    parenthesis is left between two pipes, and a second pass changes
    nothing. *)
Theorem escape_pipe_labels_settles (t : str) :
  no_paren_in_pipe_label (escape_pipe_labels t) = true
  /\ escape_pipe_labels (escape_pipe_labels t) = escape_pipe_labels t.
Proof.
  assert (H : no_paren_in_pipe_label (escape_pipe_labels t) = true).
  { unfold no_paren_in_pipe_label, escape_pipe_labels, matchAll.
    apply forallb_forall. intros mt Hin.
    pose proof (matches_settled (ch "|") (ch "|") 0 escape_pipe_label
                  (fun L' => existsb is_paren L' = false)
                  (le_S _ _ (le_n 0)) escape_pipe_label_settles (length t) t 0 (le_n _))
      as Hall.
    rewrite Forall_forall in Hall.
    destruct (Hall mt (proj2 (list_elem_of_In _ _) Hin)) as (L' & Hg & HQ).
    rewrite Hg. change (group1 [L']) with L'. rewrite HQ. reflexivity. }
  split; [exact H | apply escape_pipe_labels_id; exact H].
Qed.

Lemma substance_app (a b : str) : substance (a ++ b) = substance a ++ substance b.
Proof. apply List.filter_app. Qed.

Lemma substance_space (a : str) : all_space a -> substance a = [].
Proof.
  induction 1 as [|c a Hc _ IH]; [reflexivity |].
  unfold substance, is_dressing in *. cbn [List.filter]. rewrite Hc, !orb_true_r.
  exact IH.
Qed.

Lemma substance_trim (L : str) : substance (trim L) = substance L.
Proof.
  destruct (trim_split L) as (a1 & a2 & H1 & H2 & HL).
  rewrite HL at 2. rewrite !substance_app, (substance_space a1 H1), (substance_space a2 H2).
  rewrite app_nil_r. reflexivity.
Qed.

Lemma substance_unquoted (L : str) :
  substance (List.filter (fun c => negb (N.eqb c DQUOTE)) L) = substance L.
Proof.
  induction L as [|c L IH]; [reflexivity |].
  unfold substance, is_dressing in *. cbn [List.filter].
  destruct (N.eqb c DQUOTE) eqn:Hq; cbn [negb List.filter]; rewrite ?Hq, IH;
    [rewrite orb_true_r |]; reflexivity.
Qed.

(** A replacement that keeps the substance of every match keeps the
    substance of the text. *)
Lemma replace_substance (m : pattern) (f : list str -> str) :
  productive m ->
  (forall s len g, m s = Some (len, g) -> substance (f g) = substance (take len s)) ->
  forall n s, length s <= n -> substance (replace m f s) = substance s.
Proof.
  intros Hprod Hf. induction n as [|n IH]; intros s Hlen.
  - destruct s; [reflexivity | cbn [length] in Hlen; lia].
  - destruct s as [|c r]; [reflexivity |]. cbn [length] in Hlen.
    rewrite replace_cons. destruct (m (c :: r)) as [[len g]|] eqn:Hm.
    + pose proof (Hprod _ _ _ Hm) as Hpos.
      rewrite substance_app, (Hf _ _ _ Hm), IH by (rewrite length_drop; lia).
      rewrite <- substance_app. f_equal.
      destruct len as [|len]; [lia |].
      replace (S len - 1) with len by lia.
      change (drop len r) with (drop (S len) (c :: r)). apply take_drop.
    + change (c :: replace m f r) with ([c] ++ replace m f r).
      change (c :: r) with ([c] ++ r).
      rewrite !substance_app, IH by lia. reflexivity.
Qed.

Lemma TRAILING_SEMICOLON_substance (s : str) (len : nat) (g : list str) :
  TRAILING_SEMICOLON s = Some (len, g) -> substance [] = substance (take len s).
Proof.
  unfold TRAILING_SEMICOLON. destruct s as [|c r]; [discriminate |].
  destruct (N.eqb c (ch ";")) eqn:Hc; [| discriminate].
  intros H. apply greedy_Some in H as [i [[_ Hi] Hk]].
  destruct (at_eol (drop i r)); [| discriminate]. injection Hk as <- _.
  destruct (run_take _ r i Hi) as [Hall _].
  cbn [take firstn]. change (c :: take i r) with ([c] ++ take i r).
  rewrite substance_app, (substance_space (take i r) Hall), app_nil_r.
  unfold substance, is_dressing. cbn [List.filter]. rewrite Hc. reflexivity.
Qed.

Lemma NODE_LABEL_substance (s : str) (len : nat) (g : list str) :
  NODE_LABEL s = Some (len, g) -> substance (quote_label g) = substance (take len s).
Proof.
  intros H. apply NODE_LABEL_match in H as (L & -> & _ & _ & ->).
  rewrite quote_label_as_described. unfold label_rule. cbv zeta.
  destruct (quoted (trim L)); [reflexivity |].
  destruct (existsb is_special (trim L)); [| reflexivity].
  change ([ch "["; DQUOTE] ++ List.filter (fun c => negb (N.eqb c DQUOTE)) (trim L)
          ++ [DQUOTE; ch "]"])
    with ([ch "["; DQUOTE] ++ List.filter (fun c => negb (N.eqb c DQUOTE)) (trim L)
          ++ [DQUOTE] ++ [ch "]"]).
  rewrite !substance_app, substance_unquoted, substance_trim. reflexivity.
Qed.

Lemma take_length_take {A : Type} (n : nat) (s : list A) : take (length (take n s)) s = take n s.
Proof.
  rewrite length_take. destruct (Nat.le_ge_cases n (length s)) as [H | H].
  - rewrite Nat.min_l by exact H. reflexivity.
  - rewrite Nat.min_r by exact H. rewrite !take_ge by lia. reflexivity.
Qed.

Lemma arrowhead_take (s e : str) : arrowhead s = Some e -> take (length e) s = e.
Proof.
  unfold arrowhead. intros H.
  repeat match type of H with
         | (if ?b then _ else _) = _ => destruct b
         | match ?x with _ => _ end = _ => destruct x
         end;
    try discriminate; injection H as <-;
    first [reflexivity | exact (take_length_take 3 _)].
Qed.

(** What the edge-label pattern takes: the start of the edge, white
    space, the label, white space and the arrow. *)
Lemma EDGE_LABEL_match (s : str) (len : nat) (g : list str) :
  EDGE_LABEL s = Some (len, g) ->
  exists start ws1 label ws2 e,
    g = [start; label; e] /\ all_space ws1 /\ all_space ws2
    /\ take len s = start ++ ws1 ++ label ++ ws2 ++ e.
Proof.
  unfold EDGE_LABEL. destruct (_ || _); [| discriminate]. intros H.
  apply greedy_Some in H as [n1 [[_ Hn1] H]].
  apply reluctant_Some in H as [l [_ H]].
  apply greedy_Some in H as [n2 [[_ Hn2] H]].
  destruct (arrowhead _) as [e|] eqn:He; [| discriminate].
  injection H as <- <-.
  destruct (run_take _ _ _ Hn1) as [H1 _]. destruct (run_take _ _ _ Hn2) as [H2 _].
  apply arrowhead_take in He.
  exists (take 2 s), (take n1 (drop 2 s)), (take l (drop n1 (drop 2 s))),
    (take n2 (drop l (drop n1 (drop 2 s)))), e.
  split; [reflexivity |]. split; [exact H1 |]. split; [exact H2 |].
  assert (Hlen : take (2 + (n1 + (l + (n2 + length e)))) s =
                 take 2 s ++ take n1 (drop 2 s) ++ take l (drop n1 (drop 2 s))
                 ++ take n2 (drop l (drop n1 (drop 2 s))) ++ e).
  { rewrite !SegmentRuns.take_add_drop, He. reflexivity. }
  rewrite <- Hlen. f_equal. lia.
Qed.

Lemma EDGE_LABEL_substance (s : str) (len : nat) (g : list str) :
  EDGE_LABEL s = Some (len, g) -> substance (quote_edge_label g) = substance (take len s).
Proof.
  intros H. apply EDGE_LABEL_match in H as (start & ws1 & label & ws2 & e & -> & H1 & H2 & ->).
  unfold quote_edge_label.
  rewrite !substance_app, substance_trim, (substance_space ws1 H1), (substance_space ws2 H2).
  reflexivity.
Qed.

(** X5.  The three rules that quote and strip change nothing but
    semicolons, double quotes and white space. *)
Theorem rules_keep_substance (t : str) :
  substance (strip_semicolons t) = substance t
  /\ substance (quote_labels t) = substance t
  /\ substance (quote_edge_labels t) = substance t.
Proof.
  split; [| split].
  - apply (replace_substance _ _ TRAILING_SEMICOLON_productive
             TRAILING_SEMICOLON_substance (length t) t (le_n _)).
  - apply (replace_substance _ _ NODE_LABEL_productive
             NODE_LABEL_substance (length t) t (le_n _)).
  - apply (replace_substance _ _ EDGE_LABEL_productive
             EDGE_LABEL_substance (length t) t (le_n _)).
Qed.

Lemma substance_pipe (t : str) : ch "|" ∈ t <-> ch "|" ∈ substance t.
Proof.
  unfold substance. rewrite !list_elem_of_In, filter_In. split.
  - intros H. split; [exact H | reflexivity].
  - intros [H _]. exact H.
Qed.

(** X6.  On a diagram without a pipe the sanitizer changes nothing but
    semicolons, double quotes and white space. *)
Theorem sanitizeMermaid_keeps_substance (t : str) :
  (ch "|" ∉ t) -> substance (sanitizeMermaid t) = substance t.
Proof.
  intros Hno. unfold sanitizeMermaid.
  assert (H1 : substance (strip_semicolons t) = substance t)
    by apply (replace_substance _ _ TRAILING_SEMICOLON_productive
                TRAILING_SEMICOLON_substance (length t) t (le_n _)).
  assert (H2 : substance (quote_labels (strip_semicolons t)) = substance t).
  { rewrite <- H1.
    apply (replace_substance _ _ NODE_LABEL_productive
             NODE_LABEL_substance _ _ (le_n _)). }
  assert (H3 : escape_pipe_labels (quote_labels (strip_semicolons t))
               = quote_labels (strip_semicolons t)).
  { apply (replace_no_close (ch "|") (ch "|") 0).
    rewrite substance_pipe, H2, <- substance_pipe. exact Hno. }
  rewrite H3, <- H2.
  apply (replace_substance _ _ EDGE_LABEL_productive EDGE_LABEL_substance _ _ (le_n _)).
Qed.

Lemma sanitizeMermaid_keeps_substance_witness :
  substance (sanitizeMermaid (js "A[x: y] -- go --> B;"))
  = substance (js "A[x: y] -- go --> B;")
  /\ sanitizeMermaid (js "A[x: y] -- go --> B;") <> js "A[x: y] -- go --> B;".
Proof.
  split.
  - apply (sanitizeMermaid_keeps_substance (js "A[x: y] -- go --> B;")).
    apply (bool_decide_unpack _). vm_compute. reflexivity.
  - vm_compute. discriminate.
Defined.

End SanitizerMore.

(** * The segmentation: further properties *)

Module SegmentMore.
Import Js Regex MessageBubble JsSpec ScanSpec SegmentSpec SegmentMoreSpec JsFacts RegexFacts
  ScanFacts SegmentFacts SegmentRuns.

Lemma alternates_snoc_mermaid (b : bool) (segs : list Segment) (x : str) :
  alternates b segs = true -> alternates b (segs ++ [mermaid_segment x]) = true.
Proof.
  revert b. induction segs as [|seg segs IH]; intros b H; [reflexivity |].
  cbn [app alternates] in *. destruct (seg_type seg).
  - apply andb_true_iff in H as [H1 H2]. rewrite H1. cbn [andb]. apply IH. exact H2.
  - apply IH. exact H.
Qed.

Lemma ends_in_prose_cons (b : bool) (seg : Segment) (segs : list Segment) :
  ends_in_prose b (seg :: segs) = ends_in_prose (is_prose seg) segs.
Proof. unfold ends_in_prose. rewrite last_cons. destruct (last segs); reflexivity. Qed.

Lemma alternates_snoc_md (b : bool) (segs : list Segment) (x : str) :
  alternates b segs = true -> ends_in_prose b segs = false -> nonempty x = true ->
  alternates b (segs ++ [md_segment x]) = true.
Proof.
  revert b. induction segs as [|seg segs IH]; intros b H He Hx.
  - cbn in *. rewrite He, Hx. reflexivity.
  - rewrite ends_in_prose_cons in He. cbn [app alternates] in *.
    unfold is_prose in He. destruct (seg_type seg).
    + apply andb_true_iff in H as [H1 H2]. rewrite H1. cbn [andb].
      apply IH; assumption.
    + apply IH; assumption.
Qed.

Lemma ends_in_prose_snoc_mermaid (b : bool) (segs : list Segment) (x : str) :
  ends_in_prose b (segs ++ [mermaid_segment x]) = false.
Proof. unfold ends_in_prose. rewrite last_snoc. reflexivity. Qed.

Lemma slice_nonempty (a b : nat) (t : str) :
  a < b -> a < length t -> nonempty (slice a b t) = true.
Proof.
  intros Hab Ha. unfold slice.
  destruct (drop a t) as [|c r] eqn:Hd.
  - apply (f_equal length) in Hd. rewrite length_drop in Hd. cbn in Hd. lia.
  - replace (b - a) with (S (b - a - 1)) by lia. reflexivity.
Qed.

(** The loop over the fenced blocks keeps the list alternating and ends
    it with a diagram. *)
Lemma fenced_fold_alternates (t : str) (ms : list (nat * nat * list str)) (pos : nat) :
  tiled FENCED_MERMAID t pos ms ->
  forall segs,
    alternates false segs = true ->
    ends_in_prose false segs = false ->
    alternates false (fold_left (fenced_step t) ms (segs, pos)).1 = true
    /\ ends_in_prose false (fold_left (fenced_step t) ms (segs, pos)).1 = false.
Proof.
  induction 1 as [pos | pos index len g rest Hpos Hm _ IH]; intros segs Halt Hend.
  - split; assumption.
  - cbn [fold_left]. unfold fenced_step at 2 4.
    assert (Hidx : index < length t).
    { destruct (drop index t) eqn:Hd.
      - unfold FENCED_MERMAID in Hm. cbn in Hm. discriminate.
      - apply (f_equal length) in Hd. rewrite length_drop in Hd. cbn in Hd. lia. }
    apply IH.
    + fold (mermaid_segment (trim (group1 g))). apply alternates_snoc_mermaid.
      destruct (pos <? index) eqn:Hlt; [| exact Halt].
      apply Nat.ltb_lt in Hlt.
      fold (md_segment (slice pos index t)).
      apply alternates_snoc_md; [exact Halt | exact Hend |].
      apply slice_nonempty; lia.
    + fold (mermaid_segment (trim (group1 g))). apply ends_in_prose_snoc_mermaid.
Qed.

(** X7.  [parseSegments] either found no diagram and gives the whole text
    as its one prose segment, or it gives a list with a diagram in which
    no prose segment is empty and no two prose segments are
    neighbours. *)
Theorem parseSegments_alternates (t : str) :
  parseSegments t = [{| seg_type := Md; seg_text := t |}]
  \/ (alternates false (parseSegments t) = true
      /\ existsb is_diagram (parseSegments t) = true).
Proof.
  unfold parseSegments, parseSegments_with.
  destruct (matchAll FENCED_MERMAID t) as [|mt ms] eqn:Hms.
  - unfold fenced_pass. rewrite Hms. cbn [fold_left length Nat.ltb Nat.leb].
    destruct (extractRawMermaid t) as [raw|]; [right | left; reflexivity].
    destruct (raw_before raw) as [|c1 b], (raw_after raw) as [|c2 a]; split; reflexivity.
  - right.
    destruct (fenced_fold_alternates t (matchAll FENCED_MERMAID t) 0
                (matchAll_tiled _ FENCED_MERMAID_productive t) [] eq_refl eq_refl)
      as [Halt Hend].
    destruct (fenced_fold_segments t (matchAll FENCED_MERMAID t) [] 0) as (Hd & _ & Hlen).
    fold (fenced_pass t) in Halt, Hend, Hd, Hlen.
    assert (Hex : existsb is_diagram (fenced_pass t).1 = true).
    { rewrite Hms in Hd. cbn [List.filter map app] in Hd.
      destruct (List.filter is_diagram (fenced_pass t).1) as [|s l] eqn:Hf; [discriminate |].
      apply existsb_exists. exists s.
      assert (Hin : In s (List.filter is_diagram (fenced_pass t).1)) by (rewrite Hf; left; reflexivity).
      apply List.filter_In in Hin. exact Hin. }
    destruct (fenced_pass t) as [segs last] eqn:Hpass. cbn [fst snd] in *.
    rewrite Hms in Hlen. cbn [length] in Hlen.
    destruct (0 <? length segs) eqn:Hpos; [| apply Nat.ltb_ge in Hpos; lia].
    destruct (last <? length t) eqn:Hlt.
    + apply Nat.ltb_lt in Hlt. split.
      * fold (md_segment (slice_from last t)).
        apply alternates_snoc_md; [exact Halt | exact Hend |].
        unfold slice_from. destruct (drop last t) eqn:Hdr; [| reflexivity].
        apply (f_equal length) in Hdr. rewrite length_drop in Hdr. cbn in Hdr. lia.
      * rewrite existsb_app, Hex. reflexivity.
    + split; assumption.
Qed.

(** The loop over the lines, from any state it can be in. *)
Lemma line_loop_span (lines : list str) :
  forall st,
    (if inDiagram st
     then restLines st = [] /\ Forall (fun l => continues_diagram l = true) (mermaidLines st)
     else Forall (fun l => continues_diagram l = true) (mermaidLines st)
          /\ exists l ls, restLines st = l :: ls /\ continues_diagram l = false) ->
    let st' := fold_left line_step lines st in
    mermaidLines st' ++ restLines st' = mermaidLines st ++ restLines st ++ lines
    /\ Forall (fun l => continues_diagram l = true) (mermaidLines st')
    /\ match restLines st' with
       | [] => True
       | l :: _ => continues_diagram l = false
       end.
Proof.
  induction lines as [|line lines IH]; intros st Hst.
  - cbn. rewrite app_nil_r. split; [reflexivity |].
    destruct (inDiagram st).
    + destruct Hst as [-> Hall]. split; [exact Hall | exact I].
    + destruct Hst as [Hall (l & ls & -> & Hl)]. split; [exact Hall | exact Hl].
  - cbn [fold_left]. cbv zeta in IH |- *.
    destruct (IH (line_step st line)) as (H1 & H2 & H3).
    + unfold line_step. destruct (inDiagram st).
      * destruct Hst as [Hrest Hall]. destruct (continues_diagram line) eqn:Hc;
          cbn [inDiagram restLines mermaidLines].
        -- split; [exact Hrest |]. apply Forall_app_2; [exact Hall | repeat constructor; exact Hc].
        -- split; [exact Hall |]. rewrite Hrest. exists line, []. split; [reflexivity | exact Hc].
      * destruct Hst as [Hall (l & ls & Hrest & Hl)]. cbn [inDiagram restLines mermaidLines].
        split; [exact Hall |]. rewrite Hrest. exists l, (ls ++ [line]). split; [reflexivity | exact Hl].
    + split; [| split; assumption].
      rewrite H1. unfold line_step. destruct (inDiagram st).
      * destruct Hst as [Hrest _]. rewrite Hrest.
        destruct (continues_diagram line); cbn [mermaidLines restLines app];
          rewrite <- ?app_assoc; reflexivity.
      * cbn [mermaidLines restLines]. rewrite <- !app_assoc. reflexivity.
Qed.

(** X8.  The loop of [extractRawMermaid] cuts the lines in two at the
    first line that does not continue the diagram: the diagram lines are
    the lines before it, all of which continue the diagram, and the rest
    starts with it, whatever the later lines look like. *)
Theorem line_loop_cuts_at_first_other_line (lines : list str) :
  let st := fold_left line_step lines loop_start in
  mermaidLines st ++ restLines st = lines
  /\ Forall (fun l => continues_diagram l = true) (mermaidLines st)
  /\ match restLines st with
     | [] => True
     | l :: _ => continues_diagram l = false
     end.
Proof.
  intros st. subst st.
  destruct (line_loop_span lines loop_start) as (H1 & H2 & H3).
  - cbn. split; [reflexivity | constructor].
  - split; [exact H1 | split; assumption].
Qed.

End SegmentMore.

Module FencedMore.
Import Js Regex MessageBubble JsSpec ScanSpec SegmentSpec SegmentMoreSpec JsFacts RegexFacts
  ScanFacts SegmentFacts SegmentRuns.

(** A lazy quantifier stops at the first length that lets the rest of
    the pattern match. *)
Lemma reluctant_first {A : Type} (fuel lo : nat) (k : nat -> option A) (r : A) :
  reluctant fuel lo k = Some r ->
  exists j, k j = Some r /\ forall i, lo <= i < j -> k i = None.
Proof.
  revert lo. induction fuel as [|fuel IH]; intros lo; cbn [reluctant]; [discriminate |].
  destruct (k lo) as [x|] eqn:Hk.
  - intros [= <-]. exists lo. split; [exact Hk | intros i Hi; lia].
  - intros H. apply IH in H as (j & Hj & Hfirst). exists j. split; [exact Hj |].
    intros i Hi. destruct (decide (i = lo)) as [-> | Hne]; [exact Hk | apply Hfirst; lia].
Qed.

Lemma startsWith_take (n : nat) (s p : str) :
  startsWith (take n s) p = true -> startsWith s p = true.
Proof.
  intros H. apply startsWith_app in H.
  rewrite <- (take_drop n s), H, <- app_assoc. apply startsWith_prefix.
Qed.

Lemma startsWith_app_l (b c p : str) :
  startsWith b p = true -> startsWith (b ++ c) p = true.
Proof.
  intros H. apply startsWith_app in H. rewrite H, <- app_assoc. apply startsWith_prefix.
Qed.

Lemma includes_app_l (b c p : str) : includes b p = true -> includes (b ++ c) p = true.
Proof.
  induction b as [|x b IH]; cbn [includes app].
  - rewrite orb_false_r. intros H. destruct p; [| discriminate].
    destruct c; reflexivity.
  - intros H. apply orb_true_iff in H as [H | H].
    + change (x :: b ++ c) with ((x :: b) ++ c).
      rewrite (startsWith_app_l _ c _ H). reflexivity.
    + rewrite (IH H). apply orb_true_r.
Qed.

Lemma includes_app_r (a b p : str) : includes b p = true -> includes (a ++ b) p = true.
Proof.
  intros H. induction a as [|x a IH]; [exact H |].
  cbn [app includes]. rewrite IH. apply orb_true_r.
Qed.

(** A text that does not start with [p] at any of its first [j]
    positions does not hold [p] in its first [j] code units. *)
Lemma includes_take (p : str) (j : nat) :
  p <> [] ->
  forall rest,
    (forall i, i < j -> startsWith (drop i rest) p = false) ->
    includes (take j rest) p = false.
Proof.
  intros Hp. induction j as [|j IH]; intros rest Hfirst.
  - rewrite take_0. destruct p; [congruence | reflexivity].
  - destruct rest as [|c r]; [destruct p; [congruence | reflexivity] |].
    cbn [take firstn includes]. apply orb_false_iff. split.
    + destruct (startsWith (c :: take j r) p) eqn:Hs; [| reflexivity].
      apply (startsWith_take (S j) (c :: r)) in Hs.
      rewrite <- (Hfirst 0 ltac:(lia)). symmetry. exact Hs.
    + apply IH. intros i Hi. apply (Hfirst (S i)). lia.
Qed.

(** The body of a fenced block ends at the first closing fence. *)
Lemma FENCED_MERMAID_body (s : str) (len : nat) (g : list str) :
  FENCED_MERMAID s = Some (len, g) ->
  exists body, g = [body] /\ includes body (js "```") = false.
Proof.
  unfold FENCED_MERMAID. destruct (startsWith s (js "```mermaid")); [| discriminate].
  intros H. apply greedy_Some in H as [i [_ Hk]].
  destruct (drop i (drop 10 s)) as [|c rest]; [discriminate |].
  destruct (N.eqb c NL); [| discriminate].
  apply reluctant_first in Hk as (j & Hj & Hfirst).
  destruct (startsWith (drop j rest) (js "```")); [| discriminate].
  injection Hj as _ <-. exists (take j rest). split; [reflexivity |].
  apply includes_take; [discriminate |].
  intros n Hn. specialize (Hfirst n ltac:(lia)). cbv beta in Hfirst.
  destruct (startsWith (drop n rest) (js "```")); [discriminate | reflexivity].
Qed.

Lemma includes_trim (body p : str) : includes (trim body) p = true -> includes body p = true.
Proof.
  destruct (trim_split body) as (a1 & a2 & _ & _ & Hb). intros H.
  rewrite Hb. apply includes_app_r, includes_app_l, H.
Qed.

(** X9.  When the text has a fenced block, no diagram segment holds a
    fence: a block ends at the first closing fence behind its opening. *)
Theorem fenced_diagrams_hold_no_fence (t : str) :
  matchAll FENCED_MERMAID t <> [] ->
  Forall (fun d => includes d (js "```") = false)
         (map seg_text (List.filter is_diagram (parseSegments t))).
Proof.
  intros Hms. unfold parseSegments, parseSegments_with, fenced_pass.
  destruct (fenced_fold_segments t (matchAll FENCED_MERMAID t) [] 0) as (Hd & _ & Hlen).
  destruct (fold_left (fenced_step t) (matchAll FENCED_MERMAID t) ([], 0))
    as [segs last] eqn:Hfold.
  cbn [fst snd] in Hd, Hlen.
  assert (Hpos : (0 <? length segs) = true).
  { apply Nat.ltb_lt. destruct (matchAll FENCED_MERMAID t); [congruence |].
    cbn [length] in Hlen. lia. }
  rewrite Hpos.
  assert (Hsame : map seg_text
                    (List.filter is_diagram
                       (if last <? length t
                        then segs ++ [{| seg_type := Md; seg_text := slice_from last t |}]
                        else segs))
                  = map seg_text (List.filter is_diagram segs)).
  { destruct (last <? length t); [| reflexivity].
    rewrite List.filter_app. cbn. rewrite app_nil_r. reflexivity. }
  rewrite Hsame, Hd. cbn [List.filter map app].
  apply Forall_forall. intros d Hin.
  apply list_elem_of_fmap in Hin as ([[i len] g] & -> & Hin). cbn [snd].
  apply (matchAll_sound _ FENCED_MERMAID_productive) in Hin.
  apply FENCED_MERMAID_body in Hin as (body & -> & Hbody).
  change (group1 [body]) with body.
  destruct (includes (trim body) (js "```")) eqn:Hinc; [| reflexivity].
  apply includes_trim in Hinc. congruence.
Qed.

Lemma fenced_diagrams_hold_no_fence_witness :
  matchAll FENCED_MERMAID fenced_example <> []
  /\ Forall (fun d => includes d (js "```") = false)
       (map seg_text (List.filter is_diagram (parseSegments fenced_example))).
Proof.
  assert (H : matchAll FENCED_MERMAID fenced_example <> []) by (vm_compute; discriminate).
  split; [exact H | exact (fenced_diagrams_hold_no_fence fenced_example H)].
Defined.

End FencedMore.

Module RawMore.
Import Js Regex MessageBubble JsSpec ScanSpec SegmentSpec SegmentMoreSpec JsFacts RegexFacts
  ScanFacts SegmentFacts SegmentRuns.

Lemma keywords_solid : forallb solid keywords = true.
Proof. vm_compute. reflexivity. Qed.

(** Where the search finds a keyword, there is one. *)
Lemma MERMAID_KEYWORDS_from_here (s : str) :
  forall bol idx,
    MERMAID_KEYWORDS_from bol s = Some idx -> keyword_here (drop idx s) = true.
Proof.
  induction s as [|c r IH]; intros bol idx; cbn [MERMAID_KEYWORDS_from].
  - destruct (bol && keyword_here []) eqn:Hk; [| discriminate].
    intros [= <-]. apply andb_true_iff in Hk as [_ Hk]. exact Hk.
  - destruct (bol && keyword_here (c :: r)) eqn:Hk.
    + intros [= <-]. apply andb_true_iff in Hk as [_ Hk]. exact Hk.
    + destruct (MERMAID_KEYWORDS_from (is_line_terminator c) r) as [i|] eqn:Hrec;
        [| discriminate].
      cbn. intros [= <-]. cbn [drop]. eapply IH. exact Hrec.
Qed.

(** The first line of a text. *)
Lemma split_first (s : str) :
  exists l0 ls rest,
    split NL s = l0 :: ls /\ s = l0 ++ rest /\ (rest = [] \/ exists r, rest = NL :: r).
Proof.
  induction s as [|c r (l0 & ls & rest & Hs & Hr & Hrest)].
  - exists [], [], []. repeat split. left. reflexivity.
  - cbn [split]. destruct (N.eqb c NL) eqn:Hc.
    + apply N.eqb_eq in Hc. subst c. exists [], (split NL r), (NL :: r).
      repeat split. right. eexists. reflexivity.
    + rewrite Hs. exists (c :: l0), ls, rest. repeat split; [| exact Hrest].
      cbn. congruence.
Qed.

Lemma startsWith_line (k l0 rest : str) :
  startsWith (l0 ++ rest) k = true ->
  existsb (N.eqb NL) k = false ->
  (rest = [] \/ exists r, rest = NL :: r) ->
  startsWith l0 k = true.
Proof.
  revert l0. induction k as [|a k IH]; intros l0 Hs Hk Hrest; [reflexivity |].
  cbn [existsb] in Hk. apply orb_false_iff in Hk as [Ha Hk].
  destruct l0 as [|b l0].
  - cbn [app] in Hs. destruct Hrest as [-> | [r ->]]; [discriminate |].
    cbn [startsWith] in Hs. apply andb_true_iff in Hs as [Hab _].
    apply N.eqb_eq in Hab. subst a. rewrite N.eqb_refl in Ha. discriminate.
  - cbn [app startsWith] in *. apply andb_true_iff in Hs as [Hab Hs].
    rewrite Hab. cbn [andb]. apply IH; assumption.
Qed.

(** A keyword at the start of a text is a keyword at the start of its
    first line. *)
Lemma keyword_here_line (l0 rest : str) :
  keyword_here (l0 ++ rest) = true ->
  (rest = [] \/ exists r, rest = NL :: r) ->
  exists k, In k keywords /\ startsWith l0 k = true /\ keyword_here l0 = true.
Proof.
  unfold keyword_here at 1. intros H Hrest.
  apply existsb_exists in H as (k & Hin & Hk).
  apply andb_true_iff in Hk as [Hstart Hbound].
  pose proof keywords_solid as Hsolid. rewrite forallb_forall in Hsolid.
  specialize (Hsolid k Hin). unfold solid in Hsolid.
  apply andb_true_iff in Hsolid as [Hsolid _]. apply andb_true_iff in Hsolid as [Hnl _].
  apply negb_true_iff in Hnl.
  assert (Hl0 : startsWith l0 k = true) by (eapply startsWith_line; eassumption).
  exists k. split; [exact Hin |]. split; [exact Hl0 |].
  unfold keyword_here. apply existsb_exists. exists k. split; [exact Hin |].
  rewrite Hl0. cbn [andb].
  apply startsWith_app in Hl0. rewrite Hl0 in Hbound |- *.
  rewrite <- app_assoc in Hbound. rewrite drop_app_length in Hbound |- *.
  destruct (drop (length k) l0) as [|c l']; [reflexivity | exact Hbound].
Qed.

Lemma continues_keyword_line (l : str) :
  keyword_here l = true -> continues_diagram l = true.
Proof.
  intros H. unfold continues_diagram.
  assert (Hk : MERMAID_KEYWORDS l = Some 0).
  { unfold MERMAID_KEYWORDS. destruct l; cbn [MERMAID_KEYWORDS_from]; rewrite H; reflexivity. }
  rewrite Hk. rewrite (bool_decide_eq_true_2 _ (mk_is_Some _ _ eq_refl)).
  rewrite orb_true_r. reflexivity.
Qed.

Lemma trimStart_stops (a b : str) (c : N) (b' : str) :
  b = c :: b' -> is_space c = false -> exists a', trimStart (a ++ b) = a' ++ b.
Proof.
  intros -> Hc. induction a as [|x a [a' IH]].
  - exists []. cbn [app trimStart]. rewrite Hc. reflexivity.
  - cbn [app trimStart]. destruct (is_space x).
    + exists a'. exact IH.
    + exists (x :: a). reflexivity.
Qed.

(** [trim] keeps a solid start of the text. *)
Lemma trim_keeps_solid_prefix (k r : str) :
  solid k = true -> exists r', trim (k ++ r) = k ++ r'.
Proof.
  unfold solid. intros H. apply andb_true_iff in H as [H Hlast].
  apply andb_true_iff in H as [_ Hfirst].
  destruct k as [|c k']; [discriminate |].
  destruct (rev (c :: k')) as [|z kr] eqn:Hrev; [discriminate |].
  apply negb_true_iff in Hfirst, Hlast.
  unfold trim. cbn [app trimStart]. rewrite Hfirst.
  unfold trimEnd. change (c :: k' ++ r) with ((c :: k') ++ r).
  rewrite rev_app_distr, Hrev.
  destruct (trimStart_stops (rev r) (z :: kr) z kr eq_refl Hlast) as [a' Ha].
  rewrite Ha, rev_app_distr, <- Hrev, rev_involutive. eexists. reflexivity.
Qed.

Lemma mermaidLines_grow (lines : list str) :
  forall st, exists x,
    mermaidLines (fold_left line_step lines st) = mermaidLines st ++ x.
Proof.
  induction lines as [|line lines IH]; intros st.
  - exists []. cbn. rewrite app_nil_r. reflexivity.
  - cbn [fold_left]. destruct (IH (line_step st line)) as [x Hx]. rewrite Hx.
    unfold line_step. destruct (inDiagram st); [destruct (continues_diagram line) |];
      cbn [mermaidLines]; [exists ([line] ++ x); rewrite app_assoc | exists x | exists x];
      reflexivity.
Qed.

Lemma pop_blank_keeps_last (y : list str) (l0 : str) :
  nonempty (trim l0) = true -> exists z, pop_blank (y ++ [l0]) = z ++ [l0].
Proof.
  intros H. induction y as [|x y [z IH]].
  - exists []. cbn. rewrite H. reflexivity.
  - cbn [app pop_blank]. destruct (nonempty (trim x)).
    + exists (x :: y). reflexivity.
    + exists z. exact IH.
Qed.

Lemma join_head (sep : N) (l : str) (ls : list str) : exists r, join sep (l :: ls) = l ++ r.
Proof.
  destruct ls as [|l' ls].
  - exists []. cbn. rewrite app_nil_r. reflexivity.
  - exists (sep :: join sep (l' :: ls)). reflexivity.
Qed.

(** X10.  The diagram that the raw detection extracts starts with the
    keyword that was found, so it is not empty. *)
Theorem raw_diagram_starts_with_keyword (t : str) (raw : RawMermaid) :
  extractRawMermaid t = Some raw ->
  existsb (startsWith (raw_mermaid raw)) keywords = true
  /\ nonempty (raw_mermaid raw) = true.
Proof.
  unfold extractRawMermaid.
  destruct (MERMAID_KEYWORDS t) as [startIdx|] eqn:Hk; [| discriminate].
  intros [= <-]. cbn [raw_mermaid].
  set (m := trim _).
  enough (Hm : exists k r', In k keywords /\ solid k = true /\ m = k ++ r').
  { destruct Hm as (k & r' & Hin & Hsolid & ->). split.
    - apply existsb_exists. exists k. split; [exact Hin | apply startsWith_prefix].
    - destruct k; [discriminate | reflexivity]. }
  subst m.
  apply MERMAID_KEYWORDS_from_here in Hk.
  destruct (split_first (slice_from startIdx t)) as (l0 & ls & rest & Hsplit & Hs & Hrest).
  unfold slice_from in *. rewrite Hs in Hk.
  destruct (keyword_here_line l0 rest Hk Hrest) as (k & Hin & Hstart & Hl0).
  pose proof (continues_keyword_line l0 Hl0) as Hcont.
  pose proof keywords_solid as Hsolid. rewrite forallb_forall in Hsolid.
  specialize (Hsolid k Hin).
  apply startsWith_app in Hstart.
  assert (Hblank : nonempty (trim l0) = true).
  { rewrite Hstart. destruct (trim_keeps_solid_prefix k (drop (length k) l0) Hsolid) as [r' ->].
    destruct k; [discriminate | reflexivity]. }
  rewrite Hsplit. cbn [fold_left]. unfold line_step at 2. cbn [inDiagram mermaidLines restLines].
  rewrite Hcont. cbn [app].
  destruct (mermaidLines_grow ls
              {| mermaidLines := [l0]; restLines := []; inDiagram := true |}) as [x Hx].
  rewrite Hx. cbn [mermaidLines app rev].
  destruct (pop_blank_keeps_last (rev x) l0 Hblank) as [z Hz]. rewrite Hz.
  rewrite rev_app_distr. cbn [rev app].
  destruct (join_head NL l0 (rev z)) as [r Hr]. rewrite Hr, Hstart, <- app_assoc.
  destruct (trim_keeps_solid_prefix k (drop (length k) l0 ++ r) Hsolid) as [r' Hr'].
  exists k, r'. split; [exact Hin |]. split; [exact Hsolid | exact Hr'].
Qed.

Lemma raw_diagram_starts_with_keyword_witness :
  exists raw,
    extractRawMermaid raw_example = Some raw
    /\ existsb (startsWith (raw_mermaid raw)) keywords = true
    /\ nonempty (raw_mermaid raw) = true.
Proof.
  eexists. split; [vm_compute; reflexivity |].
  apply (raw_diagram_starts_with_keyword raw_example). vm_compute. reflexivity.
Defined.

End RawMore.

(** * The render pipeline: further properties *)

Module RenderMore.
Import Js Regex MessageBubble Async Render SegmentSpec RenderSpec RenderMoreSpec RenderFacts.

Lemma segment_run_issued mp seg u tr :
  segment_run mp seg u tr ->
  (if is_diagram seg then 1 else 0) <= issued_count tr
  /\ issued_count tr <= (if is_diagram seg then 2 else 0).
Proof. intros H. destruct H; cbn; lia. Qed.

Lemma runs_issued mp segs units traces :
  Forall3 (segment_run mp) segs units traces ->
  length (List.filter is_diagram segs) <= issued_count (concat traces)
  /\ issued_count (concat traces) <= 2 * length (List.filter is_diagram segs).
Proof.
  induction 1 as [|seg u tr segs units traces Hrun _ IH]; [cbn; lia |].
  apply segment_run_issued in Hrun. unfold issued_count in *.
  cbn [concat List.filter]. rewrite List.filter_app, length_app.
  destruct (is_diagram seg); cbn [length]; lia.
Qed.

Lemma segment_run_calls mp seg u tr : segment_run mp seg u tr -> calls_fit seg tr.
Proof. intros H. destruct H; cbn; [reflexivity | left | right | right]; reflexivity. Qed.

Lemma runs_calls mp segs units traces :
  Forall3 (segment_run mp) segs units traces -> Forall2 calls_fit segs traces.
Proof.
  induction 1 as [|seg u tr segs units traces Hrun _ IH]; constructor;
    [eapply segment_run_calls; exact Hrun | exact IH].
Qed.

(** X11.  The events of an invocation are the runs of its segments, one
    for each segment and in their order, and each run holds the render
    calls of its segment: none for a prose segment; for a diagram
    segment one call with the sanitized text of that segment, or that
    call and then a second one with the text as it came.  So an
    invocation issues at least one and at most two render calls for each
    diagram segment, and none for prose. *)
Theorem render_attempts_bounded
    (marked_parse : str -> str) (mermaid_outcome : nat -> str -> str -> Result str)
    (Date_now Math_random : nat -> str) (segs : list Segment) (w : World) :
  exists units traces w',
    render_segments marked_parse mermaid_outcome Date_now Math_random segs w = (Ok tt, w')
    /\ Forall3 (segment_run marked_parse) segs units traces
    /\ log w' = log w ++ concat traces ++ [Published units]
    /\ Forall2 calls_fit segs traces
    /\ Forall2 (fun seg tr =>
                  issued_count tr = length (calls_of tr)
                  /\ (if is_diagram seg then 1 <= issued_count tr <= 2
                      else issued_count tr = 0))
               segs traces
    /\ length (List.filter is_diagram segs) <= issued_count (concat traces)
    /\ issued_count (concat traces) <= 2 * length (List.filter is_diagram segs).
Proof.
  destruct (render_segments_run marked_parse mermaid_outcome Date_now Math_random segs w)
    as (units & traces & w' & Hrun & Hall & Hlog & Hren).
  exists units, traces, w'. destruct (runs_issued _ _ _ _ Hall) as [H1 H2].
  split; [exact Hrun |]. split; [exact Hall |]. split; [exact Hlog |].
  split; [eapply runs_calls; exact Hall |].
  split; [| split; assumption].
  clear -Hall. induction Hall as [|seg u tr segs units traces Hseg _ IH]; constructor;
    [| exact IH].
  destruct Hseg; cbn; repeat split; lia.
Qed.

Lemma segment_run_cleaned_up mp seg u tr (rest : list Event) :
  segment_run mp seg u tr -> cleaned_up (tr ++ rest) = cleaned_up rest.
Proof.
  intros H. destruct H; cbn [app cleaned_up];
    rewrite ?bool_decide_eq_true_2 by reflexivity; reflexivity.
Qed.

Lemma runs_cleaned_up mp segs units traces (rest : list Event) :
  Forall3 (segment_run mp) segs units traces ->
  cleaned_up (concat traces ++ rest) = cleaned_up rest.
Proof.
  induction 1 as [|seg u tr segs units traces Hrun _ IH]; [reflexivity |].
  cbn [concat]. rewrite <- app_assoc, (segment_run_cleaned_up _ _ _ _ _ Hrun). exact IH.
Qed.

(** X12.  In the events of an invocation, every render call that failed is
    followed at once by the removal of the element registered under its
    identity, and nothing is removed after a call that succeeded. *)
Theorem render_cleans_up_failures
    (marked_parse : str -> str) (mermaid_outcome : nat -> str -> str -> Result str)
    (Date_now Math_random : nat -> str) (segs : list Segment) (w : World) :
  exists evs w',
    render_segments marked_parse mermaid_outcome Date_now Math_random segs w = (Ok tt, w')
    /\ log w' = log w ++ evs
    /\ cleaned_up evs = true.
Proof.
  destruct (render_segments_run marked_parse mermaid_outcome Date_now Math_random segs w)
    as (units & traces & w' & Hrun & Hall & Hlog & Hren).
  exists (concat traces ++ [Published units]), w'.
  split; [exact Hrun |]. split; [exact Hlog |].
  rewrite (runs_cleaned_up _ _ _ _ [Published units] Hall). reflexivity.
Qed.

(** X13.  A text without fenced block and without keyword line goes to
    [marked.parse] whole, as it is, and no render call is issued. *)
Theorem plain_text_is_rendered_whole
    (marked_parse : str -> str) (mermaid_outcome : nat -> str -> str -> Result str)
    (Date_now Math_random : nat -> str) (t : str) (w : World) :
  matchAll FENCED_MERMAID t = [] ->
  MERMAID_KEYWORDS t = None ->
  render marked_parse mermaid_outcome Date_now Math_random (Some t) w =
  (Ok tt, {| rendered := [Html (marked_parse t)]; clock := clock w;
             log := log w ++ [Published [Html (marked_parse t)]] |}).
Proof.
  intros Hf Hk. unfold render. change (default [] (Some t)) with t.
  assert (Hseg : parseSegments t = [{| seg_type := Md; seg_text := t |}]).
  { unfold parseSegments, parseSegments_with, fenced_pass, extractRawMermaid.
    rewrite Hf, Hk. reflexivity. }
  rewrite Hseg. reflexivity.
Qed.

Lemma plain_text_is_rendered_whole_witness :
  let t := js "  Revenue rose; see [Q3 report](a.pdf)." ++ [NL] in
  matchAll FENCED_MERMAID t = [] /\ MERMAID_KEYWORDS t = None
  /\ render (fun s => s) (fun _ _ _ => Ok []) (fun _ => []) (fun _ => []) (Some t) start =
     (Ok tt, {| rendered := [Html t]; clock := 0; log := [Published [Html t]] |}).
Proof.
  intros t.
  assert (Hf : matchAll FENCED_MERMAID t = []) by (vm_compute; reflexivity).
  assert (Hk : MERMAID_KEYWORDS t = None) by (vm_compute; reflexivity).
  split; [exact Hf |]. split; [exact Hk |].
  exact (plain_text_is_rendered_whole (fun s => s) (fun _ _ _ => Ok []) (fun _ => [])
           (fun _ => []) t start Hf Hk).
Defined.

End RenderMore.

(** * The chat, the panel and the filters: further properties *)

Module ChatMore.
Import Js Async Filters Chat ApiClient ChatPanel JsSpec ChatSpec PanelSpec JsFacts.

Section Sources.
Variable Source : Type.

Lemma step_all_defined (w w' : ChatWorld Source) :
  step Source w w' -> greets Source w -> all_defined Source w -> all_defined Source w'.
Proof.
  unfold all_defined. intros Hstep [rest Hw] Hall.
  destruct Hstep as [query w | outcome w | w].
  - cbn. apply Forall_app_2; [exact Hall | constructor; [discriminate | constructor]].
  - destruct outcome as [data | e]; cbn;
      (apply Forall_app_2; [exact Hall | constructor; [discriminate | constructor]]).
  - cbn. rewrite Hw. cbn. constructor; [discriminate | constructor].
Qed.

Lemma reachable_all_defined (w : ChatWorld Source) :
  reachable Source w -> greets Source w /\ all_defined Source w.
Proof.
  induction 1 as [| w w' _ [Hg Hd] Hstep].
  - split; [exists []; reflexivity |].
    constructor; [discriminate | constructor].
  - split.
    + destruct Hg as [rest Hw]. destruct Hstep as [query w | outcome w | w].
      * exists (rest ++ [Some {| role := user; content := query; sources := [] |}]).
        cbn. rewrite Hw. reflexivity.
      * destruct outcome as [data | e]; cbn; rewrite Hw; eexists; reflexivity.
      * exists []. cbn. rewrite Hw. reflexivity.
    + eapply step_all_defined; eassumption.
Qed.

End Sources.

(** X14.  In every state that the chat can reach, every element of the
    array is a message: [clearChat] never stores the [undefined] that
    index 0 of an empty array would give. *)
Theorem chat_messages_are_defined (Source : Type) (w : ChatWorld Source) :
  reachable Source w -> Forall (fun m => m <> None) (messages Source w).
Proof. intros H. apply (reachable_all_defined Source w H). Qed.

Lemma chat_messages_are_defined_witness :
  reachable unit (clearChat unit (initial unit)).2
  /\ Forall (fun m => m <> None) (messages unit (clearChat unit (initial unit)).2).
Proof.
  assert (H : reachable unit (clearChat unit (initial unit)).2).
  { eapply reachable_step; [apply reachable_initial | apply step_clear]. }
  split; [exact H | exact (chat_messages_are_defined unit _ H)].
Defined.

End ChatMore.

Module PanelMore.
Import Js Async Filters Chat ApiClient ChatPanel JsSpec ChatSpec PanelSpec JsFacts.

Lemma trimStart_all_space (s : str) : all_space s -> trimStart s = [].
Proof.
  induction 1 as [|c s Hc _ IH]; [reflexivity |]. cbn [trimStart]. rewrite Hc. exact IH.
Qed.

Lemma trim_all_space (s : str) : all_space s -> trim s = [].
Proof. intros H. unfold trim. rewrite (trimStart_all_space s H). reflexivity. Qed.

Section Panel.
Variable Source : Type.
Variable number : Type.
Variable number_truthy : number -> bool.
Variable parseInt : jsval number -> number.
Variable network : nat -> Request number -> Result (Response (Answer Source)).

Lemma getActiveFilters_no_query (fw : FilterWorld number) :
  getActiveFilters number number_truthy parseInt fw !! "query"%string = None.
Proof.
  unfold getActiveFilters.
  destruct (truthy number number_truthy (selectedOwner number fw));
  destruct (truthy number number_truthy (selectedCompany number fw));
  destruct (truthy number number_truthy (selectedCategory number fw));
  destruct (truthy number number_truthy (selectedYear number fw));
  repeat (rewrite lookup_insert_ne by discriminate); apply lookup_empty.
Qed.

End Panel.

(** X15.  A submit of an input that is white space only does nothing: no
    message is appended, no request leaves the page, the input stays. *)
Theorem handleSubmit_blank_is_ignored
    (Source number : Type) (number_truthy : number -> bool)
    (parseInt : jsval number -> number)
    (network : nat -> Request number -> Result (Response (Answer Source)))
    (fw : FilterWorld number) (w : PanelWorld Source number) :
  all_space (input Source number w) ->
  handleSubmit Source number number_truthy parseInt network fw w = (Ok tt, w).
Proof.
  intros H. unfold handleSubmit, bind, get. rewrite (trim_all_space _ H). reflexivity.
Qed.

Lemma handleSubmit_blank_is_ignored_witness :
  let w : PanelWorld unit unit :=
    {| input := js "  " ++ [NL; TAB]; chat := initial unit; requests := [] |} in
  all_space (input unit unit w)
  /\ handleSubmit unit unit (fun _ => true) (fun _ => tt)
       (fun _ _ => Threw (js "offline")) (Filters.initial unit) w = (Ok tt, w).
Proof.
  intros w.
  assert (H : all_space (input unit unit w)) by (repeat constructor).
  split; [exact H |].
  exact (handleSubmit_blank_is_ignored unit unit (fun _ => true) (fun _ => tt)
           (fun _ _ => Threw (js "offline")) (Filters.initial unit) w H).
Defined.

(** X16.  A submit of any other input never throws: it empties the input,
    sends one request with the trimmed input and the active filters,
    appends the trimmed input as the message of the user and then one
    message of the assistant, which is the answer, or the error of the
    network, of the status, or of the body; and it leaves [loading]
    false. *)
Theorem handleSubmit_sends_once
    (Source number : Type) (number_truthy : number -> bool)
    (parseInt : jsval number -> number)
    (network : nat -> Request number -> Result (Response (Answer Source)))
    (fw : FilterWorld number) (w : PanelWorld Source number) :
  nonempty (trim (input Source number w)) = true ->
  let query := trim (input Source number w) in
  let request :=
    query_request number query (getActiveFilters number number_truthy parseInt fw) in
  handleSubmit Source number number_truthy parseInt network fw w =
  (Ok tt,
   {| input := [];
      chat :=
        {| messages :=
             messages Source (chat Source number w)
             ++ [Some {| role := user; content := query; sources := [] |};
                 Some (reply_of Source
                         (network (length (requests Source number w)) request))];
           loading := false |};
      requests := requests Source number w ++ [request] |}).
Proof.
  intros H query request. subst query request.
  unfold handleSubmit, bind, get. rewrite H. cbn [negb].
  unfold sendMessage_via_client, set_input, modify, bind, settled, on_chat, postQuery, fetch,
    bind, query_request, reply_of.
  cbn -[js decimal app].
  destruct (network _ _) as [res | e]; cbn -[js decimal app].
  - destruct (ok res); cbn -[js decimal app].
    + destruct (json res) as [data | e]; cbn -[js decimal app];
        rewrite <- app_assoc; reflexivity.
    + rewrite <- app_assoc. reflexivity.
  - rewrite <- app_assoc. reflexivity.
Qed.

Lemma handleSubmit_sends_once_witness :
  let w : PanelWorld unit unit :=
    {| input := js " hello "; chat := initial unit; requests := [] |} in
  nonempty (trim (input unit unit w)) = true
  /\ (handleSubmit unit unit (fun _ => true) (fun _ => tt)
        (fun _ _ => Ok {| ok := false; status := 503; json := Threw [] |})
        (Filters.initial unit) w).1 = Ok tt
  /\ last (messages unit (chat unit unit
        (handleSubmit unit unit (fun _ => true) (fun _ => tt)
           (fun _ _ => Ok {| ok := false; status := 503; json := Threw [] |})
           (Filters.initial unit) w).2))
     = Some (Some {| role := assistant; content := js "Error: Query failed: 503";
                     sources := [] |}).
Proof.
  intros w.
  assert (H : nonempty (trim (input unit unit w)) = true) by (vm_compute; reflexivity).
  split; [exact H |].
  rewrite (handleSubmit_sends_once unit unit (fun _ => true) (fun _ => tt)
             (fun _ _ => Ok {| ok := false; status := 503; json := Threw [] |})
             (Filters.initial unit) w H).
  split; vm_compute; reflexivity.
Defined.

(** X17.  The body of a query holds the query under its own key and the
    active filters under theirs: no filter of [getActiveFilters] can
    take the place of the query, although the spread in the body lets a
    filter named query win. *)
Theorem query_body_keeps_query
    (number : Type) (number_truthy : number -> bool)
    (parseInt : jsval number -> number) (fw : FilterWorld number) (query : str) :
  let filters := getActiveFilters number number_truthy parseInt fw in
  query_body number query filters !! "query"%string = Some (JStr number query)
  /\ (forall k, k <> "query"%string -> query_body number query filters !! k = filters !! k)
  /\ (forall (other : gmap string (jsval number)) v,
        other !! "query"%string = Some v ->
        query_body number query other !! "query"%string = Some v).
Proof.
  intros filters. unfold query_body. split; [| split].
  - rewrite lookup_union_r by apply getActiveFilters_no_query.
    apply lookup_singleton_eq.
  - intros k Hk. rewrite lookup_union, lookup_singleton_ne by congruence.
    destruct (filters !! k); reflexivity.
  - intros other v Hv. apply lookup_union_Some_l. exact Hv.
Qed.

(** X18.  After [clearFilters] no filter is active, whatever was selected,
    and the lists of the selects are kept. *)
Theorem clearFilters_deactivates_all
    (number : Type) (number_truthy : number -> bool)
    (parseInt : jsval number -> number) (w : FilterWorld number) :
  getActiveFilters number number_truthy parseInt (clearFilters number w) = ∅
  /\ owners number (clearFilters number w) = owners number w
  /\ companies number (clearFilters number w) = companies number w
  /\ categories number (clearFilters number w) = categories number w
  /\ clearFilters number (clearFilters number w) = clearFilters number w.
Proof. repeat split. Qed.

(** X19.  [loadFilters] assigns the three lists together or not at all.
    When the three fetches succeed, the lists are what was fetched and
    the selections, hence the active filters, are untouched; when one of
    them fails, the call fails and no list changes, not even the ones
    whose fetch succeeded. *)
Theorem loadFilters_all_or_nothing
    (number : Type) (number_truthy : number -> bool)
    (parseInt : jsval number -> number)
    (o co ca : Result (list (jsval number))) (w : FilterWorld number) :
  match o, co, ca with
  | Ok a, Ok b, Ok c =>
      exists w',
        loadFilters number o co ca w = (Ok tt, w')
        /\ owners number w' = a /\ companies number w' = b /\ categories number w' = c
        /\ getActiveFilters number number_truthy parseInt w'
           = getActiveFilters number number_truthy parseInt w
  | _, _, _ => exists e, loadFilters number o co ca w = (Threw e, w)
  end.
Proof.
  destruct o as [a|e1], co as [b|e2], ca as [c|e3];
    try (eexists; reflexivity).
  eexists. repeat split.
Qed.

End PanelMore.

(** * The graph: further properties *)

Module GraphMore.
Import Js Async Graph.

Section Explorer.
Variable Id : Type.
Variable Member : Type.
Variable Object_prototype : str -> option Member.

Lemma edge_ids_from (n : nat) (l : list (Edge Id)) :
  map (edge_id Id) (imap (fun i => edge_view Id (n + i)) l) = seq n (length l).
Proof.
  revert n. induction l as [|e l IH]; intros n; [reflexivity |].
  cbn [imap map length seq]. rewrite Nat.add_0_r. f_equal.
  rewrite <- (IH (S n)). f_equal. apply imap_ext. intros i x _. cbn. f_equal. lia.
Qed.

End Explorer.

(** X20.  The hook of the explorer draws exactly when the fetch gave data
    and the container is there; [graphLoading] is false when it ends,
    whatever happened; a failed fetch leaves the data as they were and
    its error leaves the hook. *)
Theorem Explorer_draws_when_loaded
    (Id Member : Type) (Object_prototype : str -> option Member)
    (container : bool) (getGraphData : Result (option (GraphData Id)))
    (w : GraphWorld Id) :
  Explorer_onMounted Id Member Object_prototype container getGraphData w =
  match getGraphData with
  | Ok d =>
      (Ok match d with
          | Some g =>
              if container
              then Some (map (node_view Id Member Object_prototype) (nodes Id g),
                         imap (edge_view Id) (edges Id g))
              else None
          | None => None
          end,
       {| graphData := d; graphLoading := false |})
  | Threw e => (Threw e, {| graphData := graphData Id w; graphLoading := false |})
  end.
Proof.
  destruct getGraphData as [[g|]|e]; [destruct container | |]; reflexivity.
Qed.

(** X21.  The edges handed to the network are the edges of the data in
    their order, each under its position as identity, so no two of them
    share an identity; the nodes keep their identities and their order. *)
Theorem drawing_numbers_edges
    (Id Member : Type) (Object_prototype : str -> option Member)
    (loading : bool) (g : GraphData Id) :
  exists node_views edge_views,
    drawing Id Member Object_prototype true
      {| graphData := Some g; graphLoading := loading |} = Some (node_views, edge_views)
    /\ map (edge_id Id) edge_views = seq 0 (length (edges Id g))
    /\ NoDup (map (edge_id Id) edge_views)
    /\ map (edge_from Id) edge_views = map (source Id) (edges Id g)
    /\ map (edge_to Id) edge_views = map (target Id) (edges Id g)
    /\ map (edge_label Id) edge_views = map (relationship Id) (edges Id g)
    /\ map (view_id Id Member) node_views = map (node_id Id) (nodes Id g).
Proof.
  eexists _, _. split; [reflexivity |].
  assert (Hids : map (edge_id Id) (imap (edge_view Id) (edges Id g))
                 = seq 0 (length (edges Id g))).
  { exact (edge_ids_from Id 0 (edges Id g)). }
  split; [exact Hids |]. split; [rewrite Hids; apply NoDup_seq |].
  assert (Hmap : forall {B} (f : EdgeView Id -> B) (h : Edge Id -> B),
             (forall i e, f (edge_view Id i e) = h e) ->
             forall l n, map f (imap (fun i => edge_view Id (n + i)) l) = map h l).
  { intros B f h Hfh l. induction l as [|e l IH]; intros n; [reflexivity |].
    cbn [imap map]. rewrite Hfh. f_equal. rewrite <- (IH (S n)). f_equal.
    apply imap_ext. intros i x _. cbn. f_equal. lia. }
  split; [exact (Hmap _ (edge_from Id) (source Id) (fun _ _ => eq_refl) (edges Id g) 0) |].
  split; [exact (Hmap _ (edge_to Id) (target Id) (fun _ _ => eq_refl) (edges Id g) 0) |].
  split; [exact (Hmap _ (edge_label Id) (relationship Id) (fun _ _ => eq_refl) (edges Id g) 0) |].
  rewrite map_map. reflexivity.
Qed.

End GraphMore.
